(** * pennylane-forest: the quantum-computer device core

    A shallow embedding of [pennylane_forest/qc.py] and
    [pennylane_forest/qvm.py]: the tensor contraction [mat_vec_product],
    the parametric program builder, the compilation cache driven by
    [generate_samples], sample extraction, [reset], the constructors and
    the wire map. *)

From Stdlib Require Import ZArith Lia List Permutation Sorted PrimFloat.
From stdpp Require Import gmap strings list fin_maps pretty.

Set Default Proof Using "Type".
Set Warnings "-clear-no-such-hyp".
Open Scope nat_scope.

(** ** Python exceptions and fallible computations *)

Inductive exn : Type :=
  | ValueError (msg : string)
  | KeyError (key : string)
  | IndexError (msg : string)
  | DeviceError (msg : string)
  | WireError (msg : string).

Inductive result (A : Type) : Type :=
  | Ok (a : A)
  | Raise (e : exn).
Arguments Ok {A} a.
Arguments Raise {A} e.

Definition rbind {A B} (r : result A) (k : A -> result B) : result B :=
  match r with
  | Ok a => k a
  | Raise e => Raise e
  end.

Notation "x <~ r ;; k" := (rbind r (fun x => k))
  (at level 100, r at next level, right associativity).

(** ** Scalars

    numpy contracts arrays of complex floating-point numbers.  The array
    operations are defined over any scalars with a zero, a one, a sum and a
    product.  What is proved about the values they compute is proved for
    scalars with exact arithmetic, a semiring; binary64 floating-point
    numbers, whose sum is not associative, are scalars and not a
    semiring. *)

Record Scalars : Type := {
  carrier :> Type;
  zero : carrier;
  one : carrier;
  add : carrier -> carrier -> carrier;
  mul : carrier -> carrier -> carrier
}.
Arguments zero {_}.
Arguments one {_}.
Arguments add {_} _ _.
Arguments mul {_} _ _.

Record Semiring : Type := {
  scalars :> Scalars;
  add_0_l : forall x : scalars, add zero x = x;
  add_comm : forall x y : scalars, add x y = add y x;
  add_assoc : forall x y z : scalars, add x (add y z) = add (add x y) z;
  mul_0_l : forall x : scalars, mul zero x = zero;
  mul_0_r : forall x : scalars, mul x zero = zero;
  mul_1_l : forall x : scalars, mul one x = x;
  mul_assoc : forall x y z : scalars, mul x (mul y z) = mul (mul x y) z;
  mul_add_distr_l : forall x y z : scalars,
    mul x (add y z) = add (mul x y) (mul x z);
  mul_add_distr_r : forall x y z : scalars,
    mul (add x y) z = add (mul x z) (mul y z)
}.

Definition Z_scalars : Scalars :=
  {| carrier := Z; zero := 0%Z; one := 1%Z; add := Z.add; mul := Z.mul |}.

Definition Z_semiring : Semiring :=
  {| scalars := Z_scalars;
     add_0_l := Z.add_0_l; add_comm := Z.add_comm; add_assoc := Z.add_assoc;
     mul_0_l := Z.mul_0_l; mul_0_r := Z.mul_0_r; mul_1_l := Z.mul_1_l;
     mul_assoc := Z.mul_assoc; mul_add_distr_l := Z.mul_add_distr_l;
     mul_add_distr_r := Z.mul_add_distr_r |}.

(** IEEE 754 binary64 numbers, numpy's [float64]. *)
Definition float64 : Scalars :=
  {| carrier := PrimFloat.float; zero := 0%float; one := 1%float;
     add := PrimFloat.add; mul := PrimFloat.mul |}.

(** ** numpy arrays

    An array is its shape and its elements in C (row-major) order. *)

Module Np.
Section Arrays.
Context {R : Scalars}.

Record ndarray : Type := mk_ndarray { shape : list nat; data : list R }.

Definition prod_list (s : list nat) : nat := fold_right Nat.mul 1 s.

Definition wf (a : ndarray) : Prop := length (data a) = prod_list (shape a).

(** Offset of a multi-index in row-major order. *)
Fixpoint ravel (s idx : list nat) : nat :=
  match s, idx with
  | _ :: s', i :: idx' => i * prod_list s' + ravel s' idx'
  | _, _ => 0
  end.

(** All multi-indices of a shape, in row-major order. *)
Fixpoint indices (s : list nat) : list (list nat) :=
  match s with
  | [] => [[]]
  | d :: s' => flat_map (fun i => map (cons i) (indices s')) (seq 0 d)
  end.

Definition get (a : ndarray) (idx : list nat) : R :=
  nth (ravel (shape a) idx) (data a) zero.

Definition build (s : list nat) (f : list nat -> R) : ndarray :=
  mk_ndarray s (map f (indices s)).

Definition rsum (l : list R) : R := fold_right add zero l.

Definition mem (x : nat) (l : list nat) : bool := existsb (Nat.eqb x) l.

(** Position of the first occurrence of [x] ([length l] when absent). *)
Fixpoint index_of (x : nat) (l : list nat) : nat :=
  match l with
  | [] => 0
  | y :: l' => if Nat.eqb x y then 0 else S (index_of x l')
  end.

Definition list_eqb (l1 l2 : list nat) : bool :=
  bool_decide (l1 = l2).

(** [np.reshape(a, newshape)]: same elements, new shape. *)
Definition reshape (a : ndarray) (newshape : list nat) : result ndarray :=
  if Nat.eqb (prod_list newshape) (prod_list (shape a))
  then Ok (mk_ndarray newshape (data a))
  else Raise (ValueError "cannot reshape array").

(** No axis is listed twice. *)
Fixpoint no_repeat (l : list nat) : bool :=
  match l with
  | [] => true
  | x :: l' => negb (mem x l') && no_repeat l'
  end.

(** [np.transpose(a, axes)]: axis [m] of the result is axis [axes[m]]
    of [a]; [axes] must list every axis of [a] once. *)
Definition transpose (a : ndarray) (axes : list nat) : result ndarray :=
  let n := length (shape a) in
  if negb (Nat.eqb (length axes) n)
  then Raise (ValueError "axes don't match array")
  else if negb (forallb (fun ax => Nat.ltb ax n) axes)
  then Raise (ValueError "axis is out of bounds for array")
  else if negb (no_repeat axes)
  then Raise (ValueError "repeated axis in transpose")
  else Ok (build (map (fun ax => nth ax (shape a) 0) axes)
             (fun i => get a (map (fun p => nth (index_of p axes) i 0) (seq 0 n)))).

(** [np.dot] of two 2-D arrays. *)
Definition dot (a b : ndarray) : result ndarray :=
  match shape a, shape b with
  | [n; m], [m'; p] =>
      if Nat.eqb m m'
      then Ok (build [n; p] (fun idx =>
                 let i := nth 0 idx 0 in
                 let j := nth 1 idx 0 in
                 rsum (map (fun x => mul (get a [i; x]) (get b [x; j])) (seq 0 m))))
      else Raise (ValueError "shapes not aligned")
  | _, _ => Raise (ValueError "shapes not aligned")
  end.

(** The loop of [tensordot] over the contracted axes: it reads the two
    dimensions of each pair and stops at the first pair that differs. *)
Fixpoint axes_equal (as_ bs axes_a axes_b : list nat) : result bool :=
  match axes_a, axes_b with
  | ax :: axes_a', bx :: axes_b' =>
      match nth_error as_ ax with
      | None => Raise (IndexError "tuple index out of range")
      | Some da =>
          match nth_error bs bx with
          | None => Raise (IndexError "tuple index out of range")
          | Some db =>
              if Nat.eqb da db then axes_equal as_ bs axes_a' axes_b'
              else Ok false
          end
      end
  | _, _ => Ok true
  end.

(** [np.tensordot(a, b, axes=(axes_a, axes_b))], as numpy implements it:
    move the contracted axes to the end of [a] and to the front of [b],
    flatten both to matrices, multiply, and restore the free axes. *)
Definition tensordot (a b : ndarray) (axes_a axes_b : list nat)
  : result ndarray :=
  let as_ := shape a in
  let bs := shape b in
  let nda := length as_ in
  let ndb := length bs in
  equal <~ (if Nat.eqb (length axes_a) (length axes_b)
            then axes_equal as_ bs axes_a axes_b
            else Ok false) ;;
  if negb equal
  then Raise (ValueError "shape-mismatch for sum")
  else
    let notin_a := List.filter (fun k => negb (mem k axes_a)) (seq 0 nda) in
    let newaxes_a := notin_a ++ axes_a in
    let N2a := prod_list (map (fun ax => nth ax as_ 0) axes_a) in
    let olda := map (fun ax => nth ax as_ 0) notin_a in
    let newshape_a := [prod_list olda; N2a] in
    let notin_b := List.filter (fun k => negb (mem k axes_b)) (seq 0 ndb) in
    let newaxes_b := axes_b ++ notin_b in
    let N2b := prod_list (map (fun ax => nth ax bs 0) axes_b) in
    let oldb := map (fun ax => nth ax bs 0) notin_b in
    let newshape_b := [N2b; prod_list oldb] in
    ta <~ transpose a newaxes_a ;;
    at_ <~ reshape ta newshape_a ;;
    tb <~ transpose b newaxes_b ;;
    bt <~ reshape tb newshape_b ;;
    res <~ dot at_ bt ;;
    reshape res (olda ++ oldb).

(** Insertion of a (key, position) pair, stable with respect to keys. *)
Fixpoint insert_by_key (x : nat * nat) (l : list (nat * nat))
  : list (nat * nat) :=
  match l with
  | [] => [x]
  | y :: l' => if Nat.leb (fst y) (fst x) then y :: insert_by_key x l'
               else x :: l
  end.

Definition key_le (x y : nat * nat) : Prop := fst x <= fst y.

Definition sort_by_key (l : list (nat * nat)) : list (nat * nat) :=
  fold_left (fun acc x => insert_by_key x acc) l [].

(** [np.argsort(l)]: the positions of [l] in ascending order of value. *)
Definition argsort (l : list nat) : list nat :=
  map snd (sort_by_key (combine l (seq 0 (length l)))).

End Arrays.
Arguments ndarray : clear implicits.
End Np.

Import Np.

(** ** [QuantumComputerDevice.mat_vec_product] *)

Definition dimension_message (num_wires : nat) : string :=
  "Please specify a " +:+ pretty (2 ^ num_wires) +:+ " x "
    +:+ pretty (2 ^ num_wires) +:+ " matrix for " +:+ pretty num_wires
    +:+ " wires.".

Definition mat_vec_product {R : Scalars} (self_num_wires : nat)
    (mat vec : ndarray R) (device_wire_labels : list nat)
  : result (ndarray R) :=
  let num_wires := length device_wire_labels in
  if negb (list_eqb (shape mat) [2 ^ num_wires; 2 ^ num_wires])
  then Raise (ValueError (dimension_message num_wires))
  else
    mat <~ reshape mat (repeat 2 (length device_wire_labels * 2)) ;;
    vec <~ reshape vec (repeat 2 self_num_wires) ;;
    let axes := (seq (length device_wire_labels) (length device_wire_labels),
                 device_wire_labels) in
    tdot <~ tensordot mat vec (fst axes) (snd axes) ;;
    let unused_idxs :=
      List.filter (fun idx => negb (mem idx device_wire_labels))
                  (seq 0 self_num_wires) in
    let perm := device_wire_labels ++ unused_idxs in
    let inv_perm := argsort perm in
    state_multi_index <~ transpose tdot inv_perm ;;
    reshape state_multi_index [2 ^ self_num_wires].

(** The errors that the numpy operations of the model raise. *)
Definition raised_by_numpy (e : exn) : bool :=
  match e with
  | ValueError msg =>
      bool_decide (msg ∈ ["cannot reshape array"; "axes don't match array";
                          "axis is out of bounds for array";
                          "repeated axis in transpose";
                          "shapes not aligned"; "shape-mismatch for sum"])
  | IndexError _ => true
  | _ => false
  end.

Definition numpy_only {A} (r : result A) : Prop :=
  match r with
  | Ok _ => True
  | Raise e => raised_by_numpy e = true
  end.

(** Reading a multi-index at the positions [p], and the converse: placing
    the entries of [x] at the positions listed in [p]. *)
Definition gather (p i : list nat) : list nat := map (fun q => nth q i 0) p.

Definition ungather (p : list nat) (n : nat) (x : list nat) : list nat :=
  map (fun q => nth (index_of q p) x 0) (seq 0 n).

(** The registers of [n] qubits: multi-indices of the shape [[2] * n]. *)
Definition bits (n : nat) (i : list nat) : Prop := Forall2 lt i (repeat 2 n).

(** The untouched qubits, in ascending order. *)
Definition unused_idxs (n : nat) (ws : list nat) : list nat :=
  List.filter (fun idx => negb (mem idx ws)) (seq 0 n).

(** The amplitude that contracting [mat] with [vec] over the qubits [ws]
    leaves at the register [i]: the row of [mat] selected by the bits of [i]
    at [ws], against the amplitudes of [vec] at the registers that agree
    with [i] outside [ws]. *)
Definition contract_at {R : Scalars} (n : nat) (ws : list nat)
    (mat vec : ndarray R) (i : list nat) : R :=
  let k := length ws in
  let unused := unused_idxs n ws in
  rsum (map (fun c =>
          mul (nth (ravel (repeat 2 (k * 2)) (gather ws i ++ c)) (data mat) zero)
              (nth (ravel (repeat 2 n) (ungather (ws ++ unused) n (c ++ gather unused i)))
                   (data vec) zero))
        (indices (repeat 2 k))).

(** The amplitude of the state vector [v] of [n] qubits at the register
    [i]. *)
Definition amplitude {R : Scalars} (n : nat) (v : ndarray R) (i : list nat)
  : R :=
  nth (ravel (repeat 2 n) i) (data v) zero.

(** The register [i] with the bits of the qubits [ws] replaced by [c]. *)
Definition with_bits (n : nat) (ws c i : list nat) : list nat :=
  map (fun q => if mem q ws then nth (index_of q ws) c 0 else nth q i 0)
      (seq 0 n).

(** The entrywise sum of two arrays of one shape (numpy's [u + v]). *)
Definition vadd {R : Scalars} (u v : ndarray R) : ndarray R :=
  mk_ndarray (shape u) (map (fun xy => add (fst xy) (snd xy))
                            (combine (data u) (data v))).

(** The identity matrix. *)
Definition eye {R : Scalars} (m : nat) : ndarray R :=
  build [m; m] (fun idx => if Nat.eqb (nth 0 idx 0) (nth 1 idx 0) then one else zero).

(** The Pauli-X matrix and the two-qubit state |00>. *)
Definition pauli_x {R : Scalars} : ndarray R :=
  mk_ndarray [2; 2] [zero; one; one; zero].

Definition ket00 {R : Scalars} : ndarray R :=
  mk_ndarray [4] [one; zero; zero; zero].

(** An integer matrix on two qubits, its inverse, and a state of three. *)
Definition shear : ndarray Z_semiring :=
  @mk_ndarray Z_semiring [4; 4]
    [1; 2; 0; 0;
     0; 1; 0; 0;
     0; 0; 1; 3;
     0; 0; 0; 1]%Z.

Definition shear_inv : ndarray Z_semiring :=
  @mk_ndarray Z_semiring [4; 4]
    [1; -2; 0; 0;
     0; 1; 0; 0;
     0; 0; 1; -3;
     0; 0; 0; 1]%Z.

Definition ramp : ndarray Z_semiring :=
  @mk_ndarray Z_semiring [8] [1; 2; 3; 4; 5; 6; 7; 8]%Z.

(** A 1x1 matrix. *)
Definition scalar_five : ndarray Z_semiring :=
  @mk_ndarray Z_semiring [1; 1] [5%Z].

(** A basis state of three qubits. *)
Definition spike : ndarray Z_semiring :=
  @mk_ndarray Z_semiring [8] [0; 0; 0; 0; 0; 1; 0; 0]%Z.

(** A binary64 matrix on one qubit whose entries differ by sixteen orders of
    magnitude, its inverse, and a state of one qubit. *)
Definition steep : ndarray float64 :=
  @mk_ndarray float64 [2; 2] [1; 1e16; 0; 1]%float.

Definition steep_inv : ndarray float64 :=
  @mk_ndarray float64 [2; 2] [1; -1e16; 0; 1]%float.

Definition ones : ndarray float64 :=
  @mk_ndarray float64 [2] [1; 1]%float.

(** ** The device: programs, parameter binding table, compilation cache *)

Section Device.
(** Opaque to this core: numeric parameter values, compiled artifacts,
    the gate constructors stored in the supported-operation table, and
    logical wire labels. *)
Context {Value Executable Gate Wire : Type}.

(** A circuit parameter is a Python object: [id(param)], its
    [requires_grad] attribute ([False] when the object has none) and the
    number it wraps. *)
Record param : Type := mk_param {
  py_id : N;
  requires_grad : bool;
  unwrap : Value
}.

Record operation : Type := mk_operation {
  op_name : string;
  op_data : list param;
  op_wires : list Wire
}.

(** pyquil's [MemoryReference(name, offset)]. *)
Record MemoryReference : Type := mk_ref {
  ref_name : string;
  ref_offset : nat
}.

(** What an operation constructor receives for a parameter: a memory
    reference, or the parameter itself. *)
Inductive arg : Type :=
  | ArgRef (r : MemoryReference)
  | ArgLit (p : param).

(** What a program is made of.  [Apply g par qubits] is what the call of
    the table entry [g] on [par] and [qubits] returns, one or several Quil
    instructions (the entry of [BasisState] returns one per wire), which
    [prog += ...] appends as they come: an item of a program is a whole
    such block, or a single instruction of the other kinds. *)
Inductive instr : Type :=
  | Pragma (command : string) (args : list string)
  | RESET
  | DECLARE (name memory_type : string) (memory_size : nat)
  | MEASURE (qubit : nat) (classical_reg : MemoryReference)
  | Apply (g : Gate) (par : list arg) (qubits : list nat).

(** pyquil's [Program]: instructions, the values written to its memory
    regions and the shot count. *)
Record Program : Type := mk_Program {
  instructions : list instr;
  memory : gmap string (list Value);
  num_shots : nat
}.

Definition empty_Program : Program := mk_Program [] ∅ 1.

(** A string inside double quotes. *)
Definition quoted (s : string) : string :=
  String (Ascii.ascii_of_nat 34) (s +:+ String (Ascii.ascii_of_nat 34) EmptyString).

Definition Program_add (p q : Program) : Program :=
  mk_Program (instructions p ++ instructions q)
             (memory p ∪ memory q) (num_shots p).

Definition Program_inst (p : Program) (i : instr) : Program :=
  mk_Program (instructions p ++ [i]) (memory p) (num_shots p).

Definition write_memory (p : Program) (region_name : string)
    (value : list Value) : Program :=
  mk_Program (instructions p) (<[region_name := value]> (memory p))
             (num_shots p).

Definition wrap_in_numshots_loop (p : Program) (shots : nat) : Program :=
  mk_Program (instructions p) (memory p) shots.

Definition samples : Type := list (list nat).

Record QAMExecutionResult : Type := mk_QAMExecutionResult {
  readout_data : gmap string samples
}.

(** The pyQuil [QuantumComputer]: its name and its answers to [compile]
    and [run], either of which may raise. *)
Record QuantumComputer : Type := mk_QuantumComputer {
  qc_name : string;
  qc_compile : Program -> result Executable;
  qc_run : Program + Executable -> result QAMExecutionResult
}.

Record device : Type := mk_device {
  short_name : string;
  parametric_compilation : bool;
  qc : QuantumComputer;
  wiring : list nat;
  active_reset : bool;
  shots : nat;
  _operation_map : gmap string Gate;
  _circuit_hash : option Z;
  _compiled_program_dict : gmap Z Executable;
  _compiled_program : option Executable;
  _parameter_map : gmap string (list Value);
  _parameter_reference_map : gmap string MemoryReference;
  prog : Program
}.

Definition set_prog (f : Program -> Program) (self : device) : device :=
  mk_device (short_name self) (parametric_compilation self) (qc self)
    (wiring self) (active_reset self) (shots self) (_operation_map self)
    (_circuit_hash self) (_compiled_program_dict self)
    (_compiled_program self) (_parameter_map self)
    (_parameter_reference_map self) (f (prog self)).

Definition set_parameter_map
    (f : gmap string (list Value) -> gmap string (list Value))
    (self : device) : device :=
  mk_device (short_name self) (parametric_compilation self) (qc self)
    (wiring self) (active_reset self) (shots self) (_operation_map self)
    (_circuit_hash self) (_compiled_program_dict self)
    (_compiled_program self) (f (_parameter_map self))
    (_parameter_reference_map self) (prog self).

Definition set_parameter_reference_map
    (f : gmap string MemoryReference -> gmap string MemoryReference)
    (self : device) : device :=
  mk_device (short_name self) (parametric_compilation self) (qc self)
    (wiring self) (active_reset self) (shots self) (_operation_map self)
    (_circuit_hash self) (_compiled_program_dict self)
    (_compiled_program self) (_parameter_map self)
    (f (_parameter_reference_map self)) (prog self).

Definition set_circuit_hash (h : option Z) (self : device) : device :=
  mk_device (short_name self) (parametric_compilation self) (qc self)
    (wiring self) (active_reset self) (shots self) (_operation_map self)
    h (_compiled_program_dict self)
    (_compiled_program self) (_parameter_map self)
    (_parameter_reference_map self) (prog self).

Definition set_compiled_program_dict
    (f : gmap Z Executable -> gmap Z Executable) (self : device) : device :=
  mk_device (short_name self) (parametric_compilation self) (qc self)
    (wiring self) (active_reset self) (shots self) (_operation_map self)
    (_circuit_hash self) (f (_compiled_program_dict self))
    (_compiled_program self) (_parameter_map self)
    (_parameter_reference_map self) (prog self).

Definition set_compiled_program (e : option Executable) (self : device)
  : device :=
  mk_device (short_name self) (parametric_compilation self) (qc self)
    (wiring self) (active_reset self) (shots self) (_operation_map self)
    (_circuit_hash self) (_compiled_program_dict self)
    e (_parameter_map self)
    (_parameter_reference_map self) (prog self).

Definition set_qc (q : QuantumComputer) (self : device) : device :=
  mk_device (short_name self) (parametric_compilation self) q
    (wiring self) (active_reset self) (shots self) (_operation_map self)
    (_circuit_hash self) (_compiled_program_dict self)
    (_compiled_program self) (_parameter_map self)
    (_parameter_reference_map self) (prog self).

(** *** Methods run on the device and may raise: a state and error monad *)

Definition M (A : Type) : Type := device -> device * result A.

Definition ret {A} (a : A) : M A := fun self => (self, Ok a).

Definition raise {A} (e : exn) : M A := fun self => (self, Raise e).

Definition bind {A B} (m : M A) (k : A -> M B) : M B :=
  fun self =>
    match m self with
    | (self', Ok a) => k a self'
    | (self', Raise e) => (self', Raise e)
    end.

Definition gets {A} (f : device -> A) : M A := fun self => (self, Ok (f self)).

Definition modify (f : device -> device) : M unit :=
  fun self => (f self, Ok tt).

Notation "x <- m ;; k" := (bind m (fun x => k))
  (at level 100, m at next level, right associativity).

(** [self.prog.declare(name, memory_type, memory_size)] *)
Definition declare (name memory_type : string) (memory_size : nat)
  : M MemoryReference :=
  _ <- modify (set_prog (fun p => Program_inst p (DECLARE name memory_type memory_size))) ;;
  ret (mk_ref name 0).

(** ["pyqvm" in self.qc.name] *)
Definition is_pyqvm (self : device) : bool :=
  match String.index 0 "pyqvm" (qc_name (qc self)) with
  | Some _ => true
  | None => false
  end.

(** [operation.name in ("QubitStateVector", "BasisState")] *)
Definition is_state_preparation (name : string) : bool :=
  String.eqb name "QubitStateVector" || String.eqb name "BasisState".

Definition state_preparation_message (name short : string) : string :=
  "Operation " +:+ name +:+
  " cannot be used after other Operations have already been applied on a "
  +:+ short +:+ " device.".

(** ["theta" + str(id(param))] *)
Definition parameter_string (p : param) : string :=
  "theta" +:+ pretty (py_id p).

(** [Device.map_wires], from PennyLane: the device qubits of logical
    wires, or the message of the [WireError] that it raises when one of
    the wires is not a wire of the device. *)
Variable map_wires : list Wire -> string + list nat.

(** [self.map_wires(wires)] *)
Definition mapped (wires : list Wire) : M (list nat) :=
  fun self =>
    match map_wires wires with
    | inr device_wires => (self, Ok device_wires)
    | inl msg => (self, Raise (WireError msg))
    end.

(** The loop over [operation.data] of [apply_parametric_operations]. *)
Fixpoint prepare_parameters (name : string) (data : list param)
  : M (list arg) :=
  match data with
  | [] => ret []
  | p :: rest =>
      a <- (if requires_grad p && negb (String.eqb name "BasisState")
            then
              refs <- gets _parameter_reference_map ;;
              _ <- (match refs !! parameter_string p with
                    | None =>
                        current_ref <- declare (parameter_string p) "REAL" 1 ;;
                        modify (set_parameter_reference_map
                                  (insert (parameter_string p) current_ref))
                    | Some _ => ret tt
                    end) ;;
              _ <- modify (set_parameter_map
                             (insert (parameter_string p) [unwrap p])) ;;
              refs <- gets _parameter_reference_map ;;
              match refs !! parameter_string p with
              | Some r => ret (ArgRef r)
              | None => raise (KeyError (parameter_string p))
              end
            else ret (ArgLit p)) ;;
      par <- prepare_parameters name rest ;;
      ret (a :: par)
  end.

(** [QuantumComputerDevice.apply_parametric_operations]; [i] is the
    position given by [enumerate] and [built] the local [prog].  The wires
    of an operation are mapped before its position is checked, its
    parameters are bound and its name is looked up. *)
Fixpoint apply_parametric_loop (i : nat) (operations : list operation)
    (built : Program) : M Program :=
  match operations with
  | [] => ret built
  | operation :: rest =>
      device_wires <- mapped (op_wires operation) ;;
      if Nat.ltb 0 i && is_state_preparation (op_name operation)
      then
        short <- gets short_name ;;
        raise (DeviceError
                 (state_preparation_message (op_name operation) short))
      else
        par <- prepare_parameters (op_name operation) (op_data operation) ;;
        table <- gets _operation_map ;;
        match table !! op_name operation with
        | None => raise (KeyError (op_name operation))
        | Some g =>
            apply_parametric_loop (S i) rest
              (Program_inst built (Apply g par device_wires))
        end
  end.

Definition apply_parametric_operations (operations : list operation)
  : M Program :=
  apply_parametric_loop 0 operations empty_Program.

(** Modelled from the spec: [ForestDevice.apply_circuit_operations]
    (device.py is not among the sources).  Section 4.1: each operation is
    looked up in the supported-operation table, its wires are mapped, its
    parameters are passed through as literal values, and a
    state-preparation operation that is not the first one is rejected.
    The steps are taken in the order of [apply_parametric_operations]:
    the wires are mapped first. *)
Fixpoint apply_circuit_loop (i : nat) (operations : list operation)
    (built : Program) : M Program :=
  match operations with
  | [] => ret built
  | operation :: rest =>
      device_wires <- mapped (op_wires operation) ;;
      if Nat.ltb 0 i && is_state_preparation (op_name operation)
      then
        short <- gets short_name ;;
        raise (DeviceError
                 (state_preparation_message (op_name operation) short))
      else
        table <- gets _operation_map ;;
        match table !! op_name operation with
        | None => raise (KeyError (op_name operation))
        | Some g =>
            apply_circuit_loop (S i) rest
              (Program_inst built
                 (Apply g (map ArgLit (op_data operation)) device_wires))
        end
  end.

(** Modelled from the spec: the entry point of the loop above, which
    starts from an empty program as [apply_parametric_operations] does. *)
Definition apply_circuit_operations (operations : list operation)
  : M Program :=
  apply_circuit_loop 0 operations empty_Program.

(** Modelled from the spec: [ForestDevice.apply_rotations] (device.py is
    not among the sources).  Section 4.1: the rotations are appended with
    the same mapping rule, wires first, and are never parametric. *)
Fixpoint apply_rotations (rotations : list operation) (built : Program)
  : M Program :=
  match rotations with
  | [] => ret built
  | operation :: rest =>
      device_wires <- mapped (op_wires operation) ;;
      table <- gets _operation_map ;;
      match table !! op_name operation with
      | None => raise (KeyError (op_name operation))
      | Some g =>
          apply_rotations rest
            (Program_inst built
               (Apply g (map ArgLit (op_data operation)) device_wires))
      end
  end.

(** Ascending insertion, for [sorted(self.wiring.values())]. *)
Fixpoint insert_sorted (x : nat) (l : list nat) : list nat :=
  match l with
  | [] => [x]
  | y :: l' => if Nat.leb x y then x :: l else y :: insert_sorted x l'
  end.

Definition sorted (l : list nat) : list nat := fold_right insert_sorted [] l.

(** The loop [for i, q in enumerate(qubits): MEASURE(q, ro[i])]. *)
Fixpoint measure_all (i : nat) (qubits : list nat) (ro : MemoryReference)
  : M unit :=
  match qubits with
  | [] => ret tt
  | q :: rest =>
      _ <- modify (set_prog (fun p =>
             Program_inst p (MEASURE q (mk_ref (ref_name ro) i)))) ;;
      measure_all (S i) rest ro
  end.

(** [QuantumComputerDevice.apply] *)
Definition apply (operations rotations : list operation) : M unit :=
  reset_flag <- gets active_reset ;;
  let prag := mk_Program [Pragma "INITIAL_REWIRING" [quoted "PARTIAL"]] ∅ 1 in
  let prag := if reset_flag then Program_inst prag RESET else prag in
  _ <- modify (set_prog (fun p => Program_add prag p)) ;;
  parametric <- gets parametric_compilation ;;
  pyqvm <- gets is_pyqvm ;;
  built <- (if parametric && negb pyqvm
            then apply_parametric_operations operations
            else apply_circuit_operations operations) ;;
  _ <- modify (set_prog (fun p => Program_add p built)) ;;
  rots <- apply_rotations rotations empty_Program ;;
  _ <- modify (set_prog (fun p => Program_add p rots)) ;;
  qubits <- gets (fun self => sorted (wiring self)) ;;
  ro <- declare "ro" "BIT" (length qubits) ;;
  _ <- measure_all 0 qubits ro ;;
  n <- gets shots ;;
  modify (set_prog (fun p => wrap_in_numshots_loop p n)).

(** The [circuit_hash] property. *)
Definition circuit_hash (self : device) : option Z :=
  if parametric_compilation self then _circuit_hash self else None.

(** [extract_samples]: [readout_data.get("ro", [])] *)
Definition extract_samples (execution_results : QAMExecutionResult)
  : samples :=
  default [] (readout_data execution_results !! "ro").

(** [reset]; [super_reset] is the [reset] of the base class, which is not
    among the sources. *)
Definition reset (super_reset : device -> device) (self : device) : device :=
  let self := super_reset self in
  if parametric_compilation self
  then set_parameter_reference_map (fun _ => ∅)
         (set_parameter_map (fun _ => ∅) (set_circuit_hash None self))
  else self.

(** Calls to the external machine, in order.  A compile request is tagged
    with the circuit hash the device carried when it was made. *)
Inductive event : Type :=
  | EvCompile (h : option Z) (p : Program)
  | EvRun (x : Program + Executable).

(** [generate_samples] (the same text in qc.py and qvm.py); the result
    carries the calls made to the machine. *)
Definition generate_samples (self : device)
  : device * list event * result samples :=
  let self :=
    if parametric_compilation self
    then set_prog (fun p =>
           map_fold (fun region value p => write_memory p region value)
                    p (_parameter_map self)) self
    else self in
  if is_pyqvm self
  then
    match qc_run (qc self) (inl (prog self)) with
    | Ok results => (self, [EvRun (inl (prog self))], Ok (extract_samples results))
    | Raise e => (self, [EvRun (inl (prog self))], Raise e)
    end
  else
    match circuit_hash self with
    | None =>
        match qc_compile (qc self) (prog self) with
        | Raise e => (self, [EvCompile None (prog self)], Raise e)
        | Ok compiled =>
            let self := set_compiled_program (Some compiled) self in
            match qc_run (qc self) (inr compiled) with
            | Ok results =>
                (self, [EvCompile None (prog self); EvRun (inr compiled)],
                 Ok (extract_samples results))
            | Raise e =>
                (self, [EvCompile None (prog self); EvRun (inr compiled)],
                 Raise e)
            end
        end
    | Some h =>
        let compiling :=
          match _compiled_program_dict self !! h with
          | None =>
              match qc_compile (qc self) (prog self) with
              | Ok compiled =>
                  (set_compiled_program_dict (insert h compiled) self,
                   [EvCompile (Some h) (prog self)], Ok tt)
              | Raise e => (self, [EvCompile (Some h) (prog self)], Raise e)
              end
          | Some _ => (self, [], Ok tt)
          end in
        match compiling with
        | (self, evs, Raise e) => (self, evs, Raise e)
        | (self, evs, Ok _) =>
            match _compiled_program_dict self !! h with
            | None => (self, evs, Raise (KeyError (pretty h)))
            | Some compiled =>
                let self := set_compiled_program (Some compiled) self in
                match qc_run (qc self) (inr compiled) with
                | Ok results =>
                    (self, evs ++ [EvRun (inr compiled)],
                     Ok (extract_samples results))
                | Raise e => (self, evs ++ [EvRun (inr compiled)], Raise e)
                end
            end
        end
    end.

(** What happens between two calls of [generate_samples]: [execute]
    stores a circuit hash, [reset] and [apply] rebuild the program and the
    binding table, and the machine may answer differently.  Nothing but
    [generate_samples] writes the cache. *)
Record call : Type := mk_call {
  call_hash : option Z;
  call_prog : Program;
  call_parameter_map : gmap string (list Value);
  call_parameter_reference_map : gmap string MemoryReference;
  call_compile : Program -> result Executable;
  call_run : Program + Executable -> result QAMExecutionResult
}.

Definition prepare_call (c : call) (self : device) : device :=
  set_qc (mk_QuantumComputer (qc_name (qc self)) (call_compile c) (call_run c))
    (set_parameter_reference_map (fun _ => call_parameter_reference_map c)
       (set_parameter_map (fun _ => call_parameter_map c)
          (set_prog (fun _ => call_prog c)
             (set_circuit_hash (call_hash c) self)))).

Fixpoint run_calls (self : device) (calls : list call)
  : device * list event :=
  match calls with
  | [] => (self, [])
  | c :: rest =>
      let '(self, evs, _) := generate_samples (prepare_call c self) in
      let '(self, evs') := run_calls self rest in
      (self, evs ++ evs')
  end.

(** *** Vocabulary of the statements about the builder *)

(** The test of [apply_parametric_operations] on a parameter. *)
Definition takes_handle (name : string) (p : param) : bool :=
  requires_grad p && negb (String.eqb name "BasisState").

(** The handle that [declare] returns for a parameter. *)
Definition handle_of (p : param) : MemoryReference :=
  mk_ref (parameter_string p) 0.

(** Every handle of the table is the one declared under its key: true of
    the empty table left by [reset], and kept by the builder. *)
Definition refs_ok (refs : gmap string MemoryReference) : Prop :=
  forall s r, refs !! s = Some r -> r = mk_ref s 0.

Definition resolved_arg (refs : gmap string MemoryReference)
    (name : string) (p : param) : arg :=
  if takes_handle name p
  then match refs !! parameter_string p with
       | Some r => ArgRef r
       | None => ArgLit p
       end
  else ArgLit p.

(** The keys under which an operation, or a list of them, binds
    parameters. *)
Definition op_keys (o : operation) : list string :=
  map parameter_string (List.filter (takes_handle (op_name o)) (op_data o)).

Definition bound_keys (ops : list operation) : list string :=
  flat_map op_keys ops.

(** The [j]-th argument of the [i]-th instruction of a built program. *)
Definition argument_at (built : Program) (i j : nat) : option arg :=
  match instructions built !! i with
  | Some (Apply _ par _) => par !! j
  | _ => None
  end.

Definition supported (self : device) (o : operation) : Prop :=
  is_Some (_operation_map self !! op_name o).

(** The wires of the operation are wires of the device: [map_wires]
    returns. *)
Definition on_device (o : operation) : Prop :=
  exists device_wires, map_wires (op_wires o) = inr device_wires.

(** The checks that an operation at the position [i] passes before the
    loops append it: its wires are mapped, it is not a state preparation
    out of place, and the table holds its name. *)
Definition passes (self : device) (i : nat) (o : operation) : Prop :=
  on_device o
  /\ Nat.ltb 0 i && is_state_preparation (op_name o) = false
  /\ supported self o.

Definition passesb (self : device) (i : nat) (o : operation) : bool :=
  match map_wires (op_wires o) with inr _ => true | inl _ => false end
  && negb (Nat.ltb 0 i && is_state_preparation (op_name o))
  && bool_decide (supported self o).

(** What the builder appends for an operation. *)
Definition emits (self : device) (o : operation) (ins : instr) : Prop :=
  exists g device_wires,
    _operation_map self !! op_name o = Some g
    /\ map_wires (op_wires o) = inr device_wires
    /\ ins = Apply g (map (resolved_arg (_parameter_reference_map self)
                             (op_name o)) (op_data o))
                  device_wires
    /\ forall p, In p (op_data o) -> takes_handle (op_name o) p = true ->
         is_Some (_parameter_reference_map self !! parameter_string p).

(** What a run of the builder may change: the binding table grows by the
    given keys, and the configuration stays. *)
Definition extends (keys : list string) (self self' : device) : Prop :=
  short_name self' = short_name self
  /\ _operation_map self' = _operation_map self
  /\ _parameter_reference_map self ⊆ _parameter_reference_map self'
  /\ dom (_parameter_reference_map self')
     = dom (_parameter_reference_map self) ∪ list_to_set keys
  /\ dom (_parameter_map self')
     = dom (_parameter_map self) ∪ list_to_set keys
  /\ (refs_ok (_parameter_reference_map self) ->
      refs_ok (_parameter_reference_map self'))
  /\ (keys = [] ->
      _parameter_reference_map self' = _parameter_reference_map self
      /\ _parameter_map self' = _parameter_map self).

Definition is_DeviceError {A} (r : result A) : bool :=
  match r with
  | Raise (DeviceError _) => true
  | _ => false
  end.

(** The circuit hashes under which the compiler was called. *)
Definition compile_hashes (evs : list event) : list (option Z) :=
  flat_map (fun ev => match ev with
                      | EvCompile h _ => [h]
                      | EvRun _ => []
                      end) evs.

Definition compile_count (h : Z) (evs : list event) : nat :=
  length (List.filter (fun h' => bool_decide (h' = Some h))
                      (compile_hashes evs)).

(** The compile requests that a cache holding [cached] answers a sequence
    of circuit hashes with: one for every call without a hash, and one
    for the first call of every hash not yet held. *)
Fixpoint cache_misses (cached : gset Z) (hashes : list (option Z))
  : list (option Z) :=
  match hashes with
  | [] => []
  | None :: rest => None :: cache_misses cached rest
  | Some h :: rest =>
      if decide (h ∈ cached) then cache_misses cached rest
      else Some h :: cache_misses ({[h]} ∪ cached) rest
  end.

(** The compiler answers every request of these calls. *)
Definition compiler_answers (calls : list call) : Prop :=
  forall c p, In c calls -> exists e, call_compile c p = Ok e.

(** *** [QVMDevice.__init__] *)

Inductive shots_arg : Type :=
  | ShotsNone
  | ShotsInt (n : Z)
  | ShotsList (l : list Z).

(** The base-class constructor is not among the sources; it is the part
    of construction that contacts the machine ([get_qc]).  It is taken as
    given, together with the requests it sends. *)
Definition QVMDevice_init {Request Kwargs DeviceSpec : Type}
    (super_init : DeviceSpec -> option (list Wire) -> shots_arg -> bool ->
                  bool -> Kwargs -> list Request * result device)
    (device_ : DeviceSpec) (wires : option (list Wire)) (shots_ : shots_arg)
    (noisy : bool) (kwargs : Kwargs)
  : list Request * result device :=
  match shots_ with
  | ShotsNone =>
      ([], Raise (ValueError
                    "QVM device cannot be used for analytic computations."))
  | _ => super_init device_ wires shots_ noisy false kwargs
  end.

End Device.

Arguments param : clear implicits.
Arguments operation : clear implicits.
Arguments arg : clear implicits.
Arguments instr : clear implicits.
Arguments Program : clear implicits.
Arguments QuantumComputer : clear implicits.
Arguments device : clear implicits.
Arguments call : clear implicits.
Arguments event : clear implicits.
Arguments M : clear implicits.

(** ** Vocabulary of the statements about the builder and the cache *)

Section BuilderVocabulary.
Context {Value Executable Gate Wire : Type}.
Implicit Types (self : device Value Executable Gate).

(** The [operations] property: [set(self._operation_map.keys())]. *)
Definition operations self : gset string := dom (_operation_map self).

(** The parameters of an operation that the builder binds, in order. *)
Definition handle_params (o : operation Value Wire) : list (param Value) :=
  List.filter (takes_handle (op_name o)) (op_data o).

(** What binding one parameter does to the device: a declaration and a
    handle when the key is new, and the value in any case. *)
Definition bind_one (p : param Value) self : device Value Executable Gate :=
  let key := parameter_string p in
  set_parameter_map (insert key [unwrap p])
    (match _parameter_reference_map self !! key with
     | None =>
         set_parameter_reference_map (insert key (mk_ref key 0))
           (set_prog (fun pr => Program_inst pr (DECLARE key "REAL" 1)) self)
     | Some _ => self
     end).

Definition bind_all (ps : list (param Value)) self
  : device Value Executable Gate :=
  fold_left (fun s p => bind_one p s) ps self.

(** The keys of a list that are not in [seen], each at its first
    occurrence. *)
Fixpoint fresh_keys (seen : gset string) (keys : list string) : list string :=
  match keys with
  | [] => []
  | k :: rest =>
      if decide (k ∈ seen) then fresh_keys seen rest
      else k :: fresh_keys ({[k]} ∪ seen) rest
  end.

(** The part of the device that is neither the program nor the binding
    table. *)
Definition same_settings self self' : Prop :=
  short_name self' = short_name self
  /\ parametric_compilation self' = parametric_compilation self
  /\ qc self' = qc self
  /\ wiring self' = wiring self
  /\ active_reset self' = active_reset self
  /\ shots self' = shots self
  /\ _operation_map self' = _operation_map self
  /\ _circuit_hash self' = _circuit_hash self
  /\ _compiled_program_dict self' = _compiled_program_dict self
  /\ _compiled_program self' = _compiled_program self.

(** The binding table holds a value for exactly the keys that have a
    handle, and every handle is the one declared under its key. *)
Definition table_invariant self : Prop :=
  dom (_parameter_map self) = dom (_parameter_reference_map self)
  /\ refs_ok (_parameter_reference_map self).

End BuilderVocabulary.

Section CacheVocabulary.
Context {Value Executable Gate : Type}.
Implicit Types (self : device Value Executable Gate).

(** [self.prog] after the first loop of [generate_samples]: with parametric
    compilation, the values of the binding table are written to its
    memory. *)
Definition pushed_program self : Program Value Gate :=
  if parametric_compilation self
  then mk_Program (instructions (prog self))
         (_parameter_map self ∪ memory (prog self)) (num_shots (prog self))
  else prog self.

(** The answer of [generate_samples] to the answer of the machine. *)
Definition samples_of (r : result QAMExecutionResult) : result samples :=
  match r with
  | Ok results => Ok (extract_samples results)
  | Raise e => Raise e
  end.

(** The requests that carry a program, and the programs they carry. *)
Definition sent_programs (evs : list (event Value Executable Gate))
  : list (Program Value Gate) :=
  flat_map (fun ev => match ev with
                      | EvCompile _ p => [p]
                      | EvRun (inl p) => [p]
                      | EvRun (inr _) => []
                      end) evs.

End CacheVocabulary.

(** ** Construction, the circuit hash and the wire map *)

Section Construction.
(** Opaque here: the values of keyword arguments, of which only the truth
    value is looked at, and the description of the machine to open. *)
Context {Value Executable Gate Wire KwValue DeviceSpec : Type}.
Implicit Types (self : device Value Executable Gate).

Definition set_parametric_compilation (b : bool) self
  : device Value Executable Gate :=
  mk_device (short_name self) b (qc self)
    (wiring self) (active_reset self) (shots self) (_operation_map self)
    (_circuit_hash self) (_compiled_program_dict self)
    (_compiled_program self) (_parameter_map self)
    (_parameter_reference_map self) (prog self).

Definition set_wiring (w : list nat) self : device Value Executable Gate :=
  mk_device (short_name self) (parametric_compilation self) (qc self)
    w (active_reset self) (shots self) (_operation_map self)
    (_circuit_hash self) (_compiled_program_dict self)
    (_compiled_program self) (_parameter_map self)
    (_parameter_reference_map self) (prog self).

Definition set_active_reset (b : bool) self : device Value Executable Gate :=
  mk_device (short_name self) (parametric_compilation self) (qc self)
    (wiring self) b (shots self) (_operation_map self)
    (_circuit_hash self) (_compiled_program_dict self)
    (_compiled_program self) (_parameter_map self)
    (_parameter_reference_map self) (prog self).

(** The part of [execute] that runs before the base class takes over:
    with parametric compilation, the hash of the circuit is stored. *)
Definition execute_hash (graph_hash : Z) self : device Value Executable Gate :=
  if parametric_compilation self
  then set_circuit_hash (Some graph_hash) self
  else self.

(** [_get_timeout_args] *)
Definition _get_timeout_args (kwargs : gmap string KwValue)
  : gmap string KwValue :=
  let timeout_args := ∅ in
  let timeout_args :=
    match kwargs !! "compiler_timeout" with
    | Some v => <["compiler_timeout" := v]> timeout_args
    | None => timeout_args
    end in
  let timeout_args :=
    match kwargs !! "execution_timeout" with
    | Some v => <["execution_timeout" := v]> timeout_args
    | None => timeout_args
    end in
  timeout_args.

(** The [wires] argument of the constructor: absent, an integer, or an
    iterable with a length (a range or a sequence of labels). *)
Inductive wires_iterable : Type :=
  | WiresRange (n : nat)
  | WiresLabels (labels : list Wire).

Inductive wires_arg : Type :=
  | WiresNone
  | WiresInt (n : Z)
  | WiresIterable (w : wires_iterable).

Definition len_wires (w : wires_iterable) : nat :=
  match w with
  | WiresRange n => n
  | WiresLabels labels => length labels
  end.

(** The calls of [get_qc], which opens the machine. *)
Inductive init_event : Type :=
  | GetQc (device_ : DeviceSpec) (timeout_args : gmap string KwValue).

Definition shots_message : string :=
  "Number of shots must be a positive integer or None.".

Definition wires_int_message (num_wires : nat) : string :=
  "Device has a fixed number of " +:+ pretty num_wires
  +:+ " qubits. The wires argument can only be used to specify an iterable of wire labels.".

Definition wires_count_message (num_wires len : nat) : string :=
  "Device has a fixed number of " +:+ pretty num_wires
  +:+ " qubits and cannot be created with " +:+ pretty len +:+ " wires.".

(** [QuantumComputerDevice.__init__].  [get_qc] is the abstract method of
    the class and [qubits] the method of the machine it returns;
    [super_init] and [super_reset] are the constructor and the [reset] of
    the base class, which are not among the sources; [truthy] is the truth
    value of a keyword argument.  The result carries the calls of
    [get_qc]. *)
Definition QuantumComputerDevice_init
    (truthy : KwValue -> bool)
    (get_qc : DeviceSpec -> gmap string KwValue ->
              result (QuantumComputer Value Executable Gate))
    (qubits : QuantumComputer Value Executable Gate -> list nat)
    (super_init : wires_iterable -> option Z -> device Value Executable Gate ->
                  result (device Value Executable Gate))
    (super_reset : device Value Executable Gate -> device Value Executable Gate)
    self (device_ : DeviceSpec) (shots_ : option Z) (wires : wires_arg)
    (active_reset_ : bool) (kwargs : gmap string KwValue)
  : list init_event * result (device Value Executable Gate) :=
  if match shots_ with
     | Some n => (n <=? 0)%Z
     | None => false
     end
  then ([], Raise (ValueError shots_message))
  else
    let self := set_compiled_program None self in
    let parametric :=
      match kwargs !! "parametric_compilation" with
      | Some v => truthy v
      | None => true
      end in
    let self := set_parametric_compilation parametric self in
    let self :=
      if parametric
      then set_parameter_reference_map (fun _ => ∅)
             (set_parameter_map (fun _ => ∅)
                (set_compiled_program_dict (fun _ => ∅)
                   (set_circuit_hash None self)))
      else self in
    let timeout_args := _get_timeout_args kwargs in
    match get_qc device_ timeout_args with
    | Raise e => ([GetQc device_ timeout_args], Raise e)
    | Ok q =>
        let self := set_qc q self in
        let num_wires := length (qubits q) in
        (* from the length check on: [wires] is an iterable *)
        let checked (wires : wires_iterable) :=
          if negb (Nat.eqb num_wires (len_wires wires))
          then ([GetQc device_ timeout_args],
                Raise (ValueError
                         (wires_count_message num_wires (len_wires wires))))
          else
            let self := set_wiring (qubits q) self in
            let self := set_active_reset active_reset_ self in
            match super_init wires shots_ self with
            | Raise e => ([GetQc device_ timeout_args], Raise e)
            | Ok self =>
                ([GetQc device_ timeout_args], Ok (reset super_reset self))
            end in
        match wires with
        | WiresNone => checked (WiresRange num_wires)
        | WiresInt _ =>
            ([GetQc device_ timeout_args],
             Raise (ValueError (wires_int_message num_wires)))
        | WiresIterable w => checked w
        end
    end.

End Construction.

Arguments wires_iterable : clear implicits.
Arguments wires_arg : clear implicits.
Arguments init_event : clear implicits.

Section WireMap.
Context {Wire : Type} `{EqDecision Wire}.

(** Python's [OrderedDict]: keys in the order of their first insertion,
    each with the value of its last one. *)
Fixpoint odict_set (k : Wire) (v : nat) (d : list (Wire * nat))
  : list (Wire * nat) :=
  match d with
  | [] => [(k, v)]
  | (k', v') :: d' =>
      if decide (k = k') then (k, v) :: d' else (k', v') :: odict_set k v d'
  end.

Definition OrderedDict (items : list (Wire * nat)) : list (Wire * nat) :=
  fold_left (fun d item => odict_set (fst item) (snd item) d) items [].

Fixpoint odict_get (k : Wire) (d : list (Wire * nat)) : option nat :=
  match d with
  | [] => None
  | (k', v) :: d' => if decide (k = k') then Some v else odict_get k d'
  end.

(** [define_wire_map].  [wiring_] is [None] when the object has no
    attribute of that name.  PennyLane's [Wires] of a dictionary holds its
    keys, which for the wiring are the positions [0, 1, ...]. *)
Definition define_wire_map (wiring_ : option (list nat)) (num_wires : nat)
    (wires : list Wire) : list (Wire * nat) :=
  let device_wires :=
    match wiring_ with
    | Some w => seq 0 (length w)
    | None => seq 0 num_wires
    end in
  OrderedDict (combine wires device_wires).

End WireMap.

(** ** Example inputs *)

Definition example_qc : QuantumComputer Z nat string :=
  mk_QuantumComputer "2q-qvm" (fun _ => Ok 7)
    (fun _ => Ok (mk_QAMExecutionResult (<["ro" := [[0; 1]]]> ∅))).

(** A supported-operation table.  Of the two state preparations it holds
    [BasisState] only, as the table of the device does, which has no entry
    for [QubitStateVector]. *)
Definition example_table : gmap string string :=
  <["RX" := "RX"]>
    (<["CNOT" := "CNOT"]>
       (<["BasisState" := "basis_state"]> ∅)).

(** A two-qubit device with parametric compilation, as [reset] leaves it. *)
Definition example_device : device Z nat string :=
  mk_device "forest.qvm" true example_qc [1; 0] false 1000 example_table
    None ∅ None ∅ ∅ empty_Program.

(** Trainable and plain parameter objects. *)
Definition trainable (i : N) (v : Z) : param Z := mk_param i true v.
Definition plain (i : N) (v : Z) : param Z := mk_param i false v.

(** The wire map of a device whose wires are 0 and 1, each its own
    qubit. *)
Definition wire_message : string :=
  "Did not find some of the wires on the device.".

Definition same_wires (ws : list nat) : string + list nat :=
  if forallb (fun w => Nat.ltb w 2) ws then inr ws else inl wire_message.

(** An unsupported operation before a misplaced [BasisState]. *)
Definition unsupported_then_basis_state : list (operation Z nat) :=
  [mk_operation "Foo" [] [0];
   mk_operation "BasisState" [plain 1 1] [0; 1]].

(** A rotation, then a misplaced [BasisState]. *)
Definition rotation_then_basis_state : list (operation Z nat) :=
  [mk_operation "RX" [trainable 5 3] [0];
   mk_operation "BasisState" [plain 1 1] [0; 1]].

(** [BasisState] first, then a rotation. *)
Definition basis_state_then_rotation : list (operation Z nat) :=
  [mk_operation "BasisState" [plain 1 1] [0; 1];
   mk_operation "RX" [trainable 5 3] [0]].

(** An unsupported operation with a trainable parameter. *)
Definition unsupported_with_parameter : list (operation Z nat) :=
  [mk_operation "Foo" [trainable 6 1] [0]].

(** A rotation, then a misplaced [BasisState] on a wire that the device
    does not have. *)
Definition rotation_then_stray_basis_state : list (operation Z nat) :=
  [mk_operation "RX" [trainable 5 3] [0];
   mk_operation "BasisState" [plain 1 1] [0; 5]].


(** A supported rotation on a wire that the device does not have. *)
Definition stray_rotation : list (operation Z nat) :=
  [mk_operation "RX" [plain 4 3] [7]].

(** Two rotations sharing one parameter object, a third with an equal value
    in another object, and a plain number. *)
Definition shared_parameter_circuit : list (operation Z nat) :=
  [mk_operation "RX" [trainable 5 3] [0];
   mk_operation "RX" [trainable 5 3] [1];
   mk_operation "RX" [trainable 9 3] [0];
   mk_operation "RX" [plain 4 3] [1]].




(** A call of [generate_samples] for the circuit of hash [h], with the value
    [theta] bound to its parameter. *)
Definition example_call (h : Z) (theta : Z)
  : call Z nat string :=
  mk_call (Some h)
    (mk_Program [DECLARE "theta5" "REAL" 1] ∅ 1000)
    (<["theta5" := [theta]]> ∅)
    (<["theta5" := mk_ref "theta5" 0]> ∅)
    (fun _ => Ok 7)
    (fun _ => Ok (mk_QAMExecutionResult ∅)).

(** The same call when the compiler fails. *)
Definition failing_call (h : Z) (theta : Z)
  : call Z nat string :=
  mk_call (Some h)
    (mk_Program [DECLARE "theta5" "REAL" 1] ∅ 1000)
    (<["theta5" := [theta]]> ∅)
    (<["theta5" := mk_ref "theta5" 0]> ∅)
    (fun _ => Raise (ValueError "quilc"))
    (fun _ => Ok (mk_QAMExecutionResult ∅)).

(** The program built for [shared_parameter_circuit]. *)
Definition shared_parameter_program : Program Z string :=
  mk_Program
    [Apply "RX" [ArgRef (mk_ref "theta5" 0)] [0];
     Apply "RX" [ArgRef (mk_ref "theta5" 0)] [1];
     Apply "RX" [ArgRef (mk_ref "theta9" 0)] [0];
     Apply "RX" [ArgLit (plain 4 3)] [1]] ∅ 1.

(** The example device on a pyQVM, without parametric compilation, with a
    compiled program in its cache, and with a compiler that fails. *)
Definition pyqvm_device : device Z nat string :=
  mk_device "forest.qvm" true
    (mk_QuantumComputer "2q-pyqvm" (fun _ => Ok 7)
       (fun _ => Ok (mk_QAMExecutionResult (<["ro" := [[0; 1]]]> ∅))))
    [1; 0] false 1000 example_table None ∅ None ∅ ∅ empty_Program.

Definition plain_device : device Z nat string :=
  mk_device "forest.qvm" false example_qc [1; 0] false 1000 example_table
    None ∅ None ∅ ∅ empty_Program.

Definition cached_device : device Z nat string :=
  mk_device "forest.qvm" true example_qc [1; 0] false 1000 example_table
    (Some 11%Z) (<[11%Z := 7]> ∅) None (<["theta5" := [3%Z]]> ∅)
    (<["theta5" := mk_ref "theta5" 0]> ∅)
    (mk_Program [DECLARE "theta5" "REAL" 1] ∅ 1000).

Definition failing_device : device Z nat string :=
  mk_device "forest.qvm" true
    (mk_QuantumComputer "2q-qvm" (fun _ => Raise (ValueError "quilc"))
       (fun _ => Ok (mk_QAMExecutionResult ∅)))
    [1; 0] false 1000 example_table (Some 11%Z) ∅ None ∅ ∅ empty_Program.

(** A base-class [reset] that empties the program. *)
Definition base_reset (self : device Z nat string) : device Z nat string :=
  set_prog (fun _ => empty_Program) self.

(** Keyword arguments with a compiler timeout and the parametric
    compilation flag; their values are integers, true when not zero. *)
Definition example_kwargs : gmap string Z :=
  <["compiler_timeout" := 20%Z]> (<["parametric_compilation" := 0%Z]> ∅).

Definition nonzero (v : Z) : bool := negb (Z.eqb v 0).

(* ================================================================== *)
(** * Facts about the array model *)

Section ArrayFacts.
Context {R : Scalars}.
Implicit Types (s idx : list nat) (a : ndarray R).

Lemma nth_map_lt {A B} (f : A -> B) (l : list A) (n : nat) d d' :
  n < length l -> nth n (map f l) d = f (nth n l d').
Proof.
  revert n; induction l as [|x l IH]; intros [|n] Hn; simpl in *;
    try lia; [done|]. apply IH. lia.
Qed.

Lemma in_indices s idx : In idx (indices s) <-> Forall2 lt idx s.
Proof.
  revert idx; induction s as [|d s IH]; intros idx; simpl.
  - split.
    + intros [<-|[]]. constructor.
    + intros H; inversion H; auto.
  - rewrite in_flat_map. split.
    + intros (i & Hi & Hin). apply in_map_iff in Hin as (t & <- & Ht).
      apply in_seq in Hi. constructor; [lia|]. by apply IH.
    + intros H. inversion H as [|i d' t s' Hlt Ht]; subst.
      exists i. split; [apply in_seq; lia|].
      apply in_map_iff. exists t. split; [done|]. by apply IH.
Qed.

Lemma prod_list_app s1 s2 :
  prod_list (s1 ++ s2) = prod_list s1 * prod_list s2.
Proof. induction s1 as [|d s1 IH]; simpl; [lia|]. rewrite IH. lia. Qed.

Lemma prod_list_repeat2 n : prod_list (repeat 2 n) = 2 ^ n.
Proof. induction n as [|n IH]; simpl; [done|]. rewrite IH. lia. Qed.

Lemma ravel_lt s idx : Forall2 lt idx s -> ravel s idx < prod_list s.
Proof.
  induction 1 as [|i d t s' Hlt Ht IH]; simpl; [lia|]. nia.
Qed.

Lemma flat_map_seq_blocks P d :
  flat_map (fun i => seq (i * P) P) (seq 0 d) = seq 0 (d * P).
Proof.
  induction d as [|d IH]; [done|].
  rewrite seq_S, flat_map_app, IH. simpl. rewrite app_nil_r.
  replace (P + d * P) with (d * P + P) by lia.
  by rewrite seq_app.
Qed.

Lemma map_seq_shift (b k P : nat) :
  map (fun r => b + r) (seq k P) = seq (b + k) P.
Proof.
  revert k; induction P as [|P IHP]; intros k; simpl; [done|].
  rewrite IHP. do 2 f_equal. lia.
Qed.

Lemma ravel_indices s : map (ravel s) (indices s) = seq 0 (prod_list s).
Proof.
  induction s as [|d s IH]; [done|].
  simpl. rewrite <- flat_map_seq_blocks.
  rewrite !flat_map_concat_map, concat_map, map_map.
  f_equal. apply map_ext. intros i.
  rewrite map_map. simpl.
  rewrite <- (map_map (ravel s) (fun r => i * prod_list s + r)), IH.
  rewrite map_seq_shift. f_equal. lia.
Qed.

Lemma length_indices s : length (indices s) = prod_list s.
Proof.
  rewrite <- (length_map (ravel s)), ravel_indices. apply length_seq.
Qed.

Lemma ravel_inj s i j :
  Forall2 lt i s -> Forall2 lt j s -> ravel s i = ravel s j -> i = j.
Proof.
  intros Hi; revert j.
  induction Hi as [|x d t s' Hlt Ht IH]; intros j Hj Heq.
  - by inversion Hj.
  - inversion Hj as [|y d' u s'' Hlt' Hu]; subst. simpl in Heq.
    pose proof (ravel_lt _ _ Ht). pose proof (ravel_lt _ _ Hu).
    assert (x = y) by nia. subst y.
    f_equal. apply IH; [done|lia].
Qed.

Lemma nth_indices s idx d :
  Forall2 lt idx s -> nth (ravel s idx) (indices s) d = idx.
Proof.
  intros Hv. pose proof (ravel_lt _ _ Hv) as Hlt.
  assert (Hin : In (nth (ravel s idx) (indices s) d) (indices s)).
  { apply nth_In. by rewrite length_indices. }
  apply in_indices in Hin.
  apply (ravel_inj s); [done..|].
  rewrite <- (map_nth (ravel s)), ravel_indices.
  rewrite (nth_indep _ _ 0) by (by rewrite length_seq).
  by rewrite seq_nth.
Qed.

Lemma get_build s (f : list nat -> R) idx :
  Forall2 lt idx s -> get (build s f) idx = f idx.
Proof.
  intros Hv. unfold get, build; simpl.
  rewrite (nth_map_lt _ _ _ _ []).
  - by rewrite nth_indices.
  - rewrite length_indices. by apply ravel_lt.
Qed.

Lemma map_nth_seq_all {A} (l : list A) (d : A) :
  map (fun r => nth r l d) (seq 0 (length l)) = l.
Proof.
  induction l as [|x l IH]; simpl; [done|].
  f_equal. by rewrite <- seq_shift, map_map.
Qed.

Lemma map_get_indices a :
  wf a -> map (get a) (indices (shape a)) = data a.
Proof.
  intros Hwf. unfold get.
  rewrite <- (map_map (ravel (shape a)) (fun r => nth r (data a) zero)).
  rewrite ravel_indices, <- Hwf. apply map_nth_seq_all.
Qed.

Lemma ravel_app s1 s2 i1 i2 :
  length i1 = length s1 ->
  ravel (s1 ++ s2) (i1 ++ i2) = ravel s1 i1 * prod_list s2 + ravel s2 i2.
Proof.
  revert i1; induction s1 as [|d s1 IH]; intros [|x i1] Hlen;
    simpl in *; try lia.
  rewrite IH by lia. rewrite prod_list_app. lia.
Qed.

(** *** Positions in lists and permutations of [0 .. n-1] *)

Lemma mem_In x l : mem x l = true <-> In x l.
Proof.
  unfold mem. rewrite existsb_exists. split.
  - intros (y & Hy & Heq). apply Nat.eqb_eq in Heq. by subst.
  - intros Hin. exists x. split; [done|]. apply Nat.eqb_refl.
Qed.

Lemma mem_false x l : mem x l = false <-> ~ In x l.
Proof. rewrite <- mem_In. destruct (mem x l); split; congruence. Qed.

Lemma index_of_lt x l : In x l -> index_of x l < length l.
Proof.
  induction l as [|y l IH]; simpl; [done|].
  intros Hin. destruct (Nat.eqb_spec x y); [lia|].
  destruct Hin as [->|Hin]; [done|]. apply IH in Hin. lia.
Qed.

Lemma nth_index_of x l d : In x l -> nth (index_of x l) l d = x.
Proof.
  induction l as [|y l IH]; simpl; [done|].
  intros Hin. destruct (Nat.eqb_spec x y); [done|].
  destruct Hin as [->|Hin]; [done|]. by apply IH.
Qed.

Lemma index_of_nth i l d :
  List.NoDup l -> i < length l -> index_of (nth i l d) l = i.
Proof.
  intros Hnd; revert i.
  induction Hnd as [|y l Hnin Hnd IH]; intros i Hi; simpl in *; [lia|].
  destruct i as [|i].
  - by rewrite Nat.eqb_refl.
  - destruct (Nat.eqb_spec (nth i l d) y) as [Heq|_].
    + exfalso. apply Hnin. rewrite <- Heq. apply nth_In. lia.
    + rewrite IH; [done|lia].
Qed.

Lemma index_of_app_l x l1 l2 :
  In x l1 -> index_of x (l1 ++ l2) = index_of x l1.
Proof.
  induction l1 as [|y l1 IH]; simpl; [done|].
  intros Hin. destruct (Nat.eqb_spec x y); [done|].
  destruct Hin as [->|Hin]; [done|]. by rewrite IH.
Qed.

Lemma perm_length p n : Permutation p (seq 0 n) -> length p = n.
Proof. intros H. apply Permutation_length in H. by rewrite length_seq in H. Qed.

Lemma perm_NoDup p n : Permutation p (seq 0 n) -> List.NoDup p.
Proof.
  intros H. eapply Permutation_NoDup; [symmetry; exact H|]. apply seq_NoDup.
Qed.

Lemma perm_In p n x : Permutation p (seq 0 n) -> In x p <-> x < n.
Proof.
  intros H. split.
  - intros Hin. eapply Permutation_in in Hin; [|exact H].
    apply in_seq in Hin. lia.
  - intros Hlt. eapply Permutation_in; [symmetry; exact H|].
    apply in_seq. lia.
Qed.

Lemma perm_nth_lt p n i : Permutation p (seq 0 n) -> i < n -> nth i p 0 < n.
Proof.
  intros H Hi. apply (perm_In p n); [done|].
  apply nth_In. by rewrite (perm_length p n).
Qed.

Lemma no_repeat_NoDup l : List.NoDup l -> no_repeat l = true.
Proof.
  induction 1 as [|x l Hnin Hnd IH]; cbn; [done|].
  rewrite IH, andb_true_r. by apply negb_true_iff, mem_false.
Qed.

Lemma gather_app p1 p2 i : gather (p1 ++ p2) i = gather p1 i ++ gather p2 i.
Proof. apply map_app. Qed.

Lemma length_gather p i : length (gather p i) = length p.
Proof. apply length_map. Qed.

Lemma length_ungather p n x : length (ungather p n x) = n.
Proof. unfold ungather. by rewrite length_map, length_seq. Qed.

Lemma nth_ungather p n x q :
  q < n -> nth q (ungather p n x) 0 = nth (index_of q p) x 0.
Proof.
  intros Hq. unfold ungather.
  rewrite (nth_map_lt _ _ _ _ 0) by (by rewrite length_seq).
  by rewrite seq_nth.
Qed.

Lemma gather_ungather p n x :
  Permutation p (seq 0 n) -> length x = n -> gather p (ungather p n x) = x.
Proof.
  intros Hp Hx. apply (nth_ext _ _ 0 0).
  - by rewrite length_gather, (perm_length p n).
  - intros m Hm. rewrite length_gather, (perm_length p n Hp) in Hm.
    unfold gather.
    rewrite (nth_map_lt _ _ _ _ 0) by (by rewrite (perm_length p n)).
    rewrite nth_ungather by (by apply perm_nth_lt).
    rewrite index_of_nth; [done|by eapply perm_NoDup|].
    by rewrite (perm_length p n).
Qed.

Lemma ungather_gather p n i :
  Permutation p (seq 0 n) -> length i = n -> ungather p n (gather p i) = i.
Proof.
  intros Hp Hi. apply (nth_ext _ _ 0 0).
  - by rewrite length_ungather.
  - intros q Hq. rewrite length_ungather in Hq.
    rewrite nth_ungather by done. unfold gather.
    assert (Hin : In q p) by (by apply (perm_In p n)).
    rewrite (nth_map_lt _ _ _ _ 0) by (by apply index_of_lt).
    by rewrite nth_index_of.
Qed.

(** *** [argsort] inverts a permutation *)

Lemma insert_by_key_perm x l : Permutation (insert_by_key x l) (x :: l).
Proof.
  induction l as [|y l IH]; simpl; [done|].
  destruct (Nat.leb (fst y) (fst x)); [|done].
  rewrite IH. apply perm_swap.
Qed.

Lemma insert_by_key_sorted x l :
  StronglySorted key_le l -> StronglySorted key_le (insert_by_key x l).
Proof.
  induction 1 as [|y l Hs IH Hall]; simpl.
  - constructor; constructor.
  - destruct (Nat.leb_spec (fst y) (fst x)) as [Hle|Hlt].
    + constructor; [done|].
      eapply Permutation_Forall; [symmetry; apply insert_by_key_perm|].
      by constructor.
    + constructor; [by constructor|].
      constructor; [unfold key_le; lia|].
      eapply List.Forall_impl; [|exact Hall].
      intros z Hz. unfold key_le in *. lia.
Qed.

Lemma sort_by_key_perm l : Permutation (sort_by_key l) l.
Proof.
  unfold sort_by_key.
  enough (forall acc, Permutation
            (fold_left (fun acc x => insert_by_key x acc) l acc) (acc ++ l))
    as H by apply (H []).
  induction l as [|x l IH]; intros acc; simpl.
  - by rewrite app_nil_r.
  - rewrite IH, insert_by_key_perm. simpl. apply Permutation_middle.
Qed.

Lemma sort_by_key_sorted l : StronglySorted key_le (sort_by_key l).
Proof.
  unfold sort_by_key.
  enough (forall acc, StronglySorted key_le acc ->
            StronglySorted key_le
              (fold_left (fun acc x => insert_by_key x acc) l acc))
    as H by (apply H; constructor).
  induction l as [|x l IH]; intros acc Hacc; simpl; [done|].
  by apply IH, insert_by_key_sorted.
Qed.

Lemma sorted_map_fst l :
  StronglySorted key_le l -> StronglySorted le (map fst l).
Proof.
  induction 1 as [|y l Hs IH Hall]; simpl; constructor; [done|].
  rewrite Forall_map. exact Hall.
Qed.

Lemma sorted_perm_seq l k n :
  StronglySorted le l -> Permutation l (seq k n) -> l = seq k n.
Proof.
  revert l k; induction n as [|n IH]; intros l k Hs Hp; simpl in *.
  - by apply Permutation_nil, Permutation_sym.
  - destruct l as [|x l].
    { by apply Permutation_nil_cons in Hp. }
    apply StronglySorted_inv in Hs as [Hs Hall].
    assert (k <= x).
    { assert (Hin : In x (k :: seq (S k) n))
        by (eapply Permutation_in; [exact Hp|by left]).
      destruct Hin as [->|Hin]; [done|]. apply in_seq in Hin. lia. }
    assert (x <= k).
    { assert (Hin : In k (x :: l))
        by (eapply Permutation_in; [symmetry; exact Hp|by left]).
      destruct Hin as [->|Hin]; [done|].
      rewrite List.Forall_forall in Hall. by apply Hall. }
    assert (x = k) by lia. subst x.
    f_equal. apply IH; [done|]. by apply Permutation_cons_inv in Hp.
Qed.

Lemma map_fst_combine_seq (p : list nat) k :
  map fst (combine p (seq k (length p))) = p.
Proof.
  revert k; induction p as [|x p IH]; intros k; simpl; [done|].
  by rewrite IH.
Qed.

Lemma map_snd_combine_seq (p : list nat) k :
  map snd (combine p (seq k (length p))) = seq k (length p).
Proof.
  revert k; induction p as [|x p IH]; intros k; simpl; [done|].
  by rewrite IH.
Qed.

Lemma in_combine_seq (p : list nat) k v i :
  In (v, i) (combine p (seq k (length p))) ->
  k <= i /\ i - k < length p /\ nth (i - k) p 0 = v.
Proof.
  revert k; induction p as [|x p IH]; intros k; simpl; [done|].
  intros [Heq|Hin].
  - inversion Heq; subst. rewrite Nat.sub_diag. repeat split; lia.
  - apply IH in Hin as (Hle & Hlt & Hnth).
    replace (i - k) with (S (i - S k)) by lia.
    repeat split; [lia|lia|done].
Qed.

Lemma argsort_perm p n :
  Permutation p (seq 0 n) -> Permutation (argsort p) (seq 0 n).
Proof.
  intros Hp. unfold argsort.
  rewrite sort_by_key_perm, map_snd_combine_seq.
  by rewrite (perm_length p n).
Qed.

Lemma argsort_nth p n r :
  Permutation p (seq 0 n) -> r < n -> nth (nth r (argsort p) 0) p 0 = r.
Proof.
  intros Hp Hr. unfold argsort.
  set (L := sort_by_key (combine p (seq 0 (length p)))).
  assert (HL : Permutation L (combine p (seq 0 (length p))))
    by apply sort_by_key_perm.
  assert (Hfst : map fst L = seq 0 n).
  { apply sorted_perm_seq; [apply sorted_map_fst, sort_by_key_sorted|].
    by rewrite HL, map_fst_combine_seq. }
  assert (HlenL : length L = n).
  { by rewrite <- (length_map fst), Hfst, length_seq. }
  rewrite (nth_map_lt _ _ _ _ (0, 0)) by lia.
  destruct (nth r L (0, 0)) as [v i] eqn:Hvi.
  assert (Hv : v = r).
  { change v with (fst (v, i)). rewrite <- Hvi.
    rewrite <- (nth_map_lt fst L r 0) by lia.
    by rewrite Hfst, seq_nth. }
  assert (Hin : In (v, i) L) by (rewrite <- Hvi; apply nth_In; lia).
  eapply Permutation_in in Hin; [|exact HL].
  apply in_combine_seq in Hin as (_ & _ & Hnth).
  simpl. rewrite Nat.sub_0_r in Hnth. congruence.
Qed.

Lemma argsort_inverse p n q :
  Permutation p (seq 0 n) -> q < n -> nth (nth q p 0) (argsort p) 0 = q.
Proof.
  intros Hp Hq.
  pose proof (perm_NoDup p n Hp) as Hnd.
  pose proof (argsort_perm p n Hp) as Hinv.
  rewrite (NoDup_nth p 0) in Hnd. apply Hnd.
  - rewrite (perm_length p n Hp). apply (perm_nth_lt _ n); [done|].
    by apply perm_nth_lt.
  - by rewrite (perm_length p n Hp).
  - apply (argsort_nth p n); [done|]. by apply perm_nth_lt.
Qed.

Lemma index_of_argsort p n q :
  Permutation p (seq 0 n) -> q < n -> index_of q (argsort p) = nth q p 0.
Proof.
  intros Hp Hq.
  pose proof (argsort_perm p n Hp) as Hinv.
  rewrite <- (argsort_inverse p n q Hp Hq) at 1.
  apply index_of_nth; [by eapply perm_NoDup|].
  rewrite (perm_length _ n Hinv). by apply perm_nth_lt.
Qed.

(** *** Registers of qubits *)

Lemma bits_iff n i : bits n i <-> length i = n /\ Forall (fun b => b < 2) i.
Proof.
  unfold bits. revert i; induction n as [|n IH]; intros i; simpl.
  - split.
    + intros H; inversion H; subst. by split.
    + intros [H _]. destruct i; [constructor|done].
  - split.
    + intros H; inversion H as [|b d t s Hb Ht]; subst.
      apply IH in Ht as [Hl Hf]. simpl. split; [lia|by constructor].
    + intros [Hl Hf]. destruct i as [|b t]; [done|].
      inversion Hf; subst. constructor; [done|].
      apply IH. split; [simpl in Hl; lia|done].
Qed.

Lemma bits_length n i : bits n i -> length i = n.
Proof. intros H. by apply bits_iff in H as [? _]. Qed.

Lemma bits_nth n i q : bits n i -> nth q i 0 < 2.
Proof.
  intros H. apply bits_iff in H as [_ Hf].
  destruct (Nat.lt_ge_cases q (length i)) as [Hq|Hq].
  - rewrite List.Forall_forall in Hf. by apply Hf, nth_In.
  - rewrite nth_overflow by done. lia.
Qed.

Lemma bits_gather n p i : bits n i -> bits (length p) (gather p i).
Proof.
  intros H. apply bits_iff. split; [apply length_gather|].
  unfold gather. rewrite Forall_map. apply List.Forall_forall.
  intros q _. by apply (bits_nth n).
Qed.

Lemma bits_ungather m p n x : bits m x -> bits n (ungather p n x).
Proof.
  intros H. apply bits_iff. split; [apply length_ungather|].
  unfold ungather. rewrite Forall_map. apply List.Forall_forall.
  intros q _. by apply (bits_nth m).
Qed.

Lemma bits_app n m i j : bits n i -> bits m j -> bits (n + m) (i ++ j).
Proof.
  rewrite !bits_iff. intros [Hl1 Hf1] [Hl2 Hf2]. split.
  - rewrite length_app. lia.
  - apply Forall_app. by split.
Qed.

Lemma in_indices_bits n i : In i (indices (repeat 2 n)) <-> bits n i.
Proof. apply in_indices. Qed.

(** *** The numpy operations on arrays of shape [[2] * n] *)

Lemma reshape_ok a s :
  prod_list s = prod_list (shape a) ->
  reshape a s = Ok (mk_ndarray s (data a)).
Proof. intros H. unfold reshape. by rewrite H, Nat.eqb_refl. Qed.

Lemma map_nth_repeat2 m l :
  Forall (fun ax => ax < m) l ->
  map (fun ax => nth ax (repeat 2 m) 0) l = repeat 2 (length l).
Proof.
  induction 1 as [|x l Hx Hl IH]; simpl; [done|].
  rewrite IH. f_equal. apply nth_repeat_lt. done.
Qed.

Lemma perm_Forall_lt p n :
  Permutation p (seq 0 n) -> Forall (fun ax => ax < n) p.
Proof.
  intros Hp. apply List.Forall_forall. intros x Hx.
  by apply (perm_In p n).
Qed.

Lemma transpose_bits a n axes :
  shape a = repeat 2 n ->
  Permutation axes (seq 0 n) ->
  transpose a axes
  = Ok (build (repeat 2 n) (fun i => get a (ungather axes n i))).
Proof.
  intros Hs Hp. unfold transpose.
  rewrite Hs, repeat_length, (perm_length axes n Hp), Nat.eqb_refl.
  cbn [negb].
  assert (Hlt : forallb (fun ax => ax <? n) axes = true).
  { apply forallb_forall. intros x Hx. apply Nat.ltb_lt.
    by apply (perm_In axes n). }
  rewrite Hlt, (no_repeat_NoDup axes) by (by eapply perm_NoDup).
  cbn [negb].
  rewrite (map_nth_repeat2 n axes) by (by apply perm_Forall_lt).
  by rewrite (perm_length axes n Hp).
Qed.

Lemma ungather_id n i : length i = n -> ungather (seq 0 n) n i = i.
Proof.
  intros Hi. rewrite <- (ungather_gather (seq 0 n) n i) at 2; [|done..].
  f_equal. unfold gather. subst n. symmetry. apply map_nth_seq_all.
Qed.

Lemma filter_true_all {A} (f : A -> bool) l :
  (forall x, In x l -> f x = true) -> List.filter f l = l.
Proof.
  induction l as [|x l IH]; intros H; simpl; [done|].
  rewrite (H x) by (by left). f_equal. apply IH. intros y Hy. apply H. by right.
Qed.

Lemma filter_false_all {A} (f : A -> bool) l :
  (forall x, In x l -> f x = false) -> List.filter f l = [].
Proof.
  induction l as [|x l IH]; intros H; simpl; [done|].
  rewrite (H x) by (by left). apply IH. intros y Hy. apply H. by right.
Qed.

Lemma notin_trailing k :
  List.filter (fun x => negb (mem x (seq k k))) (seq 0 (k * 2)) = seq 0 k.
Proof.
  replace (k * 2) with (k + k) by lia.
  rewrite seq_app, List.filter_app. simpl.
  rewrite filter_true_all, filter_false_all; [by rewrite app_nil_r|..].
  - intros x Hx. apply negb_false_iff, mem_In. done.
  - intros x Hx. apply negb_true_iff, mem_false.
    rewrite !in_seq in *. lia.
Qed.

Lemma perm_wires n ws :
  List.NoDup ws -> Forall (fun w => w < n) ws ->
  Permutation (ws ++ unused_idxs n ws) (seq 0 n).
Proof.
  intros Hnd Hlt. rewrite List.Forall_forall in Hlt.
  apply Permutation.NoDup_Permutation.
  - apply List.NoDup_app; [done|apply List.NoDup_filter, seq_NoDup|].
    intros x Hx Hx'. apply filter_In in Hx' as [_ Hx'].
    apply negb_true_iff, mem_false in Hx'. done.
  - apply seq_NoDup.
  - intros x. rewrite in_app_iff, in_seq. unfold unused_idxs.
    rewrite filter_In, in_seq, negb_true_iff, mem_false. split.
    + intros [Hx|[Hx _]]; [apply Hlt in Hx|]; lia.
    + intros Hx. destruct (in_dec Nat.eq_dec x ws); [by left|right].
      split; [lia|done].
Qed.

Lemma length_unused n ws :
  List.NoDup ws -> Forall (fun w => w < n) ws ->
  length (unused_idxs n ws) = n - length ws.
Proof.
  intros Hnd Hlt. pose proof (perm_length _ _ (perm_wires n ws Hnd Hlt)) as H.
  rewrite length_app in H. lia.
Qed.

Lemma wires_le n ws :
  List.NoDup ws -> Forall (fun w => w < n) ws -> length ws <= n.
Proof.
  intros Hnd Hlt. pose proof (perm_length _ _ (perm_wires n ws Hnd Hlt)) as H.
  rewrite length_app in H. lia.
Qed.

Lemma ravel_pair n p i j : ravel [n; p] [i; j] = i * p + j.
Proof. simpl. lia. Qed.

Lemma get_flatten2 (d : list R) s1 s2 i1 i2 :
  length i1 = length s1 ->
  get (mk_ndarray [prod_list s1; prod_list s2] d) [ravel s1 i1; ravel s2 i2]
  = get (mk_ndarray (s1 ++ s2) d) (i1 ++ i2).
Proof.
  intros Hl. unfold get. cbn [shape data].
  by rewrite ravel_pair, ravel_app.
Qed.

Lemma dot_ok a b n m p :
  shape a = [n; m] -> shape b = [m; p] ->
  dot a b = Ok (build [n; p] (fun idx =>
              rsum (map (fun x => mul (get a [nth 0 idx 0; x])
                                      (get b [x; nth 1 idx 0]))
                        (seq 0 m)))).
Proof. intros Ha Hb. unfold dot. by rewrite Ha, Hb, Nat.eqb_refl. Qed.

Lemma axes_equal_repeat2 m n axes_a axes_b :
  length axes_a = length axes_b ->
  Forall (fun ax => ax < m) axes_a -> Forall (fun ax => ax < n) axes_b ->
  axes_equal (repeat 2 m) (repeat 2 n) axes_a axes_b = Ok true.
Proof.
  intros Hlen Ha; revert axes_b Hlen.
  induction Ha as [|ax axes_a Hax Ha IH]; intros [|bx axes_b] Hlen Hb;
    cbn in *; try done.
  inversion Hb as [|? ? Hbx Hb']; subst.
  assert (Hnth : forall j x, x < j -> nth_error (repeat 2 j) x = Some 2).
  { intros j x Hx. rewrite nth_error_repeat; [done|lia]. }
  rewrite !Hnth by done. cbn. apply IH; [lia|done].
Qed.

Lemma pow2_double k : 2 ^ (k * 2) = 2 ^ k * 2 ^ k.
Proof. replace (k * 2) with (k + k) by lia. apply Nat.pow_add_r. Qed.

Lemma pow2_split k n : k <= n -> 2 ^ n = 2 ^ k * 2 ^ (n - k).
Proof.
  intros H. rewrite <- Nat.pow_add_r. f_equal. lia.
Qed.

Lemma tensordot_bits (a b : ndarray R) k n ws :
  shape a = repeat 2 (k * 2) -> shape b = repeat 2 n ->
  length ws = k -> List.NoDup ws -> Forall (fun w => w < n) ws ->
  exists t,
    tensordot a b (seq k k) ws = Ok t
    /\ shape t = repeat 2 k ++ repeat 2 (n - k)
    /\ forall r u, bits k r -> bits (n - k) u ->
         get t (r ++ u)
         = rsum (map (fun c =>
                   mul (get a (r ++ c))
                       (get b (ungather (ws ++ unused_idxs n ws) n (c ++ u))))
                 (indices (repeat 2 k))).
Proof.
  intros Ha Hb Hk Hnd Hlt.
  pose proof (perm_wires n ws Hnd Hlt) as Hperm.
  pose proof (length_unused n ws Hnd Hlt) as Hlu.
  pose proof (wires_le n ws Hnd Hlt) as Hle.
  rewrite Hk in Hlu, Hle.
  unfold tensordot. rewrite Ha, Hb, !repeat_length.
  rewrite length_seq, Hk, Nat.eqb_refl.
  rewrite axes_equal_repeat2; [|by rewrite length_seq| |done].
  2:{ apply List.Forall_forall. intros x Hx. apply in_seq in Hx. lia. }
  cbn [rbind negb].
  assert (E1 : map (fun ax => nth ax (repeat 2 (k * 2)) 0) (seq k k)
               = repeat 2 k).
  { rewrite (map_nth_repeat2 (k * 2)), length_seq; [done|].
    apply List.Forall_forall. intros x Hx. apply in_seq in Hx. lia. }
  assert (E2 : map (fun ax => nth ax (repeat 2 n) 0) ws = repeat 2 k).
  { by rewrite (map_nth_repeat2 n), Hk. }
  rewrite E1, E2.
  rewrite notin_trailing. fold (unused_idxs n ws).
  assert (E3 : map (fun ax => nth ax (repeat 2 (k * 2)) 0) (seq 0 k)
               = repeat 2 k).
  { rewrite (map_nth_repeat2 (k * 2)), length_seq; [done|].
    apply List.Forall_forall. intros x Hx. apply in_seq in Hx. lia. }
  assert (E4 : map (fun ax => nth ax (repeat 2 n) 0) (unused_idxs n ws)
               = repeat 2 (n - k)).
  { rewrite (map_nth_repeat2 n), Hlu; [done|].
    apply List.Forall_forall. intros x Hx.
    apply filter_In in Hx as [Hx _]. apply in_seq in Hx. lia. }
  rewrite E3, E4, !prod_list_repeat2.
  assert (E5 : seq 0 k ++ seq k k = seq 0 (k * 2)).
  { replace (k * 2) with (k + k) by lia. by rewrite seq_app. }
  rewrite E5.
  rewrite (transpose_bits a (k * 2)) by done. cbn [rbind].
  rewrite reshape_ok
    by (cbn [build shape prod_list fold_right];
        rewrite prod_list_repeat2, pow2_double; lia).
  cbn [rbind].
  rewrite (transpose_bits b n) by done. cbn [rbind].
  rewrite reshape_ok
    by (cbn [build shape prod_list fold_right];
        rewrite prod_list_repeat2, (pow2_split k n) by done; lia).
  cbn [rbind].
  erewrite dot_ok by reflexivity. cbn [rbind].
  rewrite reshape_ok
    by (cbn [build shape prod_list fold_right];
        rewrite prod_list_app, !prod_list_repeat2; lia).
  eexists. split; [reflexivity|]. split; [reflexivity|].
  intros r u Hr Hu.
  rewrite <- (prod_list_repeat2 k) at 1.
  rewrite <- (prod_list_repeat2 (n - k)) at 1.
  cbn [build data].
  rewrite <- get_flatten2 by (by rewrite repeat_length, (bits_length k r)).
  change (mk_ndarray [prod_list (repeat 2 k); prod_list (repeat 2 (n - k))]
            (map ?f (indices [prod_list (repeat 2 k); prod_list (repeat 2 (n - k))])))
    with (build [prod_list (repeat 2 k); prod_list (repeat 2 (n - k))] f).
  rewrite get_build
    by (repeat constructor; by apply ravel_lt).
  cbn [nth].
  rewrite <- (prod_list_repeat2 k) at 1.
  rewrite <- ravel_indices, map_map.
  f_equal. apply map_ext_in. intros c Hc. apply in_indices_bits in Hc.
  f_equal.
  - rewrite <- (prod_list_repeat2 k) at 1 2.
    rewrite get_flatten2 by (by rewrite repeat_length, (bits_length k r)).
    replace (repeat 2 k ++ repeat 2 k) with (repeat 2 (k * 2))
      by (replace (k * 2) with (k + k) by lia; apply repeat_app).
    change (mk_ndarray (repeat 2 (k * 2)) (map ?f (indices (repeat 2 (k * 2)))))
      with (build (repeat 2 (k * 2)) f).
    assert (Hrc : bits (k * 2) (r ++ c)).
    { replace (k * 2) with (k + k) by lia. by apply bits_app. }
    rewrite get_build by done.
    by rewrite ungather_id by (by apply bits_length).
  - rewrite <- (prod_list_repeat2 k) at 1.
    rewrite <- (prod_list_repeat2 (n - k)) at 1.
    rewrite get_flatten2 by (by rewrite repeat_length, (bits_length k c)).
    assert (Hcu : bits n (c ++ u)).
    { replace n with (k + (n - k)) by lia. by apply bits_app. }
    replace (repeat 2 k ++ repeat 2 (n - k)) with (repeat 2 n)
      by (replace n with (k + (n - k)) at 1 by lia; apply repeat_app).
    change (mk_ndarray (repeat 2 n) (map ?f (indices (repeat 2 n))))
      with (build (repeat 2 n) f).
    by rewrite get_build by done.
Qed.

Lemma ungather_argsort p n i :
  Permutation p (seq 0 n) -> ungather (argsort p) n i = gather p i.
Proof.
  intros Hp. unfold ungather, gather.
  transitivity (map (fun q => nth q i 0)
                  (map (fun r => nth r p 0) (seq 0 (length p))));
    [|by rewrite map_nth_seq_all].
  rewrite (perm_length p n Hp), map_map.
  apply map_ext_in. intros q Hq. apply in_seq in Hq.
  by rewrite (index_of_argsort p n) by (done || lia).
Qed.

(** What [mat_vec_product] computes on well-shaped arguments. *)
Lemma mat_vec_product_spec n (mat vec : ndarray R) ws :
  shape mat = [2 ^ length ws; 2 ^ length ws] ->
  prod_list (shape vec) = 2 ^ n ->
  List.NoDup ws -> Forall (fun w => w < n) ws ->
  mat_vec_product n mat vec ws
  = Ok (mk_ndarray [2 ^ n]
          (map (contract_at n ws mat vec) (indices (repeat 2 n)))).
Proof.
  intros Hmat Hvec Hnd Hlt.
  pose proof (perm_wires n ws Hnd Hlt) as Hperm.
  pose proof (length_unused n ws Hnd Hlt) as Hlu.
  pose proof (wires_le n ws Hnd Hlt) as Hle.
  unfold mat_vec_product. rewrite Hmat.
  unfold list_eqb. rewrite bool_decide_eq_true_2 by done. cbn [negb].
  rewrite reshape_ok
    by (rewrite Hmat, prod_list_repeat2, pow2_double; simpl; lia).
  cbn [rbind].
  rewrite reshape_ok by (by rewrite Hvec, prod_list_repeat2).
  cbn [rbind fst snd].
  destruct (tensordot_bits
              (mk_ndarray (repeat 2 (length ws * 2)) (data mat))
              (mk_ndarray (repeat 2 n) (data vec))
              (length ws) n ws eq_refl eq_refl eq_refl Hnd Hlt)
    as (t & Ht & Hshape & Hget).
  rewrite Ht. cbn [rbind].
  fold (unused_idxs n ws).
  assert (Hst : shape t = repeat 2 n).
  { rewrite Hshape, <- repeat_app. f_equal. lia. }
  rewrite (transpose_bits t n) by (done || by apply argsort_perm).
  cbn [rbind].
  rewrite reshape_ok
    by (cbn [build shape prod_list fold_right];
        rewrite prod_list_repeat2; lia).
  f_equal. cbn [build data]. f_equal.
  apply map_ext_in. intros i Hi. apply in_indices_bits in Hi.
  rewrite (ungather_argsort _ n) by done.
  rewrite gather_app, Hget.
  - reflexivity.
  - by apply (bits_gather n).
  - rewrite <- Hlu. by apply (bits_gather n).
Qed.

End ArrayFacts.

Section ExactSums.
Context {R : Semiring}.
Implicit Types (s idx : list nat) (a : ndarray R).

(** *** Finite sums over the semiring *)

Lemma add_0_r' (x : R) : add x zero = x.
Proof. by rewrite add_comm, add_0_l. Qed.

Lemma rsum_zero {A} (l : list A) : rsum (map (fun _ => zero) l) = (zero : R).
Proof. induction l as [|x l IH]; simpl; [done|]. by rewrite IH, add_0_l. Qed.

Lemma rsum_add {A} (f g : A -> R) l :
  rsum (map (fun x => add (f x) (g x)) l)
  = add (rsum (map f l)) (rsum (map g l)).
Proof.
  induction l as [|x l IH]; simpl; [by rewrite add_0_l|].
  rewrite IH. rewrite <- !add_assoc. f_equal.
  rewrite !add_assoc. f_equal. apply add_comm.
Qed.

Lemma rsum_mul_l {A} (x : R) (f : A -> R) l :
  mul x (rsum (map f l)) = rsum (map (fun y => mul x (f y)) l).
Proof.
  induction l as [|y l IH]; simpl; [apply mul_0_r|].
  by rewrite mul_add_distr_l, IH.
Qed.

Lemma rsum_mul_r {A} (x : R) (f : A -> R) l :
  mul (rsum (map f l)) x = rsum (map (fun y => mul (f y) x) l).
Proof.
  induction l as [|y l IH]; simpl; [apply mul_0_l|].
  by rewrite mul_add_distr_r, IH.
Qed.

Lemma rsum_swap {A B} (f : A -> B -> R) l1 l2 :
  rsum (map (fun x => rsum (map (fun y => f x y) l2)) l1)
  = rsum (map (fun y => rsum (map (fun x => f x y) l1)) l2).
Proof.
  induction l1 as [|x l1 IH]; simpl.
  - by rewrite rsum_zero.
  - by rewrite IH, <- rsum_add.
Qed.

Lemma rsum_single {A} (f : A -> R) l r :
  List.NoDup l -> In r l ->
  (forall d, In d l -> d <> r -> f d = zero) ->
  rsum (map f l) = f r.
Proof.
  induction 1 as [|x l Hnin Hnd IH]; intros Hin Hz; simpl; [done|].
  destruct Hin as [->|Hin].
  - rewrite (map_ext_in f (fun _ => zero)), rsum_zero; [apply add_0_r'|].
    intros d Hd. apply Hz; [by right|]. intros ->. done.
  - rewrite (Hz x), add_0_l; [|by left|by intros ->].
    apply IH; [done|]. intros d Hd. apply Hz. by right.
Qed.

Lemma NoDup_indices s : List.NoDup (indices s).
Proof.
  apply (NoDup_map_inv (ravel s)). rewrite ravel_indices. apply seq_NoDup.
Qed.

(** *** Contracting with a matrix and then with its inverse *)

Lemma inverse_entries (Minv M : ndarray R) m i j :
  shape Minv = [m; m] -> shape M = [m; m] ->
  dot Minv M = Ok (eye m) ->
  i < m -> j < m ->
  rsum (map (fun x => mul (get Minv [i; x]) (get M [x; j])) (seq 0 m))
  = if Nat.eqb i j then one else zero.
Proof.
  intros Hs1 Hs2 Hdot Hi Hj.
  rewrite (dot_ok Minv M m m m Hs1 Hs2) in Hdot.
  assert (Hv : Forall2 lt [i; j] [m; m]) by (by repeat constructor).
  pose proof (f_equal (fun r => match r with
                                | Ok t => get t [i; j]
                                | Raise _ => zero
                                end) Hdot) as Hget.
  cbv beta iota in Hget. unfold eye in Hget.
  by rewrite !get_build in Hget by done.
Qed.

Lemma matrix_entry (M : ndarray R) k r c :
  shape M = [2 ^ k; 2 ^ k] -> bits k r ->
  nth (ravel (repeat 2 (k * 2)) (r ++ c)) (data M) zero
  = get M [ravel (repeat 2 k) r; ravel (repeat 2 k) c].
Proof.
  intros Hs Hr. unfold get. rewrite Hs, ravel_pair.
  replace (repeat 2 (k * 2)) with (repeat 2 k ++ repeat 2 k)
    by (rewrite <- repeat_app; f_equal; lia).
  rewrite ravel_app by (by rewrite repeat_length, (bits_length k r)).
  by rewrite prod_list_repeat2.
Qed.

Lemma contract_inverse n (M Minv v : ndarray R) ws i :
  shape M = [2 ^ length ws; 2 ^ length ws] ->
  shape Minv = [2 ^ length ws; 2 ^ length ws] ->
  dot Minv M = Ok (eye (2 ^ length ws)) ->
  List.NoDup ws -> Forall (fun w => w < n) ws ->
  bits n i ->
  contract_at n ws Minv
    (mk_ndarray [2 ^ n] (map (contract_at n ws M v) (indices (repeat 2 n)))) i
  = nth (ravel (repeat 2 n) i) (data v) zero.
Proof.
  intros HM HMinv Hinv Hnd Hlt Hi.
  pose proof (perm_wires n ws Hnd Hlt) as Hperm.
  pose proof (length_unused n ws Hnd Hlt) as Hlu.
  set (k := length ws) in *.
  set (un := unused_idxs n ws) in *.
  set (V := fun d => nth (ravel (repeat 2 n) (ungather (ws ++ un) n (d ++ gather un i)))
                         (data v) zero).
  assert (Hgw : bits k (gather ws i)) by (by apply (bits_gather n)).
  assert (Hgu : bits (n - k) (gather un i))
    by (rewrite <- Hlu; by apply (bits_gather n)).
  assert (Hcu : forall c, bits k c -> bits n (c ++ gather un i)).
  { intros c Hc. replace n with (k + (n - k)).
    - by apply bits_app.
    - pose proof (wires_le n ws Hnd Hlt). unfold k. lia. }
  (* the inner contraction, read at the register that the outer one visits *)
  assert (Hinner : forall c, bits k c ->
    nth (ravel (repeat 2 n) (ungather (ws ++ un) n (c ++ gather un i)))
        (map (contract_at n ws M v) (indices (repeat 2 n))) zero
    = rsum (map (fun d =>
              mul (nth (ravel (repeat 2 (k * 2)) (c ++ d)) (data M) zero) (V d))
            (indices (repeat 2 k)))).
  { intros c Hc.
    assert (Hj : bits n (ungather (ws ++ un) n (c ++ gather un i)))
      by (eapply bits_ungather; by apply Hcu).
    rewrite (nth_map_lt _ _ _ _ [])
      by (rewrite length_indices; by apply ravel_lt).
    rewrite nth_indices by done.
    unfold contract_at. fold k. fold un.
    assert (Hg : gather (ws ++ un) (ungather (ws ++ un) n (c ++ gather un i))
                 = c ++ gather un i).
    { apply gather_ungather; [done|]. by apply bits_length, Hcu. }
    rewrite gather_app in Hg.
    apply app_inj_1 in Hg as [Hg1 Hg2];
      [|by rewrite length_gather, (bits_length k c)].
    by rewrite Hg1, Hg2. }
  unfold contract_at at 1. fold k. fold un. cbn [data].
  rewrite (map_ext_in _ (fun c =>
             rsum (map (fun d =>
               mul (mul (nth (ravel (repeat 2 (k * 2)) (gather ws i ++ c)) (data Minv) zero)
                        (nth (ravel (repeat 2 (k * 2)) (c ++ d)) (data M) zero))
                   (V d)) (indices (repeat 2 k))))).
  2:{ intros c Hc. apply in_indices_bits in Hc.
      rewrite Hinner by done. rewrite rsum_mul_l.
      f_equal. apply map_ext. intros d. apply mul_assoc. }
  rewrite rsum_swap.
  rewrite (map_ext_in _ (fun d =>
             mul (if Nat.eqb (ravel (repeat 2 k) (gather ws i))
                             (ravel (repeat 2 k) d)
                  then one else zero) (V d))).
  2:{ intros d Hd. apply in_indices_bits in Hd.
      rewrite <- rsum_mul_r. f_equal.
      rewrite <- (inverse_entries Minv M (2 ^ k)); try done;
        try (rewrite <- (prod_list_repeat2 k); by apply ravel_lt).
      rewrite <- (prod_list_repeat2 k) at 1.
      rewrite <- ravel_indices, map_map.
      f_equal. apply map_ext_in. intros c Hc. apply in_indices_bits in Hc.
      by rewrite !matrix_entry. }
  rewrite (rsum_single _ _ (gather ws i)).
  - rewrite Nat.eqb_refl, mul_1_l. unfold V.
    rewrite <- gather_app, ungather_gather; [done..|by apply bits_length].
  - apply NoDup_indices.
  - by apply in_indices_bits.
  - intros d Hd Hne. apply in_indices_bits in Hd.
    destruct (Nat.eqb_spec (ravel (repeat 2 k) (gather ws i))
                           (ravel (repeat 2 k) d)) as [Heq|_].
    + exfalso. apply Hne. symmetry. by apply (ravel_inj (repeat 2 k)).
    + apply mul_0_l.
Qed.

End ExactSums.

Section RaisedErrors.
Context {R : Scalars}.
Implicit Types (s idx : list nat) (a : ndarray R).

(** *** Which errors the contraction can raise *)

Lemma numpy_only_bind {A B} (r : result A) (k : A -> result B) :
  numpy_only r -> (forall x, numpy_only (k x)) -> numpy_only (rbind r k).
Proof. destruct r; cbn; auto. Qed.

Lemma numpy_only_reshape a s : numpy_only (reshape a s).
Proof. unfold reshape. by destruct (Nat.eqb _ _). Qed.

Lemma numpy_only_transpose a axes : numpy_only (transpose a axes).
Proof.
  unfold transpose.
  destruct (negb _); [done|]. destruct (negb _); [done|].
  by destruct (negb _).
Qed.

Lemma numpy_only_dot (a b : ndarray R) : numpy_only (dot a b).
Proof.
  unfold dot.
  destruct (shape a) as [|n [|m [|? ?]]]; try done.
  destruct (shape b) as [|m' [|p [|? ?]]]; try done.
  by destruct (Nat.eqb m m').
Qed.

Create HintDb numpy_errors.
#[local] Hint Resolve numpy_only_reshape numpy_only_transpose numpy_only_dot
  : numpy_errors.

Lemma numpy_only_axes_equal as_ bs axes_a axes_b :
  numpy_only (axes_equal as_ bs axes_a axes_b).
Proof.
  revert axes_b; induction axes_a as [|ax axes_a IH]; intros [|bx axes_b];
    cbn; try done.
  destruct (nth_error as_ ax); [|done].
  destruct (nth_error bs bx); [|done].
  destruct (Nat.eqb _ _); [apply IH|done].
Qed.

Lemma numpy_only_tensordot (a b : ndarray R) axes_a axes_b :
  numpy_only (tensordot a b axes_a axes_b).
Proof.
  unfold tensordot.
  apply numpy_only_bind.
  { destruct (Nat.eqb _ _); [apply numpy_only_axes_equal|done]. }
  intros equal. destruct (negb equal); [done|].
  repeat (apply numpy_only_bind; [|intros ?]); auto with numpy_errors.
Qed.

Lemma dimension_message_not_numpy k :
  raised_by_numpy (ValueError (dimension_message k)) = false.
Proof.
  cbn. apply bool_decide_eq_false. unfold dimension_message.
  intros Hin. cbn in Hin.
  repeat (apply elem_of_cons in Hin as [Hin|Hin]; [discriminate|]).
  by apply elem_of_nil in Hin.
Qed.

End RaisedErrors.

(* ================================================================== *)
(** * Facts about the program builder *)

(** Running a sequence of commands of the monad. *)
Lemma bind_ok {Value Executable Gate A B : Type}
    (m : M Value Executable Gate A) (k : A -> M Value Executable Gate B)
    (self self' : device Value Executable Gate) (a : A) :
  m self = (self', Ok a) -> bind m k self = k a self'.
Proof. intros H. unfold bind. by rewrite H. Qed.

Lemma bind_raise {Value Executable Gate A B : Type}
    (m : M Value Executable Gate A) (k : A -> M Value Executable Gate B)
    (self self' : device Value Executable Gate) (e : exn) :
  m self = (self', Raise e) -> bind m k self = (self', Raise e).
Proof. intros H. unfold bind. by rewrite H. Qed.

(** Run the first command of a sequence: one that computes ([gets],
    [modify], [ret]), or one whose run is given by [H]. *)
Ltac step := erewrite bind_ok by reflexivity.
Ltac step_with H := erewrite bind_ok by exact H.

Section BuilderFacts.
Context {Value Executable Gate Wire : Type}.
Variable map_wires : list Wire -> string + list nat.
Implicit Types (self : device Value Executable Gate).
Implicit Types (o : operation Value Wire) (p q : param Value).

Lemma extends_refl self : extends [] self self.
Proof.
  unfold extends. split_and!; try done.
  - by rewrite list_to_set_nil, (right_id_L ∅ (∪)).
  - by rewrite list_to_set_nil, (right_id_L ∅ (∪)).
Qed.

Lemma extends_trans k1 k2 self1 self2 self3 :
  extends k1 self1 self2 -> extends k2 self2 self3 ->
  extends (k1 ++ k2) self1 self3.
Proof.
  intros (Hs1 & Ht1 & Hsub1 & Hd1 & Hp1 & Hok1 & Hnil1)
         (Hs2 & Ht2 & Hsub2 & Hd2 & Hp2 & Hok2 & Hnil2).
  unfold extends. split_and!.
  - congruence.
  - congruence.
  - by etrans.
  - by rewrite Hd2, Hd1, list_to_set_app_L, (assoc_L (∪)).
  - by rewrite Hp2, Hp1, list_to_set_app_L, (assoc_L (∪)).
  - auto.
  - intros Hnil. apply app_eq_nil in Hnil as [-> ->].
    destruct (Hnil1 eq_refl) as [E1 E2]. destruct (Hnil2 eq_refl) as [E3 E4].
    split; congruence.
Qed.

Lemma parameter_string_inj p q :
  parameter_string p = parameter_string q -> py_id p = py_id q.
Proof.
  unfold parameter_string. intros H.
  apply (inj (String.append "theta")) in H.
  by apply (inj pretty) in H.
Qed.

Lemma prepare_parameters_run name data self :
  exists self',
    prepare_parameters name data self
    = (self', Ok (map (resolved_arg (_parameter_reference_map self') name) data))
    /\ extends (map parameter_string (List.filter (takes_handle name) data))
               self self'
    /\ forall p, In p data -> takes_handle name p = true ->
         is_Some (_parameter_reference_map self' !! parameter_string p).
Proof.
  revert self; induction data as [|p rest IH]; intros self.
  - exists self. split; [done|]. split; [apply extends_refl|]. by intros p [].
  - cbn [prepare_parameters List.filter map].
    change (requires_grad p && negb (String.eqb name "BasisState"))
      with (takes_handle name p).
    destruct (takes_handle name p) eqn:Hth.
    + match goal with
      | |- exists _, bind ?blk _ _ = _ /\ _ =>
          assert (exists self1 r1,
                    blk self = (self1, Ok (ArgRef r1))
                    /\ _parameter_reference_map self1 !! parameter_string p
                       = Some r1
                    /\ extends [parameter_string p] self self1)
            as (self1 & r1 & Hblk & Hr1 & Hext1)
      end.
      { destruct (_parameter_reference_map self !! parameter_string p)
          as [r|] eqn:E.
        - eexists _, r. split; [|split].
          + unfold bind, gets, modify, ret. cbn. rewrite E. cbn.
            rewrite E. reflexivity.
          + cbn. exact E.
          + unfold extends. cbn. apply elem_of_dom_2 in E.
            split_and!; try done.
            * set_solver.
            * rewrite dom_insert_L. set_solver.
        - eexists _, (mk_ref (parameter_string p) 0). split; [|split].
          + unfold bind, gets, modify, declare, ret. cbn. rewrite E. cbn.
            rewrite lookup_insert_eq. reflexivity.
          + cbn. apply lookup_insert_eq.
          + unfold extends. cbn. split_and!; try done.
            * by apply insert_subseteq.
            * rewrite dom_insert_L. set_solver.
            * rewrite dom_insert_L. set_solver.
            * intros Hok s r Hs.
              apply lookup_insert_Some in Hs as [[<- <-]|[_ Hs]];
                [done|by apply Hok]. }
      destruct (IH self1) as (self' & Hrun & Hext & Hbound).
      assert (Hr' : _parameter_reference_map self' !! parameter_string p
                    = Some r1).
      { destruct Hext as (_ & _ & Hsub & _).
        eapply lookup_weaken; [exact Hr1|exact Hsub]. }
      exists self'. split; [|split].
      * step_with Hblk.
        step_with Hrun.
        unfold ret. do 3 f_equal. unfold resolved_arg. by rewrite Hth, Hr'.
      * by apply (extends_trans [_] _ _ self1).
      * intros q [<-|Hq] Hq'; [by rewrite Hr'|by apply Hbound].
    + destruct (IH self) as (self' & Hrun & Hext & Hbound).
      exists self'. split; [|split].
      * step.
        step_with Hrun.
        unfold ret. do 3 f_equal. unfold resolved_arg. by rewrite Hth.
      * done.
      * intros q [<-|Hq] Hq'; [congruence|by apply Hbound].
Qed.

Lemma emits_extends keys self self' o ins :
  emits map_wires self o ins -> extends keys self self' ->
  emits map_wires self' o ins.
Proof.
  intros (g & qs & Hg & Hqs & -> & Hbound) (_ & Htable & Hsub & _).
  exists g, qs. split; [by rewrite Htable|]. split; [done|]. split.
  - f_equal. apply map_ext_in. intros p Hp. unfold resolved_arg.
    destruct (takes_handle (op_name o) p) eqn:Hth; [|done].
    destruct (Hbound p Hp Hth) as [r Hr].
    by rewrite Hr, (lookup_weaken _ _ _ _ Hr Hsub).
  - intros p Hp Hth. destruct (Hbound p Hp Hth) as [r Hr].
    exists r. by eapply lookup_weaken.
Qed.

(** Mapping the wires of an operation leaves the device as it is. *)
Lemma mapped_ok {B} (ws : list Wire) (qs : list nat)
    (k : list nat -> M Value Executable Gate B) self :
  map_wires ws = inr qs -> bind (mapped map_wires ws) k self = k qs self.
Proof. intros H. unfold bind, mapped. by rewrite H. Qed.

Lemma mapped_raise {B} (ws : list Wire) (msg : string)
    (k : list nat -> M Value Executable Gate B) self :
  map_wires ws = inl msg ->
  bind (mapped map_wires ws) k self = (self, Raise (WireError msg)).
Proof. intros H. unfold bind, mapped. by rewrite H. Qed.

(** A prefix of supported, well-placed operations on wires of the device
    is emitted in order, and the loop goes on with the rest. *)
Lemma apply_parametric_loop_prefix pre rest i built self :
  (forall j o, pre !! j = Some o -> passes map_wires self (i + j) o) ->
  exists self' new,
    apply_parametric_loop map_wires i (pre ++ rest) built self
    = apply_parametric_loop map_wires (i + length pre) rest
        (mk_Program (instructions built ++ new) (memory built)
                    (num_shots built)) self'
    /\ Forall2 (emits map_wires self') pre new
    /\ extends (bound_keys pre) self self'.
Proof.
  revert i built self; induction pre as [|o pre IH];
    intros i built self Hpre.
  - exists self, []. split; [|split].
    + cbn [app length]. rewrite Nat.add_0_r, app_nil_r. by destruct built.
    + constructor.
    + apply extends_refl.
  - cbn [app apply_parametric_loop].
    destruct (Hpre 0 o eq_refl) as ([qs Hqs] & Hp0 & [g Hg]).
    rewrite Nat.add_0_r in Hp0.
    rewrite (mapped_ok _ qs) by exact Hqs.
    rewrite Hp0.
    destruct (prepare_parameters_run (op_name o) (op_data o) self)
      as (self1 & Hrun & Hext1 & Hbound1).
    step_with Hrun.
    step.
    assert (Hg1 : _operation_map self1 !! op_name o = Some g).
    { destruct Hext1 as (_ & -> & _). exact Hg. }
    rewrite Hg1.
    destruct (IH (S i)
                (Program_inst built
                   (Apply g (map (resolved_arg (_parameter_reference_map self1)
                                    (op_name o)) (op_data o))
                      qs)) self1)
      as (self' & new & Hloop & Hemit & Hext).
    { intros j o' Hj. replace (S i + j) with (i + S j) by lia.
      destruct (Hpre (S j) o' Hj) as (Hd & Hp & Hs).
      split; [done|]. split; [done|].
      unfold supported. by destruct Hext1 as (_ & -> & _). }
    exists self', (Apply g (map (resolved_arg (_parameter_reference_map self1)
                                   (op_name o)) (op_data o))
                     qs :: new).
    split; [|split].
    + rewrite Hloop. cbn [length Program_inst instructions memory num_shots].
      rewrite <- app_assoc. cbn [app].
      by replace (S i + length pre) with (i + S (length pre)) by lia.
    + constructor; [|done].
      eapply emits_extends; [|exact Hext].
      exists g, qs. by split_and!.
    + by apply (extends_trans _ _ _ self1).
Qed.

(** Either every element of a list passes a positional test, or there
    is a first one that does not. *)
Lemma first_failure {A} (P : nat -> A -> bool) (l : list A) :
  (forall j x, l !! j = Some x -> P j x = true)
  \/ exists pre x post,
       l = pre ++ x :: post
       /\ (forall j y, pre !! j = Some y -> P j y = true)
       /\ P (length pre) x = false.
Proof.
  induction l as [|x l IH] using rev_ind.
  - left. intros j x Hj. by rewrite lookup_nil in Hj.
  - destruct IH as [Hall|(pre & y & post & -> & Hpre & Hy)].
    + destruct (P (length l) x) eqn:Hx.
      * left. intros j z Hj.
        apply lookup_app_Some in Hj as [Hj|[Hlen Hj]]; [by apply Hall|].
        apply list_lookup_singleton_Some in Hj as [Hj <-].
        by replace j with (length l) by lia.
      * right. by exists l, x, [].
    + right. exists pre, y, (post ++ [x]).
      split; [by rewrite <- app_assoc|done].
Qed.

Lemma passes_test self o (i : nat) :
  passesb map_wires self i o = true -> passes map_wires self i o.
Proof.
  unfold passesb, passes, on_device. intros H.
  apply andb_true_iff in H as [H H3]. apply andb_true_iff in H as [H1 H2].
  apply negb_true_iff in H2. apply bool_decide_eq_true in H3.
  destruct (map_wires (op_wires o)) as [msg|qs]; [done|].
  split; [by exists qs|done].
Qed.

(** The outcomes of the loop of [apply_parametric_operations]: every
    operation is emitted; or the first operation that is not emitted has a
    wire that the device does not have, and nothing was bound for it; or
    it is a misplaced state preparation; or it is an operation missing
    from the table, met after its parameters were bound. *)
Lemma apply_parametric_loop_cases i ops built self :
  (exists self' new,
     apply_parametric_loop map_wires i ops built self
     = (self', Ok (mk_Program (instructions built ++ new) (memory built)
                              (num_shots built)))
     /\ Forall2 (emits map_wires self') ops new
     /\ extends (bound_keys ops) self self'
     /\ (forall j o, ops !! j = Some o -> passes map_wires self (i + j) o))
  \/ (exists pre o post self',
       ops = pre ++ o :: post
       /\ (forall j o', pre !! j = Some o' ->
             passes map_wires self (i + j) o')
       /\ ((exists msg,
              map_wires (op_wires o) = inl msg
              /\ apply_parametric_loop map_wires i ops built self
                 = (self', Raise (WireError msg))
              /\ extends (bound_keys pre) self self')
           \/ (on_device map_wires o
               /\ Nat.ltb 0 (i + length pre) && is_state_preparation (op_name o) = true
               /\ apply_parametric_loop map_wires i ops built self
                  = (self', Raise (DeviceError
                       (state_preparation_message (op_name o) (short_name self))))
               /\ extends (bound_keys pre) self self')
           \/ (on_device map_wires o
               /\ Nat.ltb 0 (i + length pre) && is_state_preparation (op_name o) = false
               /\ _operation_map self !! op_name o = None
               /\ apply_parametric_loop map_wires i ops built self
                  = (self', Raise (KeyError (op_name o)))
               /\ extends (bound_keys (pre ++ [o])) self self'))).
Proof.
  destruct (first_failure (fun j o => passesb map_wires self (i + j) o) ops)
    as [Hall|(pre & o & post & -> & Hpre & Ho)].
  - left.
    assert (Hall' : forall j o, ops !! j = Some o ->
                      passes map_wires self (i + j) o)
      by (intros j o Hj; by apply passes_test, Hall).
    destruct (apply_parametric_loop_prefix ops [] i built self Hall')
      as (self' & new & Hloop & Hemit & Hext).
    rewrite app_nil_r in Hloop. exists self', new. by split_and!.
  - right. exists pre, o, post.
    assert (Hpre' : forall j o', pre !! j = Some o' ->
                      passes map_wires self (i + j) o')
      by (intros j o' Hj; by apply passes_test, Hpre).
    destruct (apply_parametric_loop_prefix pre (o :: post) i built self Hpre')
      as (self' & new & Hloop & Hemit & Hext).
    rewrite Hloop. cbn [apply_parametric_loop].
    unfold passesb in Ho.
    destruct (map_wires (op_wires o)) as [msg|qs] eqn:Hqs.
    + exists self'. split; [done|]. split; [done|]. left.
      exists msg. split; [done|]. split; [|done].
      by rewrite (mapped_raise _ msg).
    + rewrite (mapped_ok _ qs) by done.
      destruct (Nat.ltb 0 (i + length pre) && is_state_preparation (op_name o))
        eqn:Hmis.
      * exists self'. split; [done|]. split; [done|]. right. left.
        split; [by exists qs|]. split; [done|]. split; [|done].
        step. unfold raise.
        destruct Hext as (-> & _). done.
      * cbn in Ho. apply bool_decide_eq_false in Ho.
        assert (Hnone : _operation_map self !! op_name o = None).
        { unfold supported in Ho. by apply eq_None_not_Some. }
        destruct (prepare_parameters_run (op_name o) (op_data o) self')
          as (self2 & Hrun & Hext2 & Hbound2).
        exists self2. split; [done|]. split; [done|]. right. right.
        split; [by exists qs|]. split; [done|]. split; [done|]. split.
        -- step_with Hrun.
           step.
           destruct Hext2 as (_ & -> & _). destruct Hext as (_ & -> & _).
           by rewrite Hnone.
        -- unfold bound_keys. rewrite flat_map_app. cbn [flat_map].
           rewrite app_nil_r. by apply (extends_trans _ _ _ self').
Qed.

(** The same analysis for the loop that passes literal values. *)
Lemma apply_circuit_loop_prefix pre rest i built self :
  (forall j o, pre !! j = Some o -> passes map_wires self (i + j) o) ->
  exists new,
    apply_circuit_loop map_wires i (pre ++ rest) built self
    = apply_circuit_loop map_wires (i + length pre) rest
        (mk_Program (instructions built ++ new) (memory built)
                    (num_shots built)) self.
Proof.
  revert i built; induction pre as [|o pre IH]; intros i built Hpre.
  - exists []. cbn [app length]. rewrite Nat.add_0_r, app_nil_r.
    by destruct built.
  - cbn [app apply_circuit_loop].
    destruct (Hpre 0 o eq_refl) as ([qs Hqs] & Hp0 & [g Hg]).
    rewrite Nat.add_0_r in Hp0.
    rewrite (mapped_ok _ qs) by exact Hqs.
    rewrite Hp0. step. rewrite Hg.
    destruct (IH (S i)
                (Program_inst built (Apply g (map ArgLit (op_data o)) qs)))
      as (new & Hloop).
    { intros j o' Hj. replace (S i + j) with (i + S j) by lia.
      by apply Hpre. }
    eexists (_ :: new). rewrite Hloop.
    cbn [length Program_inst instructions memory num_shots].
    rewrite <- app_assoc. cbn [app].
    by replace (S i + length pre) with (i + S (length pre)) by lia.
Qed.

Lemma apply_circuit_loop_cases i ops built self :
  (exists new,
     apply_circuit_loop map_wires i ops built self
     = (self, Ok (mk_Program (instructions built ++ new) (memory built)
                             (num_shots built)))
     /\ (forall j o, ops !! j = Some o -> passes map_wires self (i + j) o))
  \/ (exists pre o post,
       ops = pre ++ o :: post
       /\ (forall j o', pre !! j = Some o' ->
             passes map_wires self (i + j) o')
       /\ ((exists msg,
              map_wires (op_wires o) = inl msg
              /\ apply_circuit_loop map_wires i ops built self
                 = (self, Raise (WireError msg)))
           \/ (on_device map_wires o
               /\ Nat.ltb 0 (i + length pre) && is_state_preparation (op_name o) = true
               /\ apply_circuit_loop map_wires i ops built self
                  = (self, Raise (DeviceError
                       (state_preparation_message (op_name o) (short_name self)))))
           \/ (on_device map_wires o
               /\ Nat.ltb 0 (i + length pre) && is_state_preparation (op_name o) = false
               /\ _operation_map self !! op_name o = None
               /\ apply_circuit_loop map_wires i ops built self
                  = (self, Raise (KeyError (op_name o)))))).
Proof.
  destruct (first_failure (fun j o => passesb map_wires self (i + j) o) ops)
    as [Hall|(pre & o & post & -> & Hpre & Ho)].
  - left.
    assert (Hall' : forall j o, ops !! j = Some o ->
                      passes map_wires self (i + j) o)
      by (intros j o Hj; by apply passes_test, Hall).
    destruct (apply_circuit_loop_prefix ops [] i built self Hall')
      as (new & Hloop).
    rewrite app_nil_r in Hloop. by exists new.
  - right. exists pre, o, post.
    assert (Hpre' : forall j o', pre !! j = Some o' ->
                      passes map_wires self (i + j) o')
      by (intros j o' Hj; by apply passes_test, Hpre).
    destruct (apply_circuit_loop_prefix pre (o :: post) i built self Hpre')
      as (new & Hloop).
    rewrite Hloop. cbn [apply_circuit_loop].
    unfold passesb in Ho.
    destruct (map_wires (op_wires o)) as [msg|qs] eqn:Hqs.
    + split; [done|]. split; [done|]. left.
      exists msg. split; [done|].
      by rewrite (mapped_raise _ msg).
    + rewrite (mapped_ok _ qs) by done.
      destruct (Nat.ltb 0 (i + length pre) && is_state_preparation (op_name o))
        eqn:Hmis.
      * split; [done|]. split; [done|]. right. left.
        split; [by exists qs|]. split; [done|].
        by step.
      * cbn in Ho. apply bool_decide_eq_false in Ho.
        assert (Hnone : _operation_map self !! op_name o = None).
        { unfold supported in Ho. by apply eq_None_not_Some. }
        split; [done|]. split; [done|]. right. right.
        split; [by exists qs|]. split; [done|]. split; [done|].
        step. by rewrite Hnone.
Qed.

Lemma apply_rotations_outcome rotations built self :
  exists r, apply_rotations map_wires rotations built self = (self, r)
            /\ is_DeviceError r = false.
Proof.
  revert built; induction rotations as [|o rest IH]; intros built.
  - by eexists.
  - cbn [apply_rotations].
    destruct (map_wires (op_wires o)) as [msg|qs] eqn:Hqs.
    + rewrite (mapped_raise _ msg) by done. by eexists.
    + rewrite (mapped_ok _ qs) by done. step.
      destruct (_operation_map self !! op_name o) as [g|]; [apply IH|].
      by eexists.
Qed.

Lemma measure_all_ok i qubits ro self :
  exists self', measure_all i qubits ro self = (self', Ok tt).
Proof.
  revert i self; induction qubits as [|q rest IH]; intros i self.
  - by eexists.
  - cbn [measure_all]. step. apply IH.
Qed.

(** [apply] is its operation loop between a prologue that keeps the
    configuration and an epilogue that raises no [DeviceError]. *)
Lemma apply_outcome ops rotations self :
  exists self0,
    short_name self0 = short_name self
    /\ _operation_map self0 = _operation_map self
    /\ (forall self1 e,
          (if parametric_compilation self && negb (is_pyqvm self)
           then apply_parametric_operations map_wires ops
           else apply_circuit_operations map_wires ops) self0
          = (self1, Raise e) ->
          apply map_wires ops rotations self = (self1, Raise e))
    /\ (forall self1 built,
          (if parametric_compilation self && negb (is_pyqvm self)
           then apply_parametric_operations map_wires ops
           else apply_circuit_operations map_wires ops) self0
          = (self1, Ok built) ->
          is_DeviceError (snd (apply map_wires ops rotations self)) = false).
Proof.
  eexists (set_prog _ self). split; [reflexivity|]. split; [reflexivity|].
  split.
  - intros self1 e Hbuild. unfold apply.
    step.
    step.
    step.
    step.
    erewrite bind_raise; [reflexivity|]. exact Hbuild.
  - intros self1 built Hbuild. unfold apply.
    step.
    step.
    step.
    step.
    step_with Hbuild.
    step.
    match goal with
    | |- context [bind (apply_rotations map_wires rotations ?b) _ ?st] =>
        destruct (apply_rotations_outcome rotations b st) as (r & Hr & Hne)
    end.
    destruct r as [rots|e].
    + step_with Hr.
      step.
      step.
      step.
      match goal with
      | |- context [bind (measure_all ?i ?qs ?ro) _ ?st] =>
          destruct (measure_all_ok i qs ro st) as (self3 & Hm)
      end.
      step_with Hm.
      step.
      reflexivity.
    + erewrite bind_raise by exact Hr. exact Hne.
Qed.

(** A state preparation at a later position is not among the operations
    that passed the checks. *)
Lemma misplaced_not_in_prefix (ops : list (operation Value Wire)) j o
    pre o' post self :
  ops !! j = Some o -> 0 < j -> is_state_preparation (op_name o) = true ->
  ops = pre ++ o' :: post ->
  (forall j' o'', pre !! j' = Some o'' -> passes map_wires self j' o'') ->
  length pre <= j.
Proof.
  intros Hj Hpos Hsp -> Hpre.
  destruct (le_lt_dec (length pre) j) as [Hle|Hlt]; [done|].
  rewrite lookup_app_l in Hj by done.
  destruct (Hpre j o Hj) as (_ & Hf & _). rewrite Hsp in Hf.
  destruct j; [lia|done].
Qed.

(** The outcomes of either loop over the operations, as [apply] runs
    it. *)
Lemma operations_outcome (parametric : bool) ops self :
  let run :=
    (if parametric
     then apply_parametric_operations map_wires ops
     else apply_circuit_operations map_wires ops) self in
  (exists self' built,
     run = (self', Ok built)
     /\ (forall j o, ops !! j = Some o -> passes map_wires self j o))
  \/ (exists pre o post self',
       ops = pre ++ o :: post
       /\ (forall j o', pre !! j = Some o' -> passes map_wires self j o')
       /\ ((exists msg,
              map_wires (op_wires o) = inl msg
              /\ run = (self', Raise (WireError msg)))
           \/ (on_device map_wires o
               /\ Nat.ltb 0 (length pre) && is_state_preparation (op_name o) = true
               /\ run = (self', Raise (DeviceError
                           (state_preparation_message (op_name o)
                                                      (short_name self)))))
           \/ (on_device map_wires o
               /\ Nat.ltb 0 (length pre) && is_state_preparation (op_name o) = false
               /\ _operation_map self !! op_name o = None
               /\ run = (self', Raise (KeyError (op_name o)))))).
Proof.
  destruct parametric; cbn zeta.
  - destruct (apply_parametric_loop_cases 0 ops empty_Program self)
      as [(self' & new & Hloop & _ & _ & Hall)
         |(pre & o & post & self' & Hops & Hpre
           & [(msg & Hmsg & Hloop & _)
             |[(Hd & Hmis & Hloop & _)|(Hd & Hmis & Hnone & Hloop & _)]])].
    + left. by eexists _, _.
    + right. exists pre, o, post, self'. split_and!; try done.
      left. by exists msg.
    + right. exists pre, o, post, self'. split_and!; try done.
      right. by left.
    + right. exists pre, o, post, self'. split_and!; try done.
      right. by right.
  - destruct (apply_circuit_loop_cases 0 ops empty_Program self)
      as [(new & Hloop & Hall)
         |(pre & o & post & Hops & Hpre
           & [(msg & Hmsg & Hloop)
             |[(Hd & Hmis & Hloop)|(Hd & Hmis & Hnone & Hloop)]])].
    + left. by eexists _, _.
    + right. exists pre, o, post, self. split_and!; try done.
      left. by exists msg.
    + right. exists pre, o, post, self. split_and!; try done.
      right. by left.
    + right. exists pre, o, post, self. split_and!; try done.
      right. by right.
Qed.

End BuilderFacts.

(* ================================================================== *)
(** * The program builder: state preparation, unsupported operations,
      parameter handles *)

Section BuilderClaims.
Context {Value Executable Gate Wire : Type}.
Variable map_wires : list Wire -> string + list nat.
Implicit Types (self : device Value Executable Gate).
Implicit Types (o : operation Value Wire) (p q : param Value).

(** C4, as amended.  A state-preparation operation ([QubitStateVector] or
    [BasisState]) at a position other than the first makes [apply] fail
    with the state-preparation [DeviceError], provided every operation
    before it is in the supported-operation table and the wires of every
    operation up to and including it are wires of the device; when the
    only state-preparation operation is the first one, [apply] raises no
    such error; and a state-preparation operation at a later position
    with a wire that the device does not have makes [apply] fail with the
    [WireError] of [map_wires] instead, when the operations before it
    pass the checks of the loop. *)
Theorem state_preparation_order self ops rotations j o :
  ops !! j = Some o ->
  is_state_preparation (op_name o) = true ->
  (0 < j ->
   (forall j' o', j' < j -> ops !! j' = Some o' -> supported self o') ->
   (forall j' o', j' <= j -> ops !! j' = Some o' -> on_device map_wires o') ->
   exists self' msg,
     apply map_wires ops rotations self = (self', Raise (DeviceError msg)))
  /\ (j = 0 ->
      (forall j' o', 0 < j' -> ops !! j' = Some o' ->
         is_state_preparation (op_name o') = false) ->
      is_DeviceError (snd (apply map_wires ops rotations self)) = false)
  /\ (0 < j ->
      (forall j' o', j' < j -> ops !! j' = Some o' -> passes map_wires self j' o') ->
      forall msg, map_wires (op_wires o) = inl msg ->
      exists self',
        apply map_wires ops rotations self = (self', Raise (WireError msg))).
Proof.
  intros Hj Hsp.
  destruct (apply_outcome map_wires ops rotations self)
    as (self0 & Hshort & Htable & Hraise & Hok).
  assert (Hsup0 : forall o', supported self0 o' -> supported self o').
  { intros o'. unfold supported. by rewrite Htable. }
  destruct (operations_outcome map_wires
              (parametric_compilation self && negb (is_pyqvm self)) ops self0)
    as [(self' & built & Hloop & Hall)
       |(pre & o' & post & self' & Hops & Hpre & Hfail)].
  - (* every operation is emitted *)
    split; [|split].
    + intros Hpos _ _. destruct (Hall j o Hj) as (_ & Hf & _).
      rewrite Hsp in Hf. destruct j; [lia|done].
    + intros _ _. eapply Hok. exact Hloop.
    + intros Hpos _ msg _. destruct (Hall j o Hj) as (_ & Hf & _).
      rewrite Hsp in Hf. destruct j; [lia|done].
  - assert (Hmid : ops !! length pre = Some o')
      by (rewrite Hops; by apply list_lookup_middle).
    assert (Hle : 0 < j -> length pre <= j).
    { intros Hpos. eapply misplaced_not_in_prefix; eauto. }
    split; [|split].
    + intros Hpos Hsup Hdev. specialize (Hle Hpos).
      destruct Hfail as [(msg & Hmsg & Hloop)
                        |[(_ & _ & Hloop)|(_ & Hmis & Hnone & _)]].
      * destruct (Hdev (length pre) o' Hle Hmid) as [qs Hqs]. congruence.
      * eexists _, _. apply Hraise. exact Hloop.
      * exfalso. destruct (decide (length pre = j)) as [Heq|Hne].
        -- rewrite Heq in Hmid, Hmis. assert (o' = o) as -> by congruence.
           rewrite Hsp in Hmis. destruct j; [lia|done].
        -- destruct (Hsup (length pre) o') as [g Hg]; [lia|done|].
           rewrite <- Htable in Hg. congruence.
    + intros -> Hrest.
      destruct Hfail as [(msg & Hmsg & Hloop)
                        |[(_ & Hmis & _)|(_ & _ & _ & Hloop)]].
      * by rewrite (Hraise _ _ Hloop).
      * exfalso. destruct (length pre) as [|n] eqn:Hlen; [done|].
        cbn in Hmis. by rewrite (Hrest (S n) o') in Hmis by (lia || done).
      * by rewrite (Hraise _ _ Hloop).
    + intros Hpos Hbefore msg Hmsg. specialize (Hle Hpos).
      destruct (decide (length pre = j)) as [Heq|Hne].
      * rewrite Heq in Hmid. assert (o' = o) as -> by congruence.
        destruct Hfail as [(msg' & Hmsg' & Hloop)
                          |[([qs Hqs] & _)|([qs Hqs] & _)]];
          [|congruence..].
        exists self'. apply Hraise. rewrite Hloop. congruence.
      * exfalso.
        destruct (Hbefore (length pre) o') as ([qs Hqs] & Hf & [g Hg]);
          [lia|done|].
        destruct Hfail as [(msg' & Hmsg' & _)
                          |[(_ & Hmis & _)|(_ & _ & Hnone & _)]].
        -- congruence.
        -- congruence.
        -- rewrite <- Htable in Hg. congruence.
Qed.


Lemma lookup_map {A B} (f : A -> B) (l : list A) (j : nat) :
  map f l !! j = f <$> l !! j.
Proof.
  revert j; induction l as [|x l IH]; intros [|j]; cbn; done.
Qed.

(** C6.  Within one build by [apply_parametric_operations], the handle
    substituted for a differentiable parameter (of an operation other
    than [BasisState]) is the one the table holds under the key of the
    parameter's identity, and two occurrences get the same handle exactly
    when they are the same object: equal values do not merge handles. *)
Theorem handles_follow_identity self ops self' built i j o p i' j' o' q :
  refs_ok (_parameter_reference_map self) ->
  apply_parametric_operations map_wires ops self = (self', Ok built) ->
  ops !! i = Some o -> op_data o !! j = Some p ->
  requires_grad p = true -> op_name o <> "BasisState" ->
  ops !! i' = Some o' -> op_data o' !! j' = Some q ->
  requires_grad q = true -> op_name o' <> "BasisState" ->
  exists r r',
    argument_at built i j = Some (ArgRef r)
    /\ argument_at built i' j' = Some (ArgRef r')
    /\ _parameter_reference_map self' !! parameter_string p = Some r
    /\ _parameter_reference_map self' !! parameter_string q = Some r'
    /\ (r = r' <-> py_id p = py_id q).
Proof.
  intros Hrefs Hbuild Hi Hj Hgp Hnp Hi' Hj' Hgq Hnq.
  unfold apply_parametric_operations in Hbuild.
  destruct (apply_parametric_loop_cases map_wires 0 ops empty_Program self)
    as [(self1 & new & Hloop & Hemit & Hext & _)
       |(pre & o1 & post & self1 & _ & _
         & [(msg & _ & Hloop & _)
           |[(_ & _ & Hloop & _)|(_ & _ & _ & Hloop & _)]])];
    rewrite Hloop in Hbuild; [|done..].
  injection Hbuild as <- Hbuilt.
  assert (Hnew : instructions built = new) by (by rewrite <- Hbuilt).
  assert (Hok : refs_ok (_parameter_reference_map self1)).
  { destruct Hext as (_ & _ & _ & _ & _ & Hok & _). by apply Hok. }
  assert (Hhandle : forall i o j p,
            ops !! i = Some o -> op_data o !! j = Some p ->
            requires_grad p = true -> op_name o <> "BasisState" ->
            argument_at built i j = Some (ArgRef (handle_of p))
            /\ _parameter_reference_map self1 !! parameter_string p
               = Some (handle_of p)).
  { clear -Hemit Hok Hnew. intros i o j p Hi Hj Hg Hn.
    destruct (Forall2_lookup_l _ _ _ _ _ Hemit Hi)
      as (ins & Hins & g & qs & _ & _ & -> & Hbound).
    assert (Hth : takes_handle (op_name o) p = true).
    { unfold takes_handle. rewrite Hg. cbn.
      by apply negb_true_iff, String.eqb_neq. }
    destruct (Hbound p) as [r Hr]; [|done|].
    { apply list_elem_of_In, list_elem_of_lookup. by exists j. }
    pose proof (Hok _ _ Hr) as ->.
    split; [|done].
    unfold argument_at. rewrite Hnew, Hins, lookup_map, Hj. cbn.
    unfold resolved_arg. by rewrite Hth, Hr. }
  destruct (Hhandle i o j p Hi Hj Hgp Hnp) as [Ha Hr].
  destruct (Hhandle i' o' j' q Hi' Hj' Hgq Hnq) as [Ha' Hr'].
  exists (handle_of p), (handle_of q). split_and!; try done.
  split.
  - intros Heq. apply parameter_string_inj.
    unfold handle_of in Heq. congruence.
  - intros Heq. unfold handle_of, parameter_string. by rewrite Heq.
Qed.


End BuilderClaims.

(* ================================================================== *)
(** * The compilation cache *)

Section CacheFacts.
Context {Value Executable Gate : Type}.
Implicit Types (self : device Value Executable Gate).
Implicit Types (c : call Value Executable Gate).
Implicit Types (evs : list (event Value Executable Gate)).

Lemma compile_hashes_app evs evs' :
  compile_hashes (evs ++ evs') = compile_hashes evs ++ compile_hashes evs'.
Proof. apply flat_map_app. Qed.

(** One call: the compiler is asked exactly on a miss, and a hash that
    was compiled is held afterwards. *)
Lemma generate_samples_step self :
  parametric_compilation self = true -> is_pyqvm self = false ->
  (forall p, exists e, qc_compile (qc self) p = Ok e) ->
  exists self' evs r,
    generate_samples self = (self', evs, r)
    /\ parametric_compilation self' = true
    /\ is_pyqvm self' = false
    /\ compile_hashes evs
       = cache_misses (dom (_compiled_program_dict self)) [_circuit_hash self]
    /\ dom (_compiled_program_dict self')
       = match _circuit_hash self with
         | Some h => {[h]} ∪ dom (_compiled_program_dict self)
         | None => dom (_compiled_program_dict self)
         end.
Proof.
  intros Hpar Hpy Hcompile. unfold generate_samples.
  rewrite Hpar.
  set (pushed := set_prog _ self).
  assert (Hpy' : is_pyqvm pushed = false) by exact Hpy.
  rewrite Hpy'.
  assert (Hhash : circuit_hash pushed = _circuit_hash self).
  { unfold circuit_hash. cbn. by rewrite Hpar. }
  rewrite Hhash.
  destruct (Hcompile (prog pushed)) as [e He].
  change (qc pushed) with (qc self).
  change (_compiled_program_dict pushed) with (_compiled_program_dict self).
  destruct (_circuit_hash self) as [h|] eqn:Hh.
  - destruct (_compiled_program_dict self !! h) as [cached|] eqn:Hc.
    + cbn [cache_misses].
      rewrite decide_True by (by apply elem_of_dom_2 in Hc).
      assert (Hdom : {[h]} ∪ dom (_compiled_program_dict self)
                     = dom (_compiled_program_dict self)).
      { apply elem_of_dom_2 in Hc. set_solver. }
      rewrite Hdom.
      change (_compiled_program_dict pushed) with (_compiled_program_dict self).
      rewrite Hc.
      destruct (qc_run _ _); eexists _, _, _; by split_and!.
    + cbn [cache_misses].
      rewrite decide_False by (by apply not_elem_of_dom_2).
      rewrite He.
      change (_compiled_program_dict (set_compiled_program_dict _ pushed))
        with (<[h := e]> (_compiled_program_dict self)).
      rewrite lookup_insert_eq.
      destruct (qc_run _ _); eexists _, _, _;
        (split_and!; [reflexivity|done|done|done|cbn; apply dom_insert_L]).
  - rewrite He.
    destruct (qc_run _ _); eexists _, _, _; by split_and!.
Qed.

(** A hit: the cached program is run, and the compiler is not asked. *)
Lemma generate_samples_hit self h e :
  parametric_compilation self = true -> is_pyqvm self = false ->
  _circuit_hash self = Some h ->
  _compiled_program_dict self !! h = Some e ->
  exists self' r,
    generate_samples self = (self', [EvRun (inr e)], r)
    /\ _compiled_program self' = Some e
    /\ _compiled_program_dict self' = _compiled_program_dict self.
Proof.
  intros Hpar Hpy Hh Hc. unfold generate_samples.
  rewrite Hpar.
  set (pushed := set_prog _ self).
  assert (Hpy' : is_pyqvm pushed = false) by exact Hpy.
  rewrite Hpy'.
  assert (Hhash : circuit_hash pushed = Some h).
  { unfold circuit_hash. cbn. by rewrite Hpar. }
  rewrite Hhash.
  change (_compiled_program_dict pushed) with (_compiled_program_dict self).
  rewrite Hc.
  change (_compiled_program_dict pushed) with (_compiled_program_dict self).
  rewrite Hc.
  destruct (qc_run _ _); eexists _, _; by split_and!.
Qed.

Lemma run_calls_misses self calls :
  parametric_compilation self = true -> is_pyqvm self = false ->
  compiler_answers calls ->
  compile_hashes (snd (run_calls self calls))
  = cache_misses (dom (_compiled_program_dict self)) (map call_hash calls).
Proof.
  revert self; induction calls as [|c rest IH]; intros self Hpar Hpy Hans.
  - done.
  - cbn [run_calls map].
    destruct (generate_samples_step (prepare_call c self))
      as (self1 & evs & r & Hgen & Hpar1 & Hpy1 & Hevs & Hdom); [done..| |].
    { intros p. apply (Hans c p). by left. }
    rewrite Hgen.
    specialize (IH self1 Hpar1 Hpy1).
    destruct (run_calls self1 rest) as [self2 evs'].
    cbn [snd] in *. rewrite compile_hashes_app, Hevs, IH.
    2:{ intros c' p Hc'. apply (Hans c' p). by right. }
    rewrite Hdom. cbn.
    destruct (call_hash c) as [h|]; [|done].
    destruct (decide (h ∈ dom (_compiled_program_dict self))) as [Hin|Hnin].
    + cbn. f_equal. set_solver.
    + done.
Qed.

Lemma cache_misses_count (cached : gset Z) (hashes : list (option Z)) h :
  length (List.filter (fun h' => bool_decide (h' = Some h))
                      (cache_misses cached hashes))
  = if decide (h ∈ cached) then 0
    else if decide (Some h ∈ hashes) then 1 else 0.
Proof.
  revert cached; induction hashes as [|[h'|] rest IH]; intros cached;
    cbn [cache_misses].
  - cbn. destruct (decide _); [done|].
    rewrite decide_False; [done|]. apply not_elem_of_nil.
  - destruct (decide (h' ∈ cached)) as [Hin|Hnin].
    + rewrite IH. destruct (decide (h ∈ cached)) as [Hc|Hc]; [done|].
      assert (Hne : h <> h') by (intros ->; done).
      destruct (decide (Some h ∈ rest)) as [Hr|Hr].
      * rewrite decide_True; [done|]. by right.
      * rewrite decide_False; [done|].
        intros Hin'. apply elem_of_cons in Hin' as [Heq|Hin']; [|done].
        congruence.
    + cbn [List.filter]. specialize (IH ({[h']} ∪ cached)).
      destruct (bool_decide_reflect (Some h' = Some h)) as [Heq|Hne].
      * injection Heq as ->. cbn [length]. rewrite IH.
        rewrite decide_True by set_solver.
        rewrite decide_False by done.
        rewrite decide_True; [done|]. by left.
      * rewrite IH.
        destruct (decide (h ∈ cached)) as [Hc|Hc].
        -- by rewrite decide_True by set_solver.
        -- rewrite decide_False.
           2:{ intros Hin. apply elem_of_union in Hin as [Hin|Hin]; [|done].
               apply elem_of_singleton in Hin. congruence. }
           destruct (decide (Some h ∈ rest)) as [Hr|Hr].
           ++ rewrite decide_True; [done|]. by right.
           ++ rewrite decide_False; [done|].
              intros Hin'. apply elem_of_cons in Hin' as [Heq|Hin']; [|done].
              congruence.
  - cbn [List.filter]. rewrite bool_decide_eq_false_2 by done. rewrite IH.
    destruct (decide (h ∈ cached)) as [Hc|Hc]; [done|].
    destruct (decide (Some h ∈ rest)) as [Hr|Hr].
    + rewrite decide_True; [done|]. by right.
    + rewrite decide_False; [done|].
      intros Hin'. apply elem_of_cons in Hin' as [Heq|Hin']; [|done].
      congruence.
Qed.

(** After the calls the cache holds a program for every circuit hash that
    it held or that a call carried. *)
Lemma run_calls_cache self calls :
  parametric_compilation self = true -> is_pyqvm self = false ->
  compiler_answers calls ->
  forall h,
    h ∈ dom (_compiled_program_dict (fst (run_calls self calls)))
    <-> h ∈ dom (_compiled_program_dict self) \/ Some h ∈ map call_hash calls.
Proof.
  revert self; induction calls as [|c rest IH]; intros self Hpar Hpy Hans h.
  - cbn. split; [by left|]. intros [Hh|Hh]; [done|].
    by apply elem_of_nil in Hh.
  - cbn [run_calls map].
    destruct (generate_samples_step (prepare_call c self))
      as (self1 & evs & r & Hgen & Hpar1 & Hpy1 & _ & Hdom); [done..| |].
    { intros p. apply (Hans c p). by left. }
    rewrite Hgen.
    specialize (IH self1 Hpar1 Hpy1).
    destruct (run_calls self1 rest) as [self2 evs'] eqn:Hrest.
    cbn [fst] in *. rewrite IH.
    2:{ intros c' p Hc'. apply (Hans c' p). by right. }
    rewrite Hdom. cbn. rewrite elem_of_cons.
    destruct (call_hash c) as [h'|].
    + rewrite elem_of_union, elem_of_singleton.
      split.
      * intros [[->|Hh]|Hh]; [right; by left|by left|right; by right].
      * intros [Hh|[Heq|Hh]]; [left; by right| |by right].
        injection Heq as ->. left. by left.
    + split.
      * intros [Hh|Hh]; [by left|right; by right].
      * intros [Hh|[Heq|Hh]]; [by left|done|by right].
Qed.

End CacheFacts.

(** C1, as amended.  On a device with parametric compilation and a machine
    that is not a pyQVM, whose compiler answers its requests, a sequence
    of [generate_samples] calls asks the compiler exactly once under a
    circuit hash that one of the calls carries and the cache does not
    hold, and never under any other hash; afterwards the cache holds a
    program for every hash that it held or that a call carried; and the
    compile requests are the same for any other sequence of calls with
    the same circuit hashes, whatever the programs and the values of the
    parameter binding table pushed by those calls. *)
Theorem compile_at_most_once {Value Executable Gate : Type}
    (self : device Value Executable Gate)
    (calls calls' : list (call Value Executable Gate)) (h : Z) :
  parametric_compilation self = true ->
  is_pyqvm self = false ->
  compiler_answers calls ->
  compiler_answers calls' ->
  map call_hash calls = map call_hash calls' ->
  compile_count h (snd (run_calls self calls))
  = (if decide (h ∈ dom (_compiled_program_dict self)) then 0
     else if decide (Some h ∈ map call_hash calls) then 1 else 0)
  /\ (h ∈ dom (_compiled_program_dict (fst (run_calls self calls)))
      <-> h ∈ dom (_compiled_program_dict self)
          \/ Some h ∈ map call_hash calls)
  /\ compile_hashes (snd (run_calls self calls))
     = compile_hashes (snd (run_calls self calls')).
Proof.
  intros Hpar Hpy Hans Hans' Hhashes. split; [|split].
  - unfold compile_count. rewrite run_calls_misses by done.
    apply cache_misses_count.
  - by apply run_calls_cache.
  - rewrite !run_calls_misses by done. by rewrite Hhashes.
Qed.

Lemma compile_at_most_once_witness :
  compile_count 11
    (snd (run_calls example_device
            [example_call 11 1; example_call 11 2; example_call 12 3;
             example_call 11 4]))
  = (if decide (11%Z ∈ dom (_compiled_program_dict example_device)) then 0
     else if decide (Some 11%Z
                     ∈ map call_hash
                         [example_call 11 1; example_call 11 2;
                          example_call 12 3; example_call 11 4])
          then 1 else 0)
  /\ (11%Z ∈ dom (_compiled_program_dict
                    (fst (run_calls example_device
                            [example_call 11 1; example_call 11 2;
                             example_call 12 3; example_call 11 4])))
      <-> 11%Z ∈ dom (_compiled_program_dict example_device)
          \/ Some 11%Z
             ∈ map call_hash
                 [example_call 11 1; example_call 11 2; example_call 12 3;
                  example_call 11 4])
  /\ compile_hashes
       (snd (run_calls example_device
               [example_call 11 1; example_call 11 2; example_call 12 3;
                example_call 11 4]))
     = compile_hashes
         (snd (run_calls example_device
                 [example_call 11 5; example_call 11 6; example_call 12 7;
                  example_call 11 8])).
Proof.
  apply compile_at_most_once.
  - reflexivity.
  - reflexivity.
  - intros c p Hc. cbn in Hc.
    destruct Hc as [<-|[<-|[<-|[<-|[]]]]]; by exists 7.
  - intros c p Hc. cbn in Hc.
    destruct Hc as [<-|[<-|[<-|[<-|[]]]]]; by exists 7.
  - reflexivity.
Defined.

(** C1, as stated, fails: when the compiler raises, nothing is stored under
    the circuit hash, and every later call under that hash asks the
    compiler again.  Three calls under the hash 11 make three compile
    requests, and the cache holds nothing. *)
Lemma failed_compilation_is_repeated :
  parametric_compilation example_device = true
  /\ is_pyqvm example_device = false
  /\ compile_count 11
       (snd (run_calls example_device
               [failing_call 11 1; failing_call 11 2; failing_call 11 3]))
     = 3
  /\ _compiled_program_dict
       (fst (run_calls example_device
               [failing_call 11 1; failing_call 11 2; failing_call 11 3]))
     = ∅.
Proof. split_and!; vm_compute; reflexivity. Qed.

(* ================================================================== *)
(** * The tensor contraction *)

(** C2.  Contracting the Pauli-X matrix with the two-qubit state
    [[1, 0, 0, 0]] gives [[0, 0, 1, 0]] on qubit 0 and [[0, 1, 0, 0]] on
    qubit 1: qubit 0 is the most significant one.  This holds over every
    semiring of scalars. *)
Theorem pauli_x_flips_the_target (R : Semiring) :
  mat_vec_product 2 (@pauli_x R) ket00 [0]
  = Ok (mk_ndarray [4] [zero; zero; one; zero])
  /\ mat_vec_product 2 (@pauli_x R) ket00 [1]
     = Ok (mk_ndarray [4] [zero; one; zero; zero]).
Proof.
  split.
  - rewrite mat_vec_product_spec; try done.
    + do 2 f_equal. cbv - [zero one add mul scalars carrier].
      by rewrite ?mul_0_l, ?mul_1_l, ?mul_0_r, ?add_0_l, ?add_0_r'.
    + repeat constructor; cbn; intuition lia.
    + repeat constructor.
  - rewrite mat_vec_product_spec; try done.
    + do 2 f_equal. cbv - [zero one add mul scalars carrier].
      by rewrite ?mul_0_l, ?mul_1_l, ?mul_0_r, ?add_0_l, ?add_0_r'.
    + repeat constructor; cbn; intuition lia.
    + repeat constructor; lia.
Qed.

(** C8.  [mat_vec_product] raises the [ValueError] that names the expected
    [2^k x 2^k] shape whenever the shape of the matrix is not [(2^k, 2^k)]
    for [k] target wires, and never raises an error of that kind when the
    shape matches. *)
Theorem dimension_mismatch (R : Scalars) (n : nat) (mat vec : ndarray R)
    (ws : list nat) :
  (shape mat <> [2 ^ length ws; 2 ^ length ws] ->
   mat_vec_product n mat vec ws
   = Raise (ValueError (dimension_message (length ws))))
  /\ (shape mat = [2 ^ length ws; 2 ^ length ws] ->
      forall k,
        mat_vec_product n mat vec ws <> Raise (ValueError (dimension_message k))).
Proof.
  split.
  - intros Hne. unfold mat_vec_product, list_eqb.
    by rewrite bool_decide_eq_false_2.
  - intros Heq k Hraise.
    assert (Hnp : numpy_only (mat_vec_product n mat vec ws)).
    { unfold mat_vec_product, list_eqb.
      rewrite bool_decide_eq_true_2 by done. cbn [negb].
      apply numpy_only_bind; [apply numpy_only_reshape|intros mat'].
      apply numpy_only_bind; [apply numpy_only_reshape|intros vec'].
      apply numpy_only_bind; [apply numpy_only_tensordot|intros tdot].
      apply numpy_only_bind; [apply numpy_only_transpose|intros smi].
      apply numpy_only_reshape. }
    rewrite Hraise in Hnp. cbn [numpy_only] in Hnp.
    by rewrite dimension_message_not_numpy in Hnp.
Qed.

(** A 4x4 matrix against a single target qubit, and the matching 2x2 one. *)
Lemma dimension_mismatch_witness :
  mat_vec_product 3 shear ramp [1]
  = Raise (ValueError (dimension_message 1))
  /\ mat_vec_product 2 (@pauli_x Z_semiring) ket00 [1]
     <> Raise (ValueError (dimension_message 1)).
Proof.
  split.
  - apply (proj1 (dimension_mismatch Z_semiring 3 shear ramp [1])).
    cbn. discriminate.
  - apply (proj2 (dimension_mismatch Z_semiring 2 pauli_x ket00 [1])).
    reflexivity.
Defined.

(* ================================================================== *)
(** * The builder on the example device *)

(** C4, as stated, fails: the build of an unsupported operation followed by
    a [BasisState] fails with the lookup error of the first operation, and
    the build of a rotation followed by a [BasisState] on a wire that the
    device does not have fails with the [WireError] of [map_wires]; neither
    is the state-preparation error. *)
Lemma state_preparation_after_unsupported :
  snd (apply same_wires unsupported_then_basis_state [] example_device)
  = Raise (KeyError "Foo")
  /\ is_DeviceError
       (snd (apply same_wires unsupported_then_basis_state [] example_device))
     = false
  /\ snd (apply same_wires rotation_then_stray_basis_state [] example_device)
     = Raise (WireError wire_message)
  /\ is_DeviceError
       (snd (apply same_wires rotation_then_stray_basis_state [] example_device))
     = false.
Proof. split_and!; vm_compute; reflexivity. Qed.

Lemma state_preparation_order_witness :
  (exists self' msg,
     apply same_wires rotation_then_basis_state [] example_device
     = (self', Raise (DeviceError msg)))
  /\ is_DeviceError
       (snd (apply same_wires basis_state_then_rotation [] example_device))
     = false
  /\ (exists self',
        apply same_wires rotation_then_stray_basis_state [] example_device
        = (self', Raise (WireError wire_message))).
Proof.
  split; [|split].
  - apply (proj1 (state_preparation_order same_wires example_device
                    rotation_then_basis_state [] 1
                    (mk_operation "BasisState" [plain 1 1] [0; 1])
                    eq_refl eq_refl)).
    + lia.
    + intros [|[|j']] o' Hj' Ho'; try lia.
      injection Ho' as <-. by exists "RX".
    + intros [|[|[|j']]] o' Hj' Ho'; try lia.
      * injection Ho' as <-. by exists [0].
      * injection Ho' as <-. by exists [0; 1].
  - apply (proj1 (proj2 (state_preparation_order same_wires example_device
                           basis_state_then_rotation [] 0
                           (mk_operation "BasisState" [plain 1 1] [0; 1])
                           eq_refl eq_refl))).
    + reflexivity.
    + intros [|[|[|j']]] o' Hj' Ho'; try lia; try done.
      by injection Ho' as <-.
  - apply (proj2 (proj2 (state_preparation_order same_wires example_device
                           rotation_then_stray_basis_state [] 1
                           (mk_operation "BasisState" [plain 1 1] [0; 5])
                           eq_refl eq_refl))).
    + lia.
    + intros [|[|j']] o' Hj' Ho'; try lia.
      injection Ho' as <-. split; [by exists [0]|]. split; [done|].
      by exists "RX".
    + reflexivity.
Defined.



Lemma handles_follow_identity_witness :
  exists r r',
    argument_at
      (mk_Program
         [Apply "RX" [ArgRef (mk_ref "theta5" 0)] [0];
          Apply "RX" [ArgRef (mk_ref "theta5" 0)] [1];
          Apply "RX" [ArgRef (mk_ref "theta9" 0)] [0];
          Apply "RX" [ArgLit (plain 4 3)] [1]] ∅ 1) 0 0
    = Some (ArgRef r)
    /\ argument_at
         (mk_Program
            [Apply "RX" [ArgRef (mk_ref "theta5" 0)] [0];
             Apply "RX" [ArgRef (mk_ref "theta5" 0)] [1];
             Apply "RX" [ArgRef (mk_ref "theta9" 0)] [0];
             Apply "RX" [ArgLit (plain 4 3)] [1]] ∅ 1) 2 0
       = Some (ArgRef r')
    /\ _parameter_reference_map
         (fst (apply_parametric_operations same_wires shared_parameter_circuit
                 example_device)) !! parameter_string (trainable 5 3)
       = Some r
    /\ _parameter_reference_map
         (fst (apply_parametric_operations same_wires shared_parameter_circuit
                 example_device)) !! parameter_string (trainable 9 3)
       = Some r'
    /\ (r = r' <-> py_id (trainable 5 3) = py_id (trainable 9 3)).
Proof.
  apply (handles_follow_identity same_wires example_device
           shared_parameter_circuit _ _ 0 0
           (mk_operation "RX" [trainable 5 3] [0]) (trainable 5 3) 2 0
           (mk_operation "RX" [trainable 9 3] [0]) (trainable 9 3)).
  - intros s r Hs. vm_compute in Hs. discriminate.
  - vm_compute. reflexivity.
  - reflexivity.
  - reflexivity.
  - reflexivity.
  - discriminate.
  - reflexivity.
  - reflexivity.
  - reflexivity.
  - discriminate.
Defined.



(* ================================================================== *)
(** * Sample extraction, reset and construction *)

(** C9.  [extract_samples] returns the empty sequence when the readout data
    of the result has no register named "ro", and the contents of that
    register when it has one; it is a total function, so it never fails. *)
Theorem extract_samples_readout (results : QAMExecutionResult) :
  (readout_data results !! "ro" = None -> extract_samples results = [])
  /\ (forall ro, readout_data results !! "ro" = Some ro ->
        extract_samples results = ro).
Proof.
  unfold extract_samples, samples. split.
  - intros Hro. by rewrite Hro.
  - intros ro Hro. by rewrite Hro.
Qed.

Lemma extract_samples_readout_witness :
  extract_samples (mk_QAMExecutionResult (<["other" := [[1]]]> ∅)) = []
  /\ extract_samples (mk_QAMExecutionResult (<["ro" := [[0; 1]; [1; 1]]]> ∅))
     = [[0; 1]; [1; 1]].
Proof.
  split.
  - apply (proj1 (extract_samples_readout _)). reflexivity.
  - apply (proj2 (extract_samples_readout _)). reflexivity.
Defined.

(** [reset] clears the circuit hash and the binding table and keeps the
    compiled programs that the base class leaves in place. *)
Lemma reset_keeps_cache {Value Executable Gate : Type}
    (super_reset : device Value Executable Gate -> device Value Executable Gate)
    (self : device Value Executable Gate) :
  _compiled_program_dict (reset super_reset self)
  = _compiled_program_dict (super_reset self)
  /\ _compiled_program (reset super_reset self)
     = _compiled_program (super_reset self)
  /\ circuit_hash (reset super_reset self) = None.
Proof.
  unfold reset, circuit_hash.
  destruct (parametric_compilation (super_reset self)) eqn:Hpar; cbn;
    by rewrite ?Hpar.
Qed.

(** C10.  Constructing a [QVMDevice] with [shots=None] fails with the
    [ValueError] saying that the device cannot be used for analytic
    computations, whatever the other arguments, and before the base-class
    constructor runs: no request is sent to a machine. *)
Theorem QVMDevice_init_rejects_analytic
    {Value Executable Gate Wire Request Kwargs DeviceSpec : Type}
    (super_init : DeviceSpec -> option (list Wire) -> shots_arg -> bool ->
                  bool -> Kwargs ->
                  list Request * result (device Value Executable Gate))
    (device_ : DeviceSpec) (wires : option (list Wire)) (noisy : bool)
    (kwargs : Kwargs) :
  QVMDevice_init super_init device_ wires ShotsNone noisy kwargs
  = ([], Raise (ValueError
                  "QVM device cannot be used for analytic computations.")).
Proof. reflexivity. Qed.

(* ================================================================== *)
(** * More about the tensor contraction *)

Section ContractionFacts.
Context {R : Semiring}.
Implicit Types (a mat vec : ndarray R).

Lemma index_of_app_r x l1 l2 :
  ~ In x l1 -> index_of x (l1 ++ l2) = length l1 + index_of x l2.
Proof.
  induction l1 as [|y l1 IH]; simpl; [done|].
  intros Hnin. destruct (Nat.eqb_spec x y) as [->|_]; [tauto|].
  rewrite IH; tauto.
Qed.

Lemma with_bits_ungather n ws c i :
  List.NoDup ws -> Forall (fun w => w < n) ws -> length c = length ws ->
  ungather (ws ++ unused_idxs n ws) n (c ++ gather (unused_idxs n ws) i)
  = with_bits n ws c i.
Proof.
  intros Hnd Hlt Hc. unfold ungather, with_bits.
  apply map_ext_in. intros q Hq. apply in_seq in Hq.
  destruct (mem q ws) eqn:Hm.
  - apply mem_In in Hm. rewrite index_of_app_l by done.
    apply app_nth1. rewrite Hc. by apply index_of_lt.
  - apply mem_false in Hm. rewrite index_of_app_r by done.
    rewrite <- Hc, app_nth2_plus.
    assert (Hin : In q (unused_idxs n ws)).
    { apply filter_In. split; [apply in_seq; lia|].
      by apply negb_true_iff, mem_false. }
    unfold gather.
    rewrite (nth_map_lt _ _ _ _ 0) by (by apply index_of_lt).
    by rewrite nth_index_of.
Qed.

Lemma contract_at_sum n ws mat vec i :
  shape mat = [2 ^ length ws; 2 ^ length ws] ->
  List.NoDup ws -> Forall (fun w => w < n) ws -> bits n i ->
  contract_at n ws mat vec i
  = rsum (map (fun c =>
            mul (get mat [ravel (repeat 2 (length ws)) (gather ws i);
                          ravel (repeat 2 (length ws)) c])
                (amplitude n vec (with_bits n ws c i)))
          (indices (repeat 2 (length ws)))).
Proof.
  intros Hmat Hnd Hlt Hi. unfold contract_at. f_equal.
  apply map_ext_in. intros c Hc. apply in_indices_bits in Hc.
  rewrite matrix_entry by (done || by apply (bits_gather n)).
  unfold amplitude.
  by rewrite with_bits_ungather by (done || by apply bits_length).
Qed.

Lemma amplitude_map n (f : list nat -> R) i :
  bits n i ->
  amplitude n (mk_ndarray [2 ^ n] (map f (indices (repeat 2 n)))) i = f i.
Proof.
  intros Hi. unfold amplitude. cbn [data].
  rewrite (nth_map_lt _ _ _ _ [])
    by (rewrite length_indices; by apply ravel_lt).
  by rewrite nth_indices.
Qed.

(** Contracting with [B] and then with [A] is contracting with the
    product [A B]. *)
Lemma contract_compose n (A B AB v : ndarray R) ws i :
  shape A = [2 ^ length ws; 2 ^ length ws] ->
  shape B = [2 ^ length ws; 2 ^ length ws] ->
  dot A B = Ok AB ->
  List.NoDup ws -> Forall (fun w => w < n) ws ->
  bits n i ->
  contract_at n ws A
    (mk_ndarray [2 ^ n] (map (contract_at n ws B v) (indices (repeat 2 n)))) i
  = contract_at n ws AB v i.
Proof.
  intros HA HB Hdot Hnd Hlt Hi.
  pose proof (perm_wires n ws Hnd Hlt) as Hperm.
  pose proof (length_unused n ws Hnd Hlt) as Hlu.
  rewrite (dot_ok A B _ _ _ HA HB) in Hdot. injection Hdot as <-.
  set (k := length ws) in *.
  set (un := unused_idxs n ws) in *.
  set (V := fun d => nth (ravel (repeat 2 n) (ungather (ws ++ un) n (d ++ gather un i)))
                         (data v) zero).
  assert (Hgw : bits k (gather ws i)) by (by apply (bits_gather n)).
  assert (Hgu : bits (n - k) (gather un i))
    by (rewrite <- Hlu; by apply (bits_gather n)).
  assert (Hcu : forall c, bits k c -> bits n (c ++ gather un i)).
  { intros c Hc. replace n with (k + (n - k)).
    - by apply bits_app.
    - pose proof (wires_le n ws Hnd Hlt). unfold k. lia. }
  assert (Hinner : forall c, bits k c ->
    nth (ravel (repeat 2 n) (ungather (ws ++ un) n (c ++ gather un i)))
        (map (contract_at n ws B v) (indices (repeat 2 n))) zero
    = rsum (map (fun d =>
              mul (nth (ravel (repeat 2 (k * 2)) (c ++ d)) (data B) zero) (V d))
            (indices (repeat 2 k)))).
  { intros c Hc.
    assert (Hj : bits n (ungather (ws ++ un) n (c ++ gather un i)))
      by (eapply bits_ungather; by apply Hcu).
    rewrite (nth_map_lt _ _ _ _ [])
      by (rewrite length_indices; by apply ravel_lt).
    rewrite nth_indices by done.
    unfold contract_at. fold k. fold un.
    assert (Hg : gather (ws ++ un) (ungather (ws ++ un) n (c ++ gather un i))
                 = c ++ gather un i).
    { apply gather_ungather; [done|]. by apply bits_length, Hcu. }
    rewrite gather_app in Hg.
    apply app_inj_1 in Hg as [Hg1 Hg2];
      [|by rewrite length_gather, (bits_length k c)].
    by rewrite Hg1, Hg2. }
  unfold contract_at at 1. fold k. fold un. cbn [data].
  rewrite (map_ext_in _ (fun c =>
             rsum (map (fun d =>
               mul (mul (nth (ravel (repeat 2 (k * 2)) (gather ws i ++ c)) (data A) zero)
                        (nth (ravel (repeat 2 (k * 2)) (c ++ d)) (data B) zero))
                   (V d)) (indices (repeat 2 k))))).
  2:{ intros c Hc. apply in_indices_bits in Hc.
      rewrite Hinner by done. rewrite rsum_mul_l.
      f_equal. apply map_ext. intros d. apply mul_assoc. }
  rewrite rsum_swap.
  unfold contract_at. fold k. fold un. f_equal.
  apply map_ext_in. intros d Hd. apply in_indices_bits in Hd.
  rewrite <- rsum_mul_r. f_equal.
  rewrite (matrix_entry (build _ _) k) by done.
  rewrite get_build
    by (repeat constructor; rewrite <- (prod_list_repeat2 k); by apply ravel_lt).
  cbn [nth].
  rewrite <- (prod_list_repeat2 k) at 1.
  rewrite <- ravel_indices, map_map.
  f_equal. apply map_ext_in. intros c Hc. apply in_indices_bits in Hc.
  by rewrite !matrix_entry.
Qed.

(** Contracting with the identity matrix reads the state. *)
Lemma contract_identity n (v : ndarray R) ws i :
  List.NoDup ws -> Forall (fun w => w < n) ws -> bits n i ->
  contract_at n ws (eye (2 ^ length ws)) v i
  = nth (ravel (repeat 2 n) i) (data v) zero.
Proof.
  intros Hnd Hlt Hi.
  pose proof (perm_wires n ws Hnd Hlt) as Hperm.
  set (k := length ws) in *.
  set (un := unused_idxs n ws) in *.
  set (V := fun d => nth (ravel (repeat 2 n) (ungather (ws ++ un) n (d ++ gather un i)))
                         (data v) zero).
  assert (Hgw : bits k (gather ws i)) by (by apply (bits_gather n)).
  unfold contract_at. fold k. fold un.
  rewrite (map_ext_in _ (fun d =>
             mul (if Nat.eqb (ravel (repeat 2 k) (gather ws i))
                             (ravel (repeat 2 k) d)
                  then one else zero) (V d))).
  2:{ intros d Hd. apply in_indices_bits in Hd. f_equal.
      rewrite (matrix_entry (eye _) k) by done.
      unfold eye. rewrite get_build; [done|].
      repeat constructor; rewrite <- (prod_list_repeat2 k); by apply ravel_lt. }
  rewrite (rsum_single _ _ (gather ws i)).
  - rewrite Nat.eqb_refl, mul_1_l. unfold V.
    rewrite <- gather_app, ungather_gather; [done..|by apply bits_length].
  - apply NoDup_indices.
  - by apply in_indices_bits.
  - intros d Hd Hne. apply in_indices_bits in Hd.
    destruct (Nat.eqb_spec (ravel (repeat 2 k) (gather ws i))
                           (ravel (repeat 2 k) d)) as [Heq|_].
    + exfalso. apply Hne. symmetry. by apply (ravel_inj (repeat 2 k)).
    + apply mul_0_l.
Qed.

End ContractionFacts.

Section ContractionErrors.
Context {R : Scalars}.
Implicit Types (a mat vec : ndarray R).

Lemma axes_equal_out_of_range m n axes_a axes_b :
  length axes_a = length axes_b ->
  Forall (fun ax => ax < m) axes_a -> Exists (fun w => n <= w) axes_b ->
  axes_equal (repeat 2 m) (repeat 2 n) axes_a axes_b
  = Raise (IndexError "tuple index out of range").
Proof.
  intros Hlen Ha; revert axes_b Hlen.
  induction Ha as [|ax axes_a Hax Ha IH]; intros [|bx axes_b] Hlen Hb;
    cbn in *; try done.
  - by apply Exists_nil in Hb.
  - rewrite nth_error_repeat by lia.
    destruct (Nat.lt_ge_cases bx n) as [Hlt|Hge].
    + rewrite nth_error_repeat by lia. cbn.
      apply IH; [lia|]. apply Exists_cons in Hb as [Hb|Hb]; [lia|done].
    + by rewrite (proj2 (nth_error_None _ _)) by (by rewrite repeat_length).
Qed.

Lemma repeated_wires_length n ws :
  Forall (fun w => w < n) ws -> ~ List.NoDup ws ->
  length (ws ++ unused_idxs n ws) <> n.
Proof.
  intros Hlt Hdup Hlen. apply Hdup.
  apply (NoDup_app_remove_r _ (unused_idxs n ws)).
  apply (NoDup_incl_NoDup (l := seq 0 n)).
  - apply seq_NoDup.
  - rewrite length_seq. lia.
  - intros x Hx. apply in_seq in Hx. apply in_app_iff.
    destruct (in_dec Nat.eq_dec x ws) as [Hin|Hnin]; [by left|right].
    apply filter_In. split; [apply in_seq; lia|].
    by apply negb_true_iff, mem_false.
Qed.

End ContractionErrors.

(** C3.  In exact arithmetic, for a state vector of length [2^n], a
    [2^k x 2^k] matrix [M] with inverse [Minv] and [k] distinct target
    qubits below [n], in any order: contracting with [M] gives the state
    whose amplitude at each register, read in the order of the physical
    qubits, is the row of [M] selected by the target bits against the
    amplitudes of the state, and contracting that with [Minv] gives back
    the state vector; and [argsort] inverts the permutation made of the
    target qubits followed by the untouched qubits in ascending order. *)
Theorem contraction_round_trip (R : Semiring) (n : nat)
    (M Minv v : ndarray R) (ws : list nat) :
  shape M = [2 ^ length ws; 2 ^ length ws] ->
  shape Minv = [2 ^ length ws; 2 ^ length ws] ->
  dot Minv M = Ok (eye (2 ^ length ws)) ->
  shape v = [2 ^ n] ->
  wf v ->
  List.NoDup ws ->
  Forall (fun w => w < n) ws ->
  (exists out,
     mat_vec_product n M v ws = Ok out
     /\ (forall i, bits n i ->
           amplitude n out i
           = rsum (map (fun c =>
                     mul (get M [ravel (repeat 2 (length ws)) (gather ws i);
                                 ravel (repeat 2 (length ws)) c])
                         (amplitude n v (with_bits n ws c i)))
                   (indices (repeat 2 (length ws)))))
     /\ mat_vec_product n Minv out ws = Ok v)
  /\ (forall q, q < n ->
        nth (nth q (ws ++ unused_idxs n ws) 0)
            (argsort (ws ++ unused_idxs n ws)) 0 = q).
Proof.
  intros HM HMinv Hinv Hv Hwf Hnd Hlt. split.
  - eexists. split; [|split].
    + apply mat_vec_product_spec; try done.
      rewrite Hv. cbn. lia.
    + intros i Hi. rewrite amplitude_map by done. by apply contract_at_sum.
    + rewrite mat_vec_product_spec; try done; [|cbn; lia].
      destruct v as [sv dv]. cbn in Hv, Hwf. subst sv.
      do 2 f_equal.
      rewrite <- (map_get_indices (mk_ndarray (repeat 2 n) dv)) at 2.
      * cbn [shape]. apply map_ext_in. intros i Hi.
        apply in_indices_bits in Hi.
        by rewrite (contract_inverse n M Minv (mk_ndarray [2 ^ n] dv) ws i).
      * unfold wf in *. cbn in *. rewrite prod_list_repeat2. lia.
  - intros q Hq. apply (argsort_inverse _ n); [|done].
    by apply perm_wires.
Qed.

Lemma contraction_round_trip_witness :
  (exists out,
     mat_vec_product 3 shear ramp [2; 0] = Ok out
     /\ (forall i, bits 3 i ->
           amplitude 3 out i
           = rsum (map (fun c =>
                     mul (get shear [ravel (repeat 2 (length [2; 0])) (gather [2; 0] i);
                                     ravel (repeat 2 (length [2; 0])) c])
                         (amplitude 3 ramp (with_bits 3 [2; 0] c i)))
                   (indices (repeat 2 (length [2; 0])))))
     /\ mat_vec_product 3 shear_inv out [2; 0] = Ok ramp)
  /\ (forall q, q < 3 ->
        nth (nth q ([2; 0] ++ unused_idxs 3 [2; 0]) 0)
            (argsort ([2; 0] ++ unused_idxs 3 [2; 0])) 0 = q).
Proof.
  apply (contraction_round_trip Z_semiring 3 shear shear_inv ramp [2; 0]).
  - reflexivity.
  - reflexivity.
  - vm_compute. reflexivity.
  - reflexivity.
  - reflexivity.
  - repeat constructor; cbn; intuition lia.
  - repeat constructor; lia.
Defined.

(** In binary64 the round trip loses the state.  [steep_inv] is the
    inverse of [steep], the product [np.dot(steep_inv, steep)] being the
    identity matrix exactly, and every other premise holds; contracting
    [steep] with the state [[1, 1]] gives [[1e16, 1]], the sum [1 + 1e16]
    rounding to [1e16], and contracting [steep_inv] with that gives
    [[0, 1]]. *)
Lemma round_trip_fails_in_binary64 :
  shape steep = [2 ^ length [0]; 2 ^ length [0]]
  /\ shape steep_inv = [2 ^ length [0]; 2 ^ length [0]]
  /\ dot steep_inv steep = Ok (eye (2 ^ length [0]))
  /\ shape ones = [2 ^ 1]
  /\ wf ones
  /\ List.NoDup [0]
  /\ Forall (fun w => w < 1) [0]
  /\ mat_vec_product 1 steep ones [0]
     = Ok (@mk_ndarray float64 [2] [1e16; 1]%float)
  /\ mat_vec_product 1 steep_inv (@mk_ndarray float64 [2] [1e16; 1]%float) [0]
     = Ok (@mk_ndarray float64 [2] [0; 1]%float)
  /\ @mk_ndarray float64 [2] [0; 1]%float <> ones.
Proof.
  split_and!.
  - reflexivity.
  - reflexivity.
  - vm_compute. reflexivity.
  - reflexivity.
  - reflexivity.
  - repeat constructor; cbn; intuition lia.
  - repeat constructor; lia.
  - vm_compute. reflexivity.
  - vm_compute. reflexivity.
  - intros H.
    apply (f_equal (fun a : ndarray float64 =>
                      PrimFloat.eqb (nth 0 (data a) 0%float) 1%float)) in H.
    vm_compute in H. discriminate H.
Qed.

(** X1.  For a [2^k x 2^k] matrix, [k] distinct target qubits below [n] and a
    state of [2^n] amplitudes, [mat_vec_product] returns a well-formed
    vector of [2^n] amplitudes, and its amplitude at the register [i] is the
    sum, over the [k]-bit columns [c], of the matrix entry in the row read
    from [i] at the target qubits and the column [c], times the amplitude
    of the state at [i] with its target bits replaced by [c].  Qubit 0 is
    the most significant bit of a register. *)
Theorem mat_vec_product_amplitudes (R : Semiring) (n : nat)
    (mat vec : ndarray R) (ws : list nat) :
  shape mat = [2 ^ length ws; 2 ^ length ws] ->
  prod_list (shape vec) = 2 ^ n ->
  List.NoDup ws ->
  Forall (fun w => w < n) ws ->
  exists out,
    mat_vec_product n mat vec ws = Ok out
    /\ shape out = [2 ^ n]
    /\ wf out
    /\ forall i, bits n i ->
         amplitude n out i
         = rsum (map (fun c =>
                   mul (get mat [ravel (repeat 2 (length ws)) (gather ws i);
                                 ravel (repeat 2 (length ws)) c])
                       (amplitude n vec (with_bits n ws c i)))
                 (indices (repeat 2 (length ws)))).
Proof.
  intros Hmat Hvec Hnd Hlt.
  rewrite mat_vec_product_spec by done.
  eexists. split; [reflexivity|]. split; [reflexivity|]. split.
  - unfold wf. cbn. rewrite length_map, length_indices, prod_list_repeat2. lia.
  - intros i Hi. rewrite amplitude_map by done. by apply contract_at_sum.
Qed.

Lemma mat_vec_product_amplitudes_witness :
  exists out,
    mat_vec_product 3 shear ramp [2; 0] = Ok out
    /\ shape out = [2 ^ 3]
    /\ wf out
    /\ forall i, bits 3 i ->
         amplitude 3 out i
         = rsum (map (fun c =>
                   mul (get shear [ravel (repeat 2 (length [2; 0])) (gather [2; 0] i);
                                   ravel (repeat 2 (length [2; 0])) c])
                       (amplitude 3 ramp (with_bits 3 [2; 0] c i)))
                 (indices (repeat 2 (length [2; 0])))).
Proof.
  apply (mat_vec_product_amplitudes Z_semiring 3 shear ramp [2; 0]).
  - reflexivity.
  - reflexivity.
  - repeat constructor; cbn; intuition lia.
  - repeat constructor; lia.
Defined.

(** X2.  Applying [B] and then [A] to the same distinct target qubits gives
    what applying the matrix product [np.dot(A, B)] gives. *)
Theorem mat_vec_product_compose (R : Semiring) (n : nat)
    (A B v : ndarray R) (ws : list nat) :
  shape A = [2 ^ length ws; 2 ^ length ws] ->
  shape B = [2 ^ length ws; 2 ^ length ws] ->
  prod_list (shape v) = 2 ^ n ->
  List.NoDup ws ->
  Forall (fun w => w < n) ws ->
  exists AB mid out,
    dot A B = Ok AB
    /\ mat_vec_product n B v ws = Ok mid
    /\ mat_vec_product n A mid ws = Ok out
    /\ mat_vec_product n AB v ws = Ok out.
Proof.
  intros HA HB Hv Hnd Hlt.
  rewrite (dot_ok A B _ _ _ HA HB).
  eexists _, _, _. split; [reflexivity|].
  split; [by apply mat_vec_product_spec|].
  rewrite !mat_vec_product_spec; try done; [|cbn; lia].
  split; [reflexivity|].
  do 2 f_equal. apply map_ext_in. intros i Hi. apply in_indices_bits in Hi.
  symmetry. apply contract_compose; try done.
  by apply dot_ok.
Qed.

Lemma mat_vec_product_compose_witness :
  exists AB mid out,
    dot shear_inv shear = Ok AB
    /\ mat_vec_product 3 shear ramp [2; 0] = Ok mid
    /\ mat_vec_product 3 shear_inv mid [2; 0] = Ok out
    /\ mat_vec_product 3 AB ramp [2; 0] = Ok out.
Proof.
  apply (mat_vec_product_compose Z_semiring 3 shear_inv shear ramp [2; 0]).
  - reflexivity.
  - reflexivity.
  - reflexivity.
  - repeat constructor; cbn; intuition lia.
  - repeat constructor; lia.
Defined.

(** X3.  The identity matrix, on any distinct target qubits below [n] and in
    any order, gives back the state vector. *)
Theorem mat_vec_product_identity (R : Semiring) (n : nat) (v : ndarray R)
    (ws : list nat) :
  shape v = [2 ^ n] ->
  wf v ->
  List.NoDup ws ->
  Forall (fun w => w < n) ws ->
  mat_vec_product n (eye (2 ^ length ws)) v ws = Ok v.
Proof.
  intros Hv Hwf Hnd Hlt.
  rewrite mat_vec_product_spec; try done; [|rewrite Hv; cbn; lia].
  destruct v as [sv dv]. cbn in Hv, Hwf. subst sv.
  do 2 f_equal.
  rewrite <- (map_get_indices (mk_ndarray (repeat 2 n) dv)) at 2.
  - cbn [shape]. apply map_ext_in. intros i Hi.
    apply in_indices_bits in Hi.
    by rewrite (contract_identity n (mk_ndarray [2 ^ n] dv) ws i).
  - unfold wf in *. cbn in *. rewrite prod_list_repeat2. lia.
Qed.

Lemma mat_vec_product_identity_witness :
  mat_vec_product 3 (eye (2 ^ length [2; 0])) ramp [2; 0] = Ok ramp.
Proof.
  apply (mat_vec_product_identity Z_semiring 3 ramp [2; 0]).
  - reflexivity.
  - reflexivity.
  - repeat constructor; cbn; intuition lia.
  - repeat constructor; lia.
Defined.

(** X4.  Whenever [mat_vec_product] returns, what it returns is a flat,
    well-formed vector of [2^n] entries, [n] being the number of wires of
    the device: whatever the arguments, no other shape comes out. *)
Theorem mat_vec_product_result_shape (R : Scalars) (n : nat)
    (mat vec out : ndarray R) (ws : list nat) :
  mat_vec_product n mat vec ws = Ok out ->
  shape out = [2 ^ n] /\ wf out.
Proof.
  unfold mat_vec_product.
  destruct (negb _); [done|].
  destruct (reshape mat _) as [mat'|]; [|done]. cbn [rbind].
  destruct (reshape vec _) as [vec'|]; [|done]. cbn [rbind].
  destruct (tensordot _ _ _ _) as [tdot|]; [|done]. cbn [rbind].
  set (inv_perm := argsort _).
  unfold transpose.
  destruct (negb _); [done|]. destruct (negb _); [done|].
  destruct (negb _); [done|]. cbn [rbind].
  unfold reshape.
  destruct (Nat.eqb_spec (prod_list [2 ^ n]) (prod_list (shape (build
    (map (fun ax => nth ax (shape tdot) 0) inv_perm)
    (fun i => get tdot (map (fun p => nth (index_of p inv_perm) i 0)
                           (seq 0 (length (shape tdot))))))))) as [Heq|]; [|done].
  intros [= <-]. split; [done|].
  unfold wf. cbn [shape data build] in *.
  by rewrite length_map, length_indices.
Qed.

Lemma mat_vec_product_result_shape_witness :
  shape (@mk_ndarray Z_semiring [4] [0; 0; 1; 0]%Z) = [2 ^ 2]
  /\ wf (@mk_ndarray Z_semiring [4] [0; 0; 1; 0]%Z).
Proof.
  apply (mat_vec_product_result_shape Z_semiring 2 pauli_x ket00 _ [0]).
  vm_compute. reflexivity.
Defined.

(** X5.  With a matrix of the right shape, a state whose number of entries
    is not [2^n] makes [mat_vec_product] fail with the [ValueError] of
    numpy's [reshape] (the model keeps the head of its message), not with
    the message about the shape of the matrix. *)
Theorem state_size_mismatch (R : Scalars) (n : nat)
    (mat vec : ndarray R) (ws : list nat) :
  shape mat = [2 ^ length ws; 2 ^ length ws] ->
  prod_list (shape vec) <> 2 ^ n ->
  mat_vec_product n mat vec ws = Raise (ValueError "cannot reshape array").
Proof.
  intros Hmat Hvec. unfold mat_vec_product, list_eqb.
  rewrite bool_decide_eq_true_2 by done. cbn [negb].
  rewrite reshape_ok
    by (rewrite Hmat, prod_list_repeat2, pow2_double; simpl; lia).
  cbn [rbind]. unfold reshape at 1.
  rewrite prod_list_repeat2.
  destruct (Nat.eqb_spec (2 ^ n) (prod_list (shape vec))); [congruence|done].
Qed.

Lemma state_size_mismatch_witness :
  mat_vec_product 2 (@pauli_x Z_semiring) ramp [0]
  = Raise (ValueError "cannot reshape array").
Proof.
  apply (state_size_mismatch Z_semiring 2 pauli_x ramp [0]).
  - reflexivity.
  - cbn. lia.
Defined.

(** X6.  With a matrix of the right shape and a state of [2^n] entries, a
    target label that is not below [n] makes [mat_vec_product] fail with
    [IndexError] "tuple index out of range", raised where [tensordot] reads
    the dimensions of the contracted axes. *)
Theorem wire_out_of_range (R : Scalars) (n : nat)
    (mat vec : ndarray R) (ws : list nat) :
  shape mat = [2 ^ length ws; 2 ^ length ws] ->
  prod_list (shape vec) = 2 ^ n ->
  Exists (fun w => n <= w) ws ->
  mat_vec_product n mat vec ws
  = Raise (IndexError "tuple index out of range").
Proof.
  intros Hmat Hvec Hout. unfold mat_vec_product, list_eqb.
  rewrite bool_decide_eq_true_2 by done. cbn [negb].
  rewrite reshape_ok
    by (rewrite Hmat, prod_list_repeat2, pow2_double; simpl; lia).
  cbn [rbind].
  rewrite reshape_ok by (by rewrite Hvec, prod_list_repeat2).
  cbn [rbind fst snd].
  unfold tensordot. cbn [shape].
  rewrite length_seq, Nat.eqb_refl.
  rewrite axes_equal_out_of_range; [done|by rewrite length_seq| |done].
  apply List.Forall_forall. intros x Hx. apply in_seq in Hx. lia.
Qed.

Lemma wire_out_of_range_witness :
  mat_vec_product 2 (@pauli_x Z_semiring) ket00 [2]
  = Raise (IndexError "tuple index out of range").
Proof.
  apply (wire_out_of_range Z_semiring 2 pauli_x ket00 [2]).
  - reflexivity.
  - reflexivity.
  - constructor. lia.
Defined.

(** X7.  With a matrix of the right shape and a state of [2^n] entries,
    target labels below [n] of which one is repeated make [mat_vec_product]
    fail with [ValueError] "axes don't match array", raised by the
    [transpose] inside [tensordot]. *)
Theorem repeated_wire (R : Scalars) (n : nat)
    (mat vec : ndarray R) (ws : list nat) :
  shape mat = [2 ^ length ws; 2 ^ length ws] ->
  prod_list (shape vec) = 2 ^ n ->
  Forall (fun w => w < n) ws ->
  ~ List.NoDup ws ->
  mat_vec_product n mat vec ws = Raise (ValueError "axes don't match array").
Proof.
  intros Hmat Hvec Hlt Hdup. unfold mat_vec_product, list_eqb.
  rewrite bool_decide_eq_true_2 by done. cbn [negb].
  rewrite reshape_ok
    by (rewrite Hmat, prod_list_repeat2, pow2_double; simpl; lia).
  cbn [rbind].
  rewrite reshape_ok by (by rewrite Hvec, prod_list_repeat2).
  cbn [rbind fst snd].
  set (k := length ws).
  unfold tensordot. cbn [shape]. rewrite !repeat_length.
  rewrite length_seq, Nat.eqb_refl.
  rewrite axes_equal_repeat2; [|by rewrite length_seq| |done].
  2:{ apply List.Forall_forall. intros x Hx. apply in_seq in Hx. lia. }
  cbn [rbind negb].
  rewrite notin_trailing. fold (unused_idxs n ws).
  assert (E5 : seq 0 k ++ seq k k = seq 0 (k * 2)).
  { replace (k * 2) with (k + k) by lia. by rewrite seq_app. }
  rewrite E5.
  rewrite (transpose_bits _ (k * 2)) by done. cbn [rbind].
  assert (E1 : map (fun ax => nth ax (repeat 2 (k * 2)) 0) (seq k k)
               = repeat 2 k).
  { rewrite (map_nth_repeat2 (k * 2)), length_seq; [done|].
    apply List.Forall_forall. intros x Hx. apply in_seq in Hx. lia. }
  assert (E3 : map (fun ax => nth ax (repeat 2 (k * 2)) 0) (seq 0 k)
               = repeat 2 k).
  { rewrite (map_nth_repeat2 (k * 2)), length_seq; [done|].
    apply List.Forall_forall. intros x Hx. apply in_seq in Hx. lia. }
  rewrite E1, E3.
  rewrite reshape_ok
    by (cbn [build shape prod_list fold_right];
        rewrite !prod_list_repeat2, pow2_double; lia).
  cbn [rbind].
  unfold transpose at 1. cbn [shape]. rewrite repeat_length.
  destruct (Nat.eqb_spec (length (ws ++ unused_idxs n ws)) n) as [Heq|_];
    [|done].
  by apply repeated_wires_length in Heq.
Qed.

Lemma repeated_wire_witness :
  mat_vec_product 3 shear ramp [1; 1]
  = Raise (ValueError "axes don't match array").
Proof.
  apply (repeated_wire Z_semiring 3 shear ramp [1; 1]).
  - reflexivity.
  - reflexivity.
  - repeat constructor; lia.
  - intros Hnd. inversion Hnd as [|x l Hnin _]; subst. apply Hnin. by left.
Defined.

(** X8.  With no target wire and a [1 x 1] matrix, [mat_vec_product]
    multiplies every amplitude of the state by the entry of the matrix. *)
Theorem no_target_wires (R : Semiring) (n : nat) (mat vec : ndarray R) :
  shape mat = [1; 1] ->
  shape vec = [2 ^ n] ->
  wf vec ->
  mat_vec_product n mat vec []
  = Ok (mk_ndarray [2 ^ n] (map (mul (get mat [0; 0])) (data vec))).
Proof.
  intros Hmat Hvec Hwf.
  rewrite mat_vec_product_spec; try done; [|rewrite Hvec; cbn; lia|constructor].
  do 2 f_equal.
  assert (Hd : data vec = map (amplitude n vec) (indices (repeat 2 n))).
  { unfold amplitude.
    rewrite <- (map_map (ravel _) (fun r => nth r (data vec) zero)).
    rewrite ravel_indices, prod_list_repeat2.
    unfold wf in Hwf. rewrite Hvec in Hwf. cbn in Hwf.
    replace (2 ^ n) with (length (data vec)) by lia.
    symmetry. apply map_nth_seq_all. }
  rewrite Hd, map_map.
  apply map_ext_in. intros i Hi. apply in_indices_bits in Hi.
  rewrite contract_at_sum; [|done|constructor|constructor|done].
  cbn [length indices repeat map rsum fold_right gather ravel].
  rewrite add_0_r'. f_equal. f_equal.
  unfold with_bits. cbn [mem existsb].
  rewrite <- (bits_length n i Hi). apply map_nth_seq_all.
Qed.

Lemma no_target_wires_witness :
  mat_vec_product 3 scalar_five ramp []
  = Ok (mk_ndarray [2 ^ 3] (map (mul (get scalar_five [0; 0])) (data ramp))).
Proof.
  apply (no_target_wires Z_semiring 3 scalar_five ramp).
  - reflexivity.
  - reflexivity.
  - reflexivity.
Defined.

Section DisjointWires.
Context {R : Semiring}.
Implicit Types (mat vec : ndarray R).

Lemma nth_with_bits n ws c i q :
  q < n ->
  nth q (with_bits n ws c i) 0
  = if mem q ws then nth (index_of q ws) c 0 else nth q i 0.
Proof.
  intros Hq. unfold with_bits.
  rewrite (nth_map_lt _ _ _ _ 0) by (by rewrite length_seq).
  by rewrite seq_nth.
Qed.

Lemma bits_with_bits n k ws c i :
  bits k c -> bits n i -> bits n (with_bits n ws c i).
Proof.
  intros Hc Hi. apply bits_iff. split.
  - unfold with_bits. by rewrite length_map, length_seq.
  - unfold with_bits. rewrite Forall_map. apply List.Forall_forall.
    intros q _. destruct (mem q ws); [by apply (bits_nth k)|by apply (bits_nth n)].
Qed.

Lemma gather_with_bits n ws1 ws2 d i :
  Forall (fun w => w < n) ws1 ->
  (forall w, In w ws1 -> ~ In w ws2) ->
  gather ws1 (with_bits n ws2 d i) = gather ws1 i.
Proof.
  intros Hlt Hdisj. unfold gather. apply map_ext_in. intros q Hq.
  rewrite List.Forall_forall in Hlt.
  rewrite nth_with_bits by (by apply Hlt).
  by rewrite (proj2 (mem_false q ws2)) by (by apply Hdisj).
Qed.

Lemma with_bits_comm n ws1 ws2 c d i :
  (forall w, In w ws1 -> ~ In w ws2) ->
  with_bits n ws1 c (with_bits n ws2 d i)
  = with_bits n ws2 d (with_bits n ws1 c i).
Proof.
  intros Hdisj. unfold with_bits at 1 3.
  apply map_ext_in. intros q Hq. apply in_seq in Hq.
  rewrite !nth_with_bits by lia.
  destruct (mem q ws1) eqn:H1; [|done].
  apply mem_In in H1.
  by rewrite (proj2 (mem_false q ws2)) by (by apply Hdisj).
Qed.

(** Contractions over disjoint sets of qubits commute. *)
Lemma contract_comm n (A B v : ndarray R) ws1 ws2 i :
  (forall x y : R, mul x y = mul y x) ->
  shape A = [2 ^ length ws1; 2 ^ length ws1] ->
  shape B = [2 ^ length ws2; 2 ^ length ws2] ->
  List.NoDup ws1 -> Forall (fun w => w < n) ws1 ->
  List.NoDup ws2 -> Forall (fun w => w < n) ws2 ->
  (forall w, In w ws1 -> ~ In w ws2) ->
  bits n i ->
  contract_at n ws2 B
    (mk_ndarray [2 ^ n] (map (contract_at n ws1 A v) (indices (repeat 2 n)))) i
  = contract_at n ws1 A
      (mk_ndarray [2 ^ n] (map (contract_at n ws2 B v) (indices (repeat 2 n)))) i.
Proof.
  intros Hcomm HA HB Hnd1 Hlt1 Hnd2 Hlt2 Hdisj Hi.
  assert (Hdisj' : forall w, In w ws2 -> ~ In w ws1)
    by (intros w H2 H1; by apply (Hdisj w)).
  rewrite !contract_at_sum by done.
  rewrite (map_ext_in _ (fun d =>
    rsum (map (fun c =>
      mul (mul (get B [ravel (repeat 2 (length ws2)) (gather ws2 i);
                       ravel (repeat 2 (length ws2)) d])
               (get A [ravel (repeat 2 (length ws1)) (gather ws1 i);
                       ravel (repeat 2 (length ws1)) c]))
          (amplitude n v (with_bits n ws1 c (with_bits n ws2 d i))))
      (indices (repeat 2 (length ws1)))))).
  2:{ intros d Hd. apply in_indices_bits in Hd.
      rewrite amplitude_map by (by apply (bits_with_bits n (length ws2))).
      rewrite contract_at_sum;
        [|done..|by apply (bits_with_bits n (length ws2))].
      rewrite rsum_mul_l. f_equal. apply map_ext. intros c.
      rewrite mul_assoc. by rewrite gather_with_bits. }
  rewrite rsum_swap. f_equal.
  apply map_ext_in. intros c Hc. apply in_indices_bits in Hc.
  rewrite amplitude_map by (by apply (bits_with_bits n (length ws1))).
  rewrite contract_at_sum;
    [|done..|by apply (bits_with_bits n (length ws1))].
  rewrite rsum_mul_l. f_equal. apply map_ext. intros d.
  rewrite mul_assoc, gather_with_bits by done.
  rewrite with_bits_comm by done.
  f_equal. apply Hcomm.
Qed.

End DisjointWires.

Section Superposition.
Context {R : Semiring}.

Lemma nth_combine_add (du dv : list R) j :
  j < length du -> j < length dv ->
  nth j (map (fun xy => add (fst xy) (snd xy)) (combine du dv)) zero
  = add (nth j du zero) (nth j dv zero).
Proof.
  revert dv j; induction du as [|x du IH]; intros [|y dv] [|j] Hu Hv;
    cbn in *; try lia; [done|].
  apply IH; lia.
Qed.

Lemma combine_map_same {A B C} (f : A -> B) (g : A -> C) (l : list A) :
  combine (map f l) (map g l) = map (fun x => (f x, g x)) l.
Proof. induction l as [|x l IH]; cbn; [done|]. by rewrite IH. Qed.

(** Contracting a sum of states. *)
Lemma contract_add n (mat u v : ndarray R) ws i :
  shape mat = [2 ^ length ws; 2 ^ length ws] ->
  length (data u) = 2 ^ n -> length (data v) = 2 ^ n ->
  List.NoDup ws -> Forall (fun w => w < n) ws -> bits n i ->
  contract_at n ws mat (vadd u v) i
  = add (contract_at n ws mat u i) (contract_at n ws mat v i).
Proof.
  intros Hmat Hu Hv Hnd Hlt Hi.
  rewrite !contract_at_sum by done.
  rewrite <- rsum_add. f_equal.
  apply map_ext_in. intros c Hc. apply in_indices_bits in Hc.
  rewrite <- mul_add_distr_l. f_equal.
  unfold amplitude, vadd. cbn [data].
  assert (Hj : ravel (repeat 2 n) (with_bits n ws c i) < 2 ^ n).
  { rewrite <- prod_list_repeat2. apply ravel_lt.
    by apply (bits_with_bits n (length ws)). }
  apply nth_combine_add; lia.
Qed.

End Superposition.

(** X9.  In exact arithmetic, contractions on disjoint sets of target
    qubits commute: [A] on [ws1] and then [B] on [ws2] give what [B] on
    [ws2] and then [A] on [ws1] give, over a semiring of scalars whose
    product commutes.  Floating-point numbers are no such scalars, their
    sum not being associative. *)
Theorem disjoint_wires_commute (R : Semiring) (n : nat)
    (A B v : ndarray R) (ws1 ws2 : list nat) :
  (forall x y : R, mul x y = mul y x) ->
  shape A = [2 ^ length ws1; 2 ^ length ws1] ->
  shape B = [2 ^ length ws2; 2 ^ length ws2] ->
  prod_list (shape v) = 2 ^ n ->
  List.NoDup ws1 -> Forall (fun w => w < n) ws1 ->
  List.NoDup ws2 -> Forall (fun w => w < n) ws2 ->
  (forall w, In w ws1 -> ~ In w ws2) ->
  exists va vb out,
    mat_vec_product n A v ws1 = Ok va
    /\ mat_vec_product n B v ws2 = Ok vb
    /\ mat_vec_product n B va ws2 = Ok out
    /\ mat_vec_product n A vb ws1 = Ok out.
Proof.
  intros Hcomm HA HB Hv Hnd1 Hlt1 Hnd2 Hlt2 Hdisj.
  eexists _, _, _.
  split; [by apply mat_vec_product_spec|].
  split; [by apply mat_vec_product_spec|].
  rewrite !mat_vec_product_spec; try done; try (cbn; lia).
  split; [reflexivity|].
  do 2 f_equal. apply map_ext_in. intros i Hi. apply in_indices_bits in Hi.
  symmetry. by apply contract_comm.
Qed.

Lemma disjoint_wires_commute_witness :
  exists va vb out,
    mat_vec_product 3 shear ramp [2; 0] = Ok va
    /\ mat_vec_product 3 (@pauli_x Z_semiring) ramp [1] = Ok vb
    /\ mat_vec_product 3 (@pauli_x Z_semiring) va [1] = Ok out
    /\ mat_vec_product 3 shear vb [2; 0] = Ok out.
Proof.
  apply (disjoint_wires_commute Z_semiring 3 shear pauli_x ramp [2; 0] [1]).
  - apply Z.mul_comm.
  - reflexivity.
  - reflexivity.
  - reflexivity.
  - repeat constructor; cbn; intuition lia.
  - repeat constructor; lia.
  - repeat constructor; cbn; intuition lia.
  - repeat constructor; lia.
  - intros w [<-|[<-|[]]] [H|[]]; lia.
Defined.

(** X10.  [mat_vec_product] is additive in the state: contracting the
    entrywise sum of two states of [2^n] amplitudes gives the entrywise sum
    of the two contractions. *)
Theorem mat_vec_product_additive (R : Semiring) (n : nat)
    (mat u v : ndarray R) (ws : list nat) :
  shape mat = [2 ^ length ws; 2 ^ length ws] ->
  shape u = [2 ^ n] -> wf u ->
  shape v = [2 ^ n] -> wf v ->
  List.NoDup ws ->
  Forall (fun w => w < n) ws ->
  exists a b,
    mat_vec_product n mat u ws = Ok a
    /\ mat_vec_product n mat v ws = Ok b
    /\ mat_vec_product n mat (vadd u v) ws = Ok (vadd a b).
Proof.
  intros Hmat Hu Hwu Hv Hwv Hnd Hlt.
  assert (Hlu : length (data u) = 2 ^ n)
    by (unfold wf in Hwu; rewrite Hwu, Hu; cbn; lia).
  assert (Hlv : length (data v) = 2 ^ n)
    by (unfold wf in Hwv; rewrite Hwv, Hv; cbn; lia).
  eexists _, _.
  split; [apply mat_vec_product_spec; try done; rewrite Hu; cbn; lia|].
  split; [apply mat_vec_product_spec; try done; rewrite Hv; cbn; lia|].
  rewrite mat_vec_product_spec; try done; [|cbn; rewrite Hu; cbn; lia].
  unfold vadd at 2. cbn [shape data]. do 2 f_equal.
  rewrite combine_map_same, map_map. cbn [fst snd].
  apply map_ext_in. intros i Hi. apply in_indices_bits in Hi.
  by apply contract_add.
Qed.

Lemma mat_vec_product_additive_witness :
  exists a b,
    mat_vec_product 3 shear ramp [2; 0] = Ok a
    /\ mat_vec_product 3 shear spike [2; 0] = Ok b
    /\ mat_vec_product 3 shear (vadd ramp spike) [2; 0] = Ok (vadd a b).
Proof.
  apply (mat_vec_product_additive Z_semiring 3 shear ramp spike [2; 0]).
  - reflexivity.
  - reflexivity.
  - reflexivity.
  - reflexivity.
  - reflexivity.
  - repeat constructor; cbn; intuition lia.
  - repeat constructor; lia.
Defined.

(* ================================================================== *)
(** * More about the program builder *)

Section BindingFacts.
Context {Value Executable Gate Wire : Type}.
Variable map_wires : list Wire -> string + list nat.
Implicit Types (self : device Value Executable Gate).
Implicit Types (o : operation Value Wire) (p q : param Value).

Lemma fst_bind_ret {A B} (m : M Value Executable Gate A) (f : A -> B) self :
  fst (bind m (fun x => ret (f x)) self) = fst (m self).
Proof. unfold bind. by destruct (m self) as [s [a|e]]. Qed.

Lemma bind_all_app ps1 ps2 self :
  bind_all (ps1 ++ ps2) self = bind_all ps2 (bind_all ps1 self).
Proof. apply fold_left_app. Qed.

Lemma bind_all_cons p ps self :
  bind_all (p :: ps) self = bind_all ps (bind_one p self).
Proof. reflexivity. Qed.

Lemma prepare_parameters_state name data self :
  fst (prepare_parameters name data self)
  = bind_all (List.filter (takes_handle name) data) self.
Proof.
  revert self; induction data as [|p rest IH]; intros self; [done|].
  cbn [prepare_parameters List.filter].
  change (requires_grad p && negb (String.eqb name "BasisState"))
    with (takes_handle name p).
  destruct (takes_handle name p) eqn:Hth.
  - rewrite bind_all_cons, <- IH.
    match goal with
    | |- fst (bind ?blk _ _) = _ =>
        assert (exists r, blk self = (bind_one p self, Ok (ArgRef r)))
          as (r & Hblk)
    end.
    { unfold bind_one.
      destruct (_parameter_reference_map self !! parameter_string p)
        as [r|] eqn:E.
      - exists r. unfold bind, gets, modify, ret. cbn. rewrite E. cbn.
        by rewrite E.
      - exists (mk_ref (parameter_string p) 0).
        unfold bind, gets, modify, declare, ret. cbn. rewrite E. cbn.
        by rewrite lookup_insert_eq. }
    step_with Hblk. apply fst_bind_ret.
  - step. rewrite <- IH. apply fst_bind_ret.
Qed.

(** The state in which the loop of [apply_parametric_operations] stops:
    the parameters of a prefix of the operations are bound, and those of
    all of them when the loop returns. *)
Lemma apply_parametric_loop_state i ops built self :
  exists m,
    m <= length ops
    /\ fst (apply_parametric_loop map_wires i ops built self)
       = bind_all (flat_map handle_params (take m ops)) self
    /\ (forall b, snd (apply_parametric_loop map_wires i ops built self) = Ok b ->
          m = length ops).
Proof.
  revert i built self; induction ops as [|o rest IH]; intros i built self.
  - exists 0. by split_and!.
  - cbn [apply_parametric_loop].
    destruct (map_wires (op_wires o)) as [msg|qs] eqn:Hqs.
    { rewrite (mapped_raise _ _ msg) by done.
      exists 0. split; [cbn; lia|]. split; [done|]. intros b Hb. done. }
    rewrite (mapped_ok _ _ qs) by done.
    destruct (Nat.ltb 0 i && is_state_preparation (op_name o)).
    { exists 0. split; [cbn; lia|]. split; [done|]. intros b Hb. done. }
    destruct (prepare_parameters_run (op_name o) (op_data o) self)
      as (self1 & Hrun & _).
    pose proof (prepare_parameters_state (op_name o) (op_data o) self) as Hst.
    rewrite Hrun in Hst. cbn [fst] in Hst. fold (handle_params o) in Hst.
    step_with Hrun. step.
    destruct (_operation_map self1 !! op_name o) as [g|].
    + destruct (IH (S i)
                  (Program_inst built
                     (Apply g (map (resolved_arg (_parameter_reference_map self1)
                                      (op_name o)) (op_data o))
                        qs)) self1)
        as (m & Hm & Hstate & Hok).
      exists (S m). split; [cbn; lia|]. split.
      * rewrite Hstate. cbn [take flat_map]. by rewrite bind_all_app, Hst.
      * intros b Hb. cbn [length]. f_equal. by eapply Hok.
    + exists 1. split; [cbn; lia|]. split; [|done].
      cbn [take flat_map]. rewrite take_0. cbn [flat_map].
      by rewrite app_nil_r, Hst.
Qed.

Lemma apply_parametric_operations_state ops self self' built :
  apply_parametric_operations map_wires ops self = (self', Ok built) ->
  self' = bind_all (flat_map handle_params ops) self.
Proof.
  intros Hrun. unfold apply_parametric_operations in Hrun.
  destruct (apply_parametric_loop_state 0 ops empty_Program self)
    as (m & Hm & Hstate & Hok).
  rewrite Hrun in Hstate, Hok. cbn [fst snd] in *.
  rewrite (Hok built eq_refl), firstn_all in Hstate. done.
Qed.

(** *** What binding parameters changes *)

Lemma bind_one_settings p self : same_settings self (bind_one p self).
Proof.
  unfold bind_one, same_settings.
  destruct (_parameter_reference_map self !! parameter_string p);
    by split_and!.
Qed.

Lemma same_settings_refl self : same_settings self self.
Proof. unfold same_settings. by split_and!. Qed.

Lemma same_settings_trans self1 self2 self3 :
  same_settings self1 self2 -> same_settings self2 self3 ->
  same_settings self1 self3.
Proof.
  unfold same_settings. intros H1 H2.
  destruct H1 as (?&?&?&?&?&?&?&?&?&?), H2 as (?&?&?&?&?&?&?&?&?&?).
  split_and!; congruence.
Qed.

Lemma bind_all_settings ps self : same_settings self (bind_all ps self).
Proof.
  revert self; induction ps as [|p ps IH]; intros self.
  - apply same_settings_refl.
  - rewrite bind_all_cons.
    eapply same_settings_trans; [apply bind_one_settings|apply IH].
Qed.

Lemma bind_one_refs p self :
  _parameter_reference_map (bind_one p self)
  = match _parameter_reference_map self !! parameter_string p with
    | None => <[parameter_string p := mk_ref (parameter_string p) 0]>
                (_parameter_reference_map self)
    | Some _ => _parameter_reference_map self
    end.
Proof.
  unfold bind_one.
  by destruct (_parameter_reference_map self !! parameter_string p).
Qed.

Lemma bind_one_dom p self :
  dom (_parameter_reference_map (bind_one p self))
  = {[parameter_string p]} ∪ dom (_parameter_reference_map self).
Proof.
  rewrite bind_one_refs.
  destruct (_parameter_reference_map self !! parameter_string p) eqn:E.
  - apply elem_of_dom_2 in E. set_solver.
  - apply dom_insert_L.
Qed.

Lemma bind_one_parameter_map p self :
  _parameter_map (bind_one p self)
  = <[parameter_string p := [unwrap p]]> (_parameter_map self).
Proof.
  unfold bind_one.
  by destruct (_parameter_reference_map self !! parameter_string p).
Qed.

Lemma bind_all_prog ps self :
  prog (bind_all ps self)
  = mk_Program
      (instructions (prog self)
       ++ map (fun k => DECLARE k "REAL" 1)
            (fresh_keys (dom (_parameter_reference_map self))
                        (map parameter_string ps)))
      (memory (prog self)) (num_shots (prog self)).
Proof.
  revert self; induction ps as [|p ps IH]; intros self.
  - cbn. rewrite app_nil_r. by destruct (prog self).
  - rewrite bind_all_cons, IH, bind_one_dom. cbn [map fresh_keys].
    unfold bind_one.
    destruct (_parameter_reference_map self !! parameter_string p) eqn:E.
    + rewrite decide_True by (by apply elem_of_dom_2 in E).
      assert (Hdom : {[parameter_string p]} ∪ dom (_parameter_reference_map self)
                     = dom (_parameter_reference_map self)).
      { apply elem_of_dom_2 in E. set_solver. }
      by rewrite Hdom.
    + rewrite decide_False by (by apply not_elem_of_dom_2).
      cbn. by rewrite <- app_assoc.
Qed.

Lemma fresh_keys_elem seen keys k :
  k ∈ fresh_keys seen keys <-> k ∈ keys /\ k ∉ seen.
Proof.
  revert seen; induction keys as [|x keys IH]; intros seen; cbn.
  - rewrite !elem_of_nil. tauto.
  - destruct (decide (x ∈ seen)) as [Hin|Hnin].
    + rewrite IH, elem_of_cons. split; [tauto|].
      intros [[->|Hk] Hs]; [done|tauto].
    + rewrite !elem_of_cons, IH. split.
      * intros [->|[Hk Hs]]; [tauto|]. split; [tauto|set_solver].
      * intros [[->|Hk] Hs]; [tauto|].
        destruct (decide (k = x)) as [->|Hne]; [tauto|]. right.
        split; [done|set_solver].
Qed.

Lemma fresh_keys_NoDup seen keys : NoDup (fresh_keys seen keys).
Proof.
  revert seen; induction keys as [|x keys IH]; intros seen; cbn.
  - constructor.
  - destruct (decide (x ∈ seen)); [apply IH|].
    constructor; [|apply IH].
    rewrite fresh_keys_elem. set_solver.
Qed.

Lemma bind_all_parameter_map ps self :
  _parameter_map (bind_all ps self)
  = fold_left (fun m p => <[parameter_string p := [unwrap p]]> m) ps
              (_parameter_map self).
Proof.
  revert self; induction ps as [|p ps IH]; intros self; [done|].
  by rewrite bind_all_cons, IH, bind_one_parameter_map.
Qed.

(** The value held for a bound parameter is its own, when parameters of
    the same identity are the same object. *)
Lemma bound_value ps (m : gmap string (list Value)) p :
  In p ps ->
  (forall q, In q ps -> py_id q = py_id p -> unwrap q = unwrap p) ->
  fold_left (fun m p => <[parameter_string p := [unwrap p]]> m) ps m
    !! parameter_string p
  = Some [unwrap p].
Proof.
  induction ps as [|q ps IH] using rev_ind; intros Hin Hid; [done|].
  rewrite fold_left_app. cbn [fold_left].
  destruct (decide (parameter_string q = parameter_string p)) as [Heq|Hne].
  - rewrite Heq, lookup_insert_eq. do 2 f_equal.
    apply Hid; [apply in_app_iff; right; by left|].
    by apply parameter_string_inj.
  - rewrite lookup_insert_ne by done.
    apply IH.
    + apply in_app_iff in Hin as [Hin|[->|[]]]; [done|congruence].
    + intros q' Hq'. apply Hid. apply in_app_iff. by left.
Qed.

(** The values of the keys that a build does not bind are kept. *)
Lemma unbound_value ps (m : gmap string (list Value)) k :
  k ∉ map parameter_string ps ->
  fold_left (fun m p => <[parameter_string p := [unwrap p]]> m) ps m !! k
  = m !! k.
Proof.
  revert m; induction ps as [|q ps IH]; intros m Hk; [done|].
  cbn [fold_left]. cbn [map] in Hk. apply not_elem_of_cons in Hk as [Hne Hk].
  rewrite IH by done. by rewrite lookup_insert_ne.
Qed.

End BindingFacts.

Section BuilderProperties.
Context {Value Executable Gate Wire : Type}.
Variable map_wires : list Wire -> string + list nat.
Implicit Types (self : device Value Executable Gate).
Implicit Types (o : operation Value Wire) (p q : param Value).

Lemma bound_keys_handle_params (ops : list (operation Value Wire)) :
  map parameter_string (flat_map handle_params ops) = bound_keys ops.
Proof.
  induction ops as [|o ops IH]; [done|].
  cbn [flat_map]. rewrite map_app, IH. done.
Qed.

Lemma bind_one_invariant p self :
  table_invariant self -> table_invariant (bind_one p self).
Proof.
  intros [Hdom Hok]. split.
  - by rewrite bind_one_parameter_map, bind_one_dom, dom_insert_L, Hdom.
  - rewrite bind_one_refs.
    destruct (_parameter_reference_map self !! parameter_string p); [done|].
    intros s r Hs.
    apply lookup_insert_Some in Hs as [[<- <-]|[_ Hs]]; [done|by apply Hok].
Qed.

Lemma bind_all_invariant ps self :
  table_invariant self -> table_invariant (bind_all ps self).
Proof.
  revert self; induction ps as [|p ps IH]; intros self Hinv; [done|].
  rewrite bind_all_cons. by apply IH, bind_one_invariant.
Qed.

(** X11.  [apply_parametric_operations] returns a program exactly when the
    wires of every operation are wires of the device, the name of every
    operation is among the device's [operations] and no state preparation
    stands after the first position. *)
Theorem build_succeeds_iff self ops :
  (exists self' built,
     apply_parametric_operations map_wires ops self = (self', Ok built))
  <-> (forall j o, ops !! j = Some o ->
         on_device map_wires o
         /\ op_name o ∈ operations self
         /\ (0 < j -> is_state_preparation (op_name o) = false)).
Proof.
  unfold apply_parametric_operations, operations.
  destruct (apply_parametric_loop_cases map_wires 0 ops empty_Program self)
    as [(self1 & new & Hloop & _ & _ & Hall)
       |(pre & o1 & post & self1 & -> & _
         & [(msg & Hmsg & Hloop & _)
           |[(_ & Hmis & Hloop & _)|(_ & _ & Hnone & Hloop & _)]])];
    rewrite Hloop.
  - split; [|by eexists _, _].
    intros _ j o Hj. destruct (Hall j o Hj) as (Hdev & Hplaced & Hsup).
    split; [done|]. split; [by apply elem_of_dom|].
    intros Hpos. cbn in Hplaced.
    destruct j; [lia|]. done.
  - split; [by intros (? & ? & ?)|].
    intros Hall. exfalso.
    destruct (Hall (length pre) o1 (list_lookup_middle _ _ _ _ eq_refl))
      as ([qs Hqs] & _).
    congruence.
  - split; [by intros (? & ? & ?)|].
    intros Hall. exfalso.
    destruct (Hall (length pre) o1 (list_lookup_middle _ _ _ _ eq_refl))
      as (_ & _ & Hplaced).
    cbn in Hmis. destruct (length pre); [done|].
    cbn in Hmis. rewrite Hplaced in Hmis; [done|lia].
  - split; [by intros (? & ? & ?)|].
    intros Hall. exfalso.
    destruct (Hall (length pre) o1 (list_lookup_middle _ _ _ _ eq_refl))
      as (_ & Hin & _).
    apply elem_of_dom in Hin as [g Hg]. congruence.
Qed.

(** X12.  A successful build appends to the program, for each operation
    and in the order of the operations, what the table entry of the
    operation's name returns when it is called on the operation's
    parameters (the handle for a bound parameter, the parameter itself
    otherwise) and on the device qubits of its wires, and nothing else.
    What an entry returns may be several Quil instructions: the program
    holds one such block for each operation, not one instruction. *)
Theorem build_emits_in_order self ops self' built :
  apply_parametric_operations map_wires ops self = (self', Ok built) ->
  Forall2
    (fun o block =>
       exists g device_wires,
         _operation_map self !! op_name o = Some g
         /\ map_wires (op_wires o) = inr device_wires
         /\ block = Apply g
                      (map (resolved_arg (_parameter_reference_map self')
                              (op_name o)) (op_data o))
                      device_wires)
    ops (instructions built).
Proof.
  intros Hbuild. unfold apply_parametric_operations in Hbuild.
  destruct (apply_parametric_loop_cases map_wires 0 ops empty_Program self)
    as [(self1 & new & Hloop & Hemit & Hext & _)
       |(pre & o1 & post & self1 & _ & _
         & [(msg & _ & Hloop & _)
           |[(_ & _ & Hloop & _)|(_ & _ & _ & Hloop & _)]])];
    rewrite Hloop in Hbuild; [|done..].
  injection Hbuild as <- Hbuilt.
  assert (Hnew : instructions built = new) by (by rewrite <- Hbuilt).
  rewrite Hnew.
  eapply Forall2_impl; [exact Hemit|].
  intros o block (g & qs & Hg & Hqs & -> & _).
  exists g, qs. split; [|done].
  destruct Hext as (_ & <- & _). done.
Qed.

(** X13.  In a successful build, a parameter that is not differentiable, or
    that belongs to a [BasisState] operation, is passed to the operation as
    it is, never as a handle. *)
Theorem untracked_parameters_stay_literal self ops self' built i o j p :
  apply_parametric_operations map_wires ops self = (self', Ok built) ->
  ops !! i = Some o ->
  op_data o !! j = Some p ->
  requires_grad p = false \/ op_name o = "BasisState" ->
  argument_at built i j = Some (ArgLit p).
Proof.
  intros Hbuild Hi Hj Hun.
  unfold apply_parametric_operations in Hbuild.
  destruct (apply_parametric_loop_cases map_wires 0 ops empty_Program self)
    as [(self1 & new & Hloop & Hemit & _)
       |(pre & o1 & post & self1 & _ & _
         & [(msg & _ & Hloop & _)
           |[(_ & _ & Hloop & _)|(_ & _ & _ & Hloop & _)]])];
    rewrite Hloop in Hbuild; [|done..].
  injection Hbuild as <- Hbuilt.
  destruct (Forall2_lookup_l _ _ _ _ _ Hemit Hi)
    as (ins & Hins & g & qs & _ & _ & -> & _).
  unfold argument_at. rewrite <- Hbuilt. cbn [instructions app].
  rewrite Hins, lookup_map, Hj. cbn.
  unfold resolved_arg, takes_handle.
  destruct Hun as [->| ->]; [done|].
  by rewrite andb_false_r.
Qed.

(** X14.  Whatever the outcome of a build, success or failure, the binding
    table keeps its shape: the value mapping and the handle mapping have
    the same keys, and every handle is the memory reference of offset 0
    named by its key. *)
Theorem builder_keeps_table_invariant self ops :
  table_invariant self ->
  table_invariant (fst (apply_parametric_operations map_wires ops self)).
Proof.
  intros Hinv. unfold apply_parametric_operations.
  destruct (apply_parametric_loop_state map_wires 0 ops empty_Program self)
    as (m & _ & -> & _).
  by apply bind_all_invariant.
Qed.

(** X15.  After a successful build the value mapping holds, under the key of
    every bound parameter, the one-element list of the value the parameter
    wraps (parameters of one identity being one object), and it keeps the
    entry of every key that the build does not bind: values of earlier
    builds stay until [reset]. *)
Theorem bound_parameters_hold_their_values self ops self' built i o j p :
  apply_parametric_operations map_wires ops self = (self', Ok built) ->
  (forall o' q, In o' ops -> In q (handle_params o') ->
     py_id q = py_id p -> unwrap q = unwrap p) ->
  ops !! i = Some o ->
  op_data o !! j = Some p ->
  requires_grad p = true ->
  op_name o <> "BasisState" ->
  _parameter_map self' !! parameter_string p = Some [unwrap p]
  /\ forall k, k ∉ bound_keys ops ->
       _parameter_map self' !! k = _parameter_map self !! k.
Proof.
  intros Hbuild Hid Hi Hj Hg Hn.
  apply apply_parametric_operations_state in Hbuild as ->.
  rewrite bind_all_parameter_map. split.
  - apply bound_value.
    + apply in_flat_map. exists o. split.
      * apply list_elem_of_In, list_elem_of_lookup. by exists i.
      * apply filter_In. split.
        -- apply list_elem_of_In, list_elem_of_lookup. by exists j.
        -- unfold takes_handle. rewrite Hg. cbn.
           by apply negb_true_iff, String.eqb_neq.
    + intros q Hq. apply in_flat_map in Hq as (o' & Ho' & Hq).
      by apply (Hid o').
  - intros k Hk. apply unbound_value.
    by rewrite bound_keys_handle_params.
Qed.

(** X16.  A successful build appends to [self.prog] one [REAL] declaration of
    size 1 for every bound key that had no handle yet, in the order of
    first use, and changes nothing else of [self.prog]: a key is declared
    once however often its parameter occurs, and a key that has a handle is
    not declared again. *)
Theorem handles_declared_once self ops self' built :
  apply_parametric_operations map_wires ops self = (self', Ok built) ->
  prog self'
  = mk_Program
      (instructions (prog self)
       ++ map (fun k => DECLARE k "REAL" 1)
            (fresh_keys (dom (_parameter_reference_map self))
                        (bound_keys ops)))
      (memory (prog self)) (num_shots (prog self))
  /\ NoDup (fresh_keys (dom (_parameter_reference_map self)) (bound_keys ops))
  /\ forall k,
       k ∈ fresh_keys (dom (_parameter_reference_map self)) (bound_keys ops)
       <-> k ∈ bound_keys ops /\ _parameter_reference_map self !! k = None.
Proof.
  intros Hbuild.
  apply apply_parametric_operations_state in Hbuild as ->.
  rewrite bind_all_prog, bound_keys_handle_params.
  split; [done|]. split; [apply fresh_keys_NoDup|].
  intros k. rewrite fresh_keys_elem, not_elem_of_dom. done.
Qed.

(** X17.  Whatever its outcome, a build changes nothing of the device but
    [self.prog] and the binding table: the machine, the wiring, the shot
    count, the operation table, the circuit hash and the compiled programs
    are what they were. *)
Theorem builder_keeps_settings self ops :
  same_settings self (fst (apply_parametric_operations map_wires ops self)).
Proof.
  unfold apply_parametric_operations.
  destruct (apply_parametric_loop_state map_wires 0 ops empty_Program self)
    as (m & _ & -> & _).
  apply bind_all_settings.
Qed.

End BuilderProperties.

(* ================================================================== *)
(** * The program that [apply] leaves, and what reaches the machine *)

Section ApplyFacts.
Context {Value Executable Gate Wire : Type}.
Variable map_wires : list Wire -> string + list nat.
Implicit Types (self : device Value Executable Gate).
Implicit Types (o : operation Value Wire).

Lemma insert_sorted_perm x l : Permutation (insert_sorted x l) (x :: l).
Proof.
  induction l as [|y l IH]; cbn; [done|].
  destruct (Nat.leb x y); [done|]. rewrite IH. apply perm_swap.
Qed.

Lemma insert_sorted_sorted x l :
  StronglySorted le l -> StronglySorted le (insert_sorted x l).
Proof.
  induction 1 as [|y l Hs IH Hall]; cbn.
  - repeat constructor.
  - destruct (Nat.leb_spec x y) as [Hle|Hlt].
    + constructor; [by constructor|].
      constructor; [done|].
      eapply List.Forall_impl; [|exact Hall]. intros z Hz. cbn in Hz. lia.
    + constructor; [done|].
      eapply Permutation_Forall; [symmetry; apply insert_sorted_perm|].
      constructor; [lia|done].
Qed.

Lemma sorted_perm l : Permutation (sorted l) l.
Proof.
  induction l as [|x l IH]; cbn; [done|].
  by rewrite insert_sorted_perm, IH.
Qed.

Lemma sorted_sorted l : StronglySorted le (sorted l).
Proof.
  induction l as [|x l IH]; cbn; [constructor|].
  by apply insert_sorted_sorted.
Qed.

Lemma measure_all_run i qubits ro self :
  exists self',
    measure_all i qubits ro self = (self', Ok tt)
    /\ same_settings self self'
    /\ _parameter_map self' = _parameter_map self
    /\ _parameter_reference_map self' = _parameter_reference_map self
    /\ instructions (prog self')
       = instructions (prog self)
         ++ imap (fun j q => MEASURE q (mk_ref (ref_name ro) (i + j))) qubits
    /\ memory (prog self') = memory (prog self)
    /\ num_shots (prog self') = num_shots (prog self).
Proof.
  revert i self; induction qubits as [|q rest IH]; intros i self.
  - exists self. split; [done|]. split; [apply same_settings_refl|].
    cbn. by rewrite app_nil_r.
  - cbn [measure_all]. step.
    destruct (IH (S i) (set_prog (fun p =>
                Program_inst p (MEASURE q (mk_ref (ref_name ro) i))) self))
      as (self' & Hrun & Hset & Hpm & Hrefs & Hins & Hmem & Hshots).
    exists self'. split; [done|]. split; [|split; [done|split; [done|]]].
    + eapply same_settings_trans; [|exact Hset].
      unfold same_settings. by split_and!.
    + rewrite Hins, Hmem, Hshots. cbn. split; [|done].
      rewrite <- app_assoc. cbn. rewrite Nat.add_0_r. do 2 f_equal.
      apply imap_ext. intros j x _. cbn. do 2 f_equal. lia.
Qed.

Lemma apply_circuit_operations_state ops self self' r :
  apply_circuit_operations map_wires ops self = (self', r) -> self' = self.
Proof.
  unfold apply_circuit_operations. intros Hrun.
  destruct (apply_circuit_loop_cases map_wires 0 ops empty_Program self)
    as [(new & Hloop & _)
       |(pre & o & post & _ & _
         & [(msg & _ & Hloop)|[(_ & _ & Hloop)|(_ & _ & _ & Hloop)]])];
    rewrite Hloop in Hrun; by injection Hrun.
Qed.

(** The run of [apply] when it returns. *)
Lemma apply_run ops rotations self self' :
  apply map_wires ops rotations self = (self', Ok tt) ->
  exists self1 built rots,
    (if parametric_compilation self && negb (is_pyqvm self)
     then apply_parametric_operations map_wires ops
     else apply_circuit_operations map_wires ops)
      (set_prog (fun p =>
         Program_add
           (if active_reset self
            then Program_inst
                   (mk_Program [Pragma "INITIAL_REWIRING" [quoted "PARTIAL"]] ∅ 1)
                   RESET
            else mk_Program [Pragma "INITIAL_REWIRING" [quoted "PARTIAL"]] ∅ 1)
           p) self)
    = (self1, Ok built)
    /\ same_settings self1 self'
    /\ _parameter_map self' = _parameter_map self1
    /\ _parameter_reference_map self' = _parameter_reference_map self1
    /\ instructions (prog self')
       = instructions (prog self1) ++ instructions built ++ instructions rots
         ++ DECLARE "ro" "BIT" (length (sorted (wiring self1)))
         :: imap (fun j q => MEASURE q (mk_ref "ro" j)) (sorted (wiring self1))
    /\ memory (prog self')
       = memory (prog self1) ∪ memory built ∪ memory rots
    /\ num_shots (prog self') = shots self1.
Proof.
  intros Happly. unfold apply in Happly.
  erewrite bind_ok in Happly by reflexivity.
  erewrite bind_ok in Happly by reflexivity.
  erewrite bind_ok in Happly by reflexivity.
  erewrite bind_ok in Happly by reflexivity.
  match type of Happly with
  | bind ?b _ ?st = _ => destruct (b st) as [self1 [built|e]] eqn:Hbuild
  end.
  2:{ erewrite bind_raise in Happly by exact Hbuild. done. }
  erewrite bind_ok in Happly by exact Hbuild.
  erewrite bind_ok in Happly by reflexivity.
  match type of Happly with
  | context [bind (apply_rotations map_wires rotations ?b) _ ?st] =>
      destruct (apply_rotations_outcome map_wires rotations b st)
        as (r & Hr & _)
  end.
  destruct r as [rots|e].
  2:{ erewrite bind_raise in Happly by exact Hr. done. }
  erewrite bind_ok in Happly by exact Hr.
  erewrite bind_ok in Happly by reflexivity.
  erewrite bind_ok in Happly by reflexivity.
  erewrite bind_ok in Happly by reflexivity.
  match type of Happly with
  | context [bind (measure_all ?i ?qs ?ro) _ ?st] =>
      destruct (measure_all_run i qs ro st)
        as (self5 & Hm & Hset & Hpm & Hrefs & Hins & Hmem & Hshots)
  end.
  erewrite bind_ok in Happly by exact Hm.
  erewrite bind_ok in Happly by reflexivity.
  injection Happly as <-.
  exists self1, built, rots. split; [exact Hbuild|].
  split; [|split; [exact Hpm|split; [exact Hrefs|]]].
  - destruct Hset as (?&?&?&?&?&?&?&?&?&?).
    unfold same_settings. by split_and!.
  - cbn. rewrite Hins, Hmem. cbn. split; [|split; [done|]].
    + rewrite <- !app_assoc. by rewrite <- app_comm_cons.
    + by destruct Hset as (_&_&_&_&_&->&_).
Qed.

End ApplyFacts.

Section SamplingFacts.
Context {Value Executable Gate : Type}.
Implicit Types (self : device Value Executable Gate).
Implicit Types (c : call Value Executable Gate).
Implicit Types (evs : list (event Value Executable Gate)).

Lemma write_memory_fold (p : Program Value Gate) (m : gmap string (list Value)) :
  map_fold (fun region value p => write_memory p region value) p m
  = mk_Program (instructions p) (m ∪ memory p) (num_shots p).
Proof.
  apply (map_fold_weak_ind (fun r m =>
           r = mk_Program (instructions p) (m ∪ memory p) (num_shots p))).
  - rewrite (left_id_L ∅ (∪)). by destruct p.
  - intros k v m' r _ ->. unfold write_memory. cbn.
    by rewrite insert_union_l.
Qed.

Lemma pushed_state self :
  (if parametric_compilation self
   then set_prog (fun p =>
          map_fold (fun region value p => write_memory p region value)
                   p (_parameter_map self)) self
   else self)
  = set_prog (fun _ => pushed_program self) self.
Proof.
  unfold pushed_program.
  destruct (parametric_compilation self) eqn:Hpar.
  - unfold set_prog. by rewrite write_memory_fold.
  - by destruct self.
Qed.

(** [generate_samples], one case at a time. *)
Lemma generate_samples_run self :
  let pushed := set_prog (fun _ => pushed_program self) self in
  generate_samples self
  = if is_pyqvm self
    then (pushed, [EvRun (inl (pushed_program self))],
          samples_of (qc_run (qc self) (inl (pushed_program self))))
    else
      match circuit_hash self with
      | None =>
          match qc_compile (qc self) (pushed_program self) with
          | Raise e => (pushed, [EvCompile None (pushed_program self)], Raise e)
          | Ok compiled =>
              (set_compiled_program (Some compiled) pushed,
               [EvCompile None (pushed_program self); EvRun (inr compiled)],
               samples_of (qc_run (qc self) (inr compiled)))
          end
      | Some h =>
          match _compiled_program_dict self !! h with
          | Some compiled =>
              (set_compiled_program (Some compiled) pushed,
               [EvRun (inr compiled)],
               samples_of (qc_run (qc self) (inr compiled)))
          | None =>
              match qc_compile (qc self) (pushed_program self) with
              | Raise e =>
                  (pushed, [EvCompile (Some h) (pushed_program self)], Raise e)
              | Ok compiled =>
                  (set_compiled_program (Some compiled)
                     (set_compiled_program_dict (insert h compiled) pushed),
                   [EvCompile (Some h) (pushed_program self);
                    EvRun (inr compiled)],
                   samples_of (qc_run (qc self) (inr compiled)))
              end
          end
      end.
Proof.
  cbv zeta. unfold generate_samples. rewrite pushed_state.
  set (pushed := set_prog _ self).
  change (is_pyqvm pushed) with (is_pyqvm self).
  change (circuit_hash pushed) with (circuit_hash self).
  change (qc pushed) with (qc self).
  change (prog pushed) with (pushed_program self).
  change (_compiled_program_dict pushed) with (_compiled_program_dict self).
  destruct (is_pyqvm self).
  { by destruct (qc_run _ _). }
  destruct (circuit_hash self) as [h|].
  - destruct (_compiled_program_dict self !! h) as [compiled|] eqn:Hc.
    + change (_compiled_program_dict pushed) with (_compiled_program_dict self).
      rewrite Hc.
      change (qc (set_compiled_program _ _)) with (qc self).
      by destruct (qc_run _ _).
    + destruct (qc_compile _ _) as [compiled|e]; [|done].
      change (_compiled_program_dict (set_compiled_program_dict _ pushed))
        with (<[h := compiled]> (_compiled_program_dict self)).
      rewrite lookup_insert_eq.
      change (qc (set_compiled_program _ _)) with (qc self).
      by destruct (qc_run _ _).
  - destruct (qc_compile _ _) as [compiled|e]; [|done].
    change (qc (set_compiled_program _ _)) with (qc self).
    by destruct (qc_run _ _).
Qed.

(** Every program sent to the machine is the pushed one. *)
Lemma sent_programs_pushed self :
  prog (generate_samples self).1.1 = pushed_program self
  /\ Forall (fun p => p = pushed_program self)
       (sent_programs (generate_samples self).1.2).
Proof.
  rewrite generate_samples_run. cbv zeta.
  destruct (is_pyqvm self).
  { split; [done|]. by repeat constructor. }
  destruct (circuit_hash self) as [h|].
  - destruct (_compiled_program_dict self !! h) as [compiled|].
    { split; [done|]. by repeat constructor. }
    destruct (qc_compile _ _); (split; [done|]; by repeat constructor).
  - destruct (qc_compile _ _); (split; [done|]; by repeat constructor).
Qed.

End SamplingFacts.

Section ApplyProperties.
Context {Value Executable Gate Wire : Type}.
Variable map_wires : list Wire -> string + list nat.
Implicit Types (self : device Value Executable Gate).
Implicit Types (o : operation Value Wire).

(** X18.  The program that a successful [apply] leaves in [self.prog]: the
    [INITIAL_REWIRING] pragma, a [RESET] when [active_reset] is set, the
    program that was there, the circuit, and then the declaration of the
    [ro] register with one bit per qubit of the wiring and one measurement
    per qubit, in ascending order of qubit, the qubit of rank [i] into
    [ro[i]]; its shot count is the one of the device.  The builders of the
    non-parametric branch and of the rotations are the modelled ones. *)
Theorem apply_measures_every_qubit self ops rotations self' :
  apply map_wires ops rotations self = (self', Ok tt) ->
  exists body,
    instructions (prog self')
    = Pragma "INITIAL_REWIRING" [quoted "PARTIAL"]
      :: (if active_reset self then [RESET] else [])
      ++ instructions (prog self) ++ body
      ++ DECLARE "ro" "BIT" (length (wiring self))
      :: imap (fun i q => MEASURE q (mk_ref "ro" i)) (sorted (wiring self))
    /\ num_shots (prog self') = shots self
    /\ Permutation (sorted (wiring self)) (wiring self)
    /\ StronglySorted le (sorted (wiring self)).
Proof.
  intros Happly.
  destruct (apply_run map_wires ops rotations self self' Happly)
    as (self1 & built & rots & Hbuild & _ & _ & _ & Hins & _ & Hshots).
  set (self0 := set_prog _ self) in Hbuild.
  assert (Hstart : exists decls,
            instructions (prog self1) = instructions (prog self0) ++ decls
            /\ wiring self1 = wiring self /\ shots self1 = shots self).
  { destruct (parametric_compilation self && negb (is_pyqvm self)).
    - apply apply_parametric_operations_state in Hbuild as ->.
      destruct (bind_all_settings (flat_map handle_params ops) self0)
        as (_&_&_&Hw&_&Hs&_).
      rewrite bind_all_prog. eexists. split; [reflexivity|]. by split.
    - apply apply_circuit_operations_state in Hbuild as ->.
      exists []. by rewrite app_nil_r. }
  destruct Hstart as (decls & Hstart & Hw & Hs).
  exists (decls ++ instructions built ++ instructions rots).
  split; [|split; [congruence|split; [apply sorted_perm|apply sorted_sorted]]].
  rewrite Hins, Hstart, Hw.
  rewrite (Permutation_length (sorted_perm (wiring self))).
  unfold self0. cbn [set_prog prog Program_add instructions].
  destruct (active_reset self); cbn; by rewrite <- !app_assoc.
Qed.

(** X19.  From an empty handle mapping, as [reset] leaves it, through a
    successful [apply] to [generate_samples]: every program that
    [generate_samples] sends to the machine, to compile or to run, declares
    the region of each bound parameter and holds in its memory the value
    that the parameter wraps. *)
Theorem bound_values_reach_the_machine self ops rotations self1 i o j
    (p : param Value) :
  parametric_compilation self = true ->
  is_pyqvm self = false ->
  _parameter_reference_map self = ∅ ->
  apply map_wires ops rotations self = (self1, Ok tt) ->
  (forall o' q, In o' ops -> In q (handle_params o') ->
     py_id q = py_id p -> unwrap q = unwrap p) ->
  ops !! i = Some o ->
  op_data o !! j = Some p ->
  requires_grad p = true ->
  op_name o <> "BasisState" ->
  Forall (fun sent =>
            In (DECLARE (parameter_string p) "REAL" 1) (instructions sent)
            /\ memory sent !! parameter_string p = Some [unwrap p])
         (sent_programs (generate_samples self1).1.2).
Proof.
  intros Hpar Hpy Hempty Happly Hid Hi Hj Hg Hn.
  destruct (apply_run map_wires ops rotations self self1 Happly)
    as (self0 & built & rots & Hbuild & Hset & Hpm & _ & Hins & _ & _).
  rewrite Hpar, Hpy in Hbuild. cbn [andb negb] in Hbuild.
  apply apply_parametric_operations_state in Hbuild. 
  assert (Hin : In p (flat_map handle_params ops)).
  { apply in_flat_map. exists o. split.
    - apply list_elem_of_In, list_elem_of_lookup. by exists i.
    - apply filter_In. split.
      + apply list_elem_of_In, list_elem_of_lookup. by exists j.
      + unfold takes_handle. rewrite Hg. cbn.
        by apply negb_true_iff, String.eqb_neq. }
  assert (Hval : _parameter_map self1 !! parameter_string p = Some [unwrap p]).
  { rewrite Hpm, Hbuild, bind_all_parameter_map. apply bound_value; [done|].
    intros q Hq. apply in_flat_map in Hq as (o' & Ho' & Hq).
    by apply (Hid o'). }
  assert (Hdecl : In (DECLARE (parameter_string p) "REAL" 1)
                     (instructions (prog self1))).
  { rewrite Hins, Hbuild, bind_all_prog. cbn.
    apply in_app_iff. left. apply in_app_iff. right.
    apply (in_map (fun k => DECLARE k "REAL" 1)).
    apply list_elem_of_In, fresh_keys_elem.
    change (_parameter_reference_map (set_prog _ self))
      with (_parameter_reference_map self).
    rewrite Hempty, dom_empty_L. split; [|set_solver].
    apply list_elem_of_In, in_map, Hin. }
  assert (Hpar1 : parametric_compilation self1 = true).
  { destruct Hset as (_ & -> & _). rewrite Hbuild.
    destruct (bind_all_settings (flat_map handle_params ops)
                (set_prog (fun p0 => Program_add
                   (if active_reset self
                    then Program_inst
                           (mk_Program [Pragma "INITIAL_REWIRING" [quoted "PARTIAL"]] ∅ 1)
                           RESET
                    else mk_Program [Pragma "INITIAL_REWIRING" [quoted "PARTIAL"]] ∅ 1)
                   p0) self))
      as (_ & -> & _). done. }
  destruct (sent_programs_pushed self1) as [_ Hsent].
  eapply List.Forall_impl; [|exact Hsent].
  intros sent ->. unfold pushed_program. rewrite Hpar1. cbn.
  split; [done|]. by apply lookup_union_Some_l.
Qed.

End ApplyProperties.

(* ================================================================== *)
(** * More about [generate_samples] and the cache *)

Section SamplingProperties.
Context {Value Executable Gate : Type}.
Implicit Types (self : device Value Executable Gate).
Implicit Types (c : call Value Executable Gate).
Implicit Types (evs : list (event Value Executable Gate)).

(** What one call keeps, whatever its outcome. *)
Lemma generate_samples_keeps self :
  is_pyqvm (generate_samples self).1.1 = is_pyqvm self
  /\ parametric_compilation (generate_samples self).1.1
     = parametric_compilation self
  /\ _compiled_program_dict self
     ⊆ _compiled_program_dict (generate_samples self).1.1.
Proof.
  rewrite generate_samples_run. cbv zeta.
  destruct (is_pyqvm self) eqn:Hpy; [by split_and!|].
  destruct (circuit_hash self) as [h|].
  - destruct (_compiled_program_dict self !! h) as [compiled|] eqn:Hc;
      [by split_and!|].
    destruct (qc_compile _ _); [|by split_and!].
    split_and!; [done..|]. cbn. by apply insert_subseteq.
  - destruct (qc_compile _ _); by split_and!.
Qed.

Lemma run_calls_cons self c rest :
  run_calls self (c :: rest)
  = ((run_calls (generate_samples (prepare_call c self)).1.1 rest).1,
     (generate_samples (prepare_call c self)).1.2
     ++ (run_calls (generate_samples (prepare_call c self)).1.1 rest).2).
Proof.
  cbn [run_calls].
  destruct (generate_samples (prepare_call c self)) as [[s1 evs] r].
  cbn [fst snd]. by destruct (run_calls s1 rest).
Qed.

(** X20.  With parametric compilation, [generate_samples] leaves in
    [self.prog] the program it found with every entry of the value mapping
    written to its memory (over an older value of the same region), and
    every program it sends to the machine is that program. *)
Theorem generate_samples_pushes_values self :
  parametric_compilation self = true ->
  prog (generate_samples self).1.1
  = mk_Program (instructions (prog self))
      (_parameter_map self ∪ memory (prog self)) (num_shots (prog self))
  /\ Forall (fun p => p = prog (generate_samples self).1.1)
       (sent_programs (generate_samples self).1.2).
Proof.
  intros Hpar.
  destruct (sent_programs_pushed self) as [Hprog Hsent].
  rewrite Hprog. split; [|done].
  unfold pushed_program. by rewrite Hpar.
Qed.

(** X21.  On a machine whose name contains "pyqvm", no sequence of
    [generate_samples] calls asks the compiler anything: every call runs
    the program itself, and the cache and the latest compiled program stay
    what they were. *)
Theorem pyqvm_never_compiles self calls :
  is_pyqvm self = true ->
  Forall (fun ev => exists p, ev = EvRun (inl p)) (run_calls self calls).2
  /\ _compiled_program_dict (run_calls self calls).1
     = _compiled_program_dict self
  /\ _compiled_program (run_calls self calls).1 = _compiled_program self.
Proof.
  revert self; induction calls as [|c rest IH]; intros self Hpy.
  - by split_and!.
  - rewrite run_calls_cons. cbn [fst snd].
    assert (Hpy' : is_pyqvm (prepare_call c self) = true) by exact Hpy.
    pose proof (generate_samples_run (prepare_call c self)) as Hrun.
    cbv zeta in Hrun. rewrite Hpy' in Hrun. rewrite Hrun. cbn [fst snd].
    destruct (IH (set_prog (fun _ => pushed_program (prepare_call c self))
                    (prepare_call c self)) Hpy) as (Hev & Hd & Hc).
    split_and!.
    + constructor; [by eexists|done].
    + by rewrite Hd.
    + by rewrite Hc.
Qed.

(** X22.  Without a circuit hash (parametric compilation off, or no hash
    stored), every [generate_samples] call on a machine that is not a pyQVM
    compiles, and nothing is added to the cache. *)
Theorem no_hash_no_cache self calls :
  is_pyqvm self = false ->
  compiler_answers calls ->
  parametric_compilation self = false
  \/ (forall c, In c calls -> call_hash c = None) ->
  compile_hashes (run_calls self calls).2 = repeat None (length calls)
  /\ _compiled_program_dict (run_calls self calls).1
     = _compiled_program_dict self.
Proof.
  revert self; induction calls as [|c rest IH]; intros self Hpy Hans Hno.
  - by split_and!.
  - rewrite run_calls_cons. cbn [fst snd].
    assert (Hpy' : is_pyqvm (prepare_call c self) = false) by exact Hpy.
    assert (Hh : circuit_hash (prepare_call c self) = None).
    { unfold circuit_hash. cbn.
      destruct Hno as [->|Hno]; [done|].
      rewrite (Hno c) by (by left). by destruct (parametric_compilation self). }
    pose proof (generate_samples_run (prepare_call c self)) as Hrun.
    cbv zeta in Hrun. rewrite Hpy', Hh in Hrun.
    destruct (Hans c (pushed_program (prepare_call c self))) as [e He];
      [by left|].
    change (qc_compile (qc (prepare_call c self))) with (call_compile c) in Hrun.
    rewrite He in Hrun. rewrite Hrun. cbn [fst snd].
    match goal with
    | |- context [run_calls ?s rest] =>
        destruct (IH s) as [IH1 IH2]
    end.
    + done.
    + intros c' p Hc'. apply (Hans c' p). by right.
    + destruct Hno as [Hno|Hno]; [by left|right].
      intros c' Hc'. apply Hno. by right.
    + split.
      * rewrite compile_hashes_app, IH1. done.
      * by rewrite IH2.
Qed.

(** X23.  Over any sequence of [generate_samples] calls the cache only
    grows: an entry is never removed and never replaced. *)
Theorem cache_only_grows self calls :
  _compiled_program_dict self ⊆ _compiled_program_dict (run_calls self calls).1.
Proof.
  revert self; induction calls as [|c rest IH]; intros self; [done|].
  rewrite run_calls_cons. cbn [fst].
  etrans; [|apply IH].
  destruct (generate_samples_keeps (prepare_call c self)) as (_ & _ & Hsub).
  exact Hsub.
Qed.

(** X24.  When the cache holds a program under the circuit hash,
    [generate_samples] sends the machine one request, the run of that
    stored program, and answers with the [ro] register of its result; the
    current [self.prog] is not sent, the stored program becomes the latest
    compiled program, and the cache is unchanged. *)
Theorem cache_hit_runs_stored_program self h e :
  parametric_compilation self = true ->
  is_pyqvm self = false ->
  _circuit_hash self = Some h ->
  _compiled_program_dict self !! h = Some e ->
  (generate_samples self).1.2 = [EvRun (inr e)]
  /\ (generate_samples self).2 = samples_of (qc_run (qc self) (inr e))
  /\ _compiled_program (generate_samples self).1.1 = Some e
  /\ _compiled_program_dict (generate_samples self).1.1
     = _compiled_program_dict self.
Proof.
  intros Hpar Hpy Hh Hc.
  rewrite generate_samples_run. cbv zeta.
  unfold circuit_hash. by rewrite Hpy, Hpar, Hh, Hc.
Qed.

(** X25.  When the compiler raises on a machine that is not a pyQVM (and the
    cache has no program for the circuit hash), [generate_samples] raises
    the same error; the compile request is the only request, so nothing is
    run, and neither the cache nor the latest compiled program changes. *)
Theorem compile_failure_is_not_cached self err :
  is_pyqvm self = false ->
  (forall h, circuit_hash self = Some h ->
     _compiled_program_dict self !! h = None) ->
  qc_compile (qc self) (pushed_program self) = Raise err ->
  (generate_samples self).2 = Raise err
  /\ (generate_samples self).1.2
     = [EvCompile (circuit_hash self) (pushed_program self)]
  /\ _compiled_program_dict (generate_samples self).1.1
     = _compiled_program_dict self
  /\ _compiled_program (generate_samples self).1.1 = _compiled_program self.
Proof.
  intros Hpy Hmiss Hfail.
  rewrite generate_samples_run. cbv zeta. rewrite Hpy.
  destruct (circuit_hash self) as [h|].
  - by rewrite (Hmiss h eq_refl), Hfail.
  - by rewrite Hfail.
Qed.

End SamplingProperties.

(* ================================================================== *)
(** * [reset], construction and the wire map *)

Section ResetProperties.
Context {Value Executable Gate Wire : Type}.
Variable map_wires : list Wire -> string + list nat.
Implicit Types (self : device Value Executable Gate).

(** X26.  After [reset] on a device with parametric compilation, a successful
    build leaves in both mappings of the binding table exactly the keys of
    the operations it was given, each handle the one declared for its key,
    and appends to what the base class left in [self.prog] one declaration
    per key. *)
Theorem build_after_reset
    (super_reset : device Value Executable Gate -> device Value Executable Gate)
    self (ops : list (operation Value Wire)) self' built :
  parametric_compilation (super_reset self) = true ->
  apply_parametric_operations map_wires ops (reset super_reset self)
  = (self', Ok built) ->
  dom (_parameter_reference_map self') = list_to_set (bound_keys ops)
  /\ dom (_parameter_map self') = list_to_set (bound_keys ops)
  /\ (forall k r, _parameter_reference_map self' !! k = Some r ->
        r = mk_ref k 0)
  /\ instructions (prog self')
     = instructions (prog (super_reset self))
       ++ map (fun k => DECLARE k "REAL" 1) (fresh_keys ∅ (bound_keys ops)).
Proof.
  intros Hpar Hbuild.
  assert (Hreset : reset super_reset self
                   = set_parameter_reference_map (fun _ => ∅)
                       (set_parameter_map (fun _ => ∅)
                          (set_circuit_hash None (super_reset self))))
    by (unfold reset; by rewrite Hpar).
  pose proof (apply_parametric_operations_state map_wires _ _ _ _ Hbuild)
    as Hstate.
  unfold apply_parametric_operations in Hbuild.
  destruct (apply_parametric_loop_cases map_wires 0 ops empty_Program
              (reset super_reset self))
    as [(self1 & new & Hloop & _ & Hext & _)
       |(pre & o1 & post & self1 & _ & _
         & [(msg & _ & Hloop & _)
           |[(_ & _ & Hloop & _)|(_ & _ & _ & Hloop & _)]])];
    rewrite Hloop in Hbuild; [|done..].
  injection Hbuild as <- _.
  destruct Hext as (_ & _ & _ & Hd & Hp & Hok & _).
  rewrite Hreset in Hd, Hp, Hok. cbn in Hd, Hp, Hok.
  rewrite dom_empty_L, (left_id_L ∅ (∪)) in Hd.
  rewrite dom_empty_L, (left_id_L ∅ (∪)) in Hp.
  split; [done|]. split; [done|]. split.
  - apply Hok. intros s r Hs. by rewrite lookup_empty in Hs.
  - rewrite Hstate, bind_all_prog, Hreset. cbn.
    by rewrite dom_empty_L, bound_keys_handle_params.
Qed.

End ResetProperties.

(** X27.  [reset] clears the circuit hash and keeps the compiled programs:
    when the cache holds a program under a hash after the base class has
    reset the device, the next execution of a circuit with that hash runs
    the stored program and compiles nothing. *)
Theorem cache_survives_reset {Value Executable Gate : Type}
    (super_reset : device Value Executable Gate -> device Value Executable Gate)
    (self : device Value Executable Gate) (h : Z) (e : Executable) :
  parametric_compilation (super_reset self) = true ->
  is_pyqvm (super_reset self) = false ->
  _compiled_program_dict (super_reset self) !! h = Some e ->
  circuit_hash (reset super_reset self) = None
  /\ (generate_samples (execute_hash h (reset super_reset self))).1.2
     = [EvRun (inr e)].
Proof.
  intros Hpar Hpy Hc.
  assert (Hreset : reset super_reset self
                   = set_parameter_reference_map (fun _ => ∅)
                       (set_parameter_map (fun _ => ∅)
                          (set_circuit_hash None (super_reset self))))
    by (unfold reset; by rewrite Hpar).
  rewrite Hreset. split.
  { unfold circuit_hash. cbn. by rewrite Hpar. }
  rewrite generate_samples_run. cbv zeta.
  unfold execute_hash, circuit_hash. cbn. rewrite Hpar. cbn.
  change (is_pyqvm _) with (is_pyqvm (super_reset self)).
  by rewrite Hpy, Hpar, Hc.
Qed.

Section WireMapFacts.
Context {Wire : Type} `{EqDecision Wire}.
Implicit Types (d items : list (Wire * nat)) (wires : list Wire).

Lemma odict_set_new k v d :
  ~ In k (map fst d) -> odict_set k v d = d ++ [(k, v)].
Proof.
  induction d as [|[k' v'] d IH]; intros Hk; cbn in *; [done|].
  rewrite decide_False by (intros ->; tauto). rewrite IH; tauto.
Qed.

Lemma OrderedDict_distinct items :
  List.NoDup (map fst items) -> OrderedDict items = items.
Proof.
  unfold OrderedDict.
  enough (forall acc, List.NoDup (map fst (acc ++ items)) ->
            fold_left (fun d item => odict_set (fst item) (snd item) d)
                      items acc = acc ++ items) as H by apply (H []).
  induction items as [|[k v] items IH]; intros acc Hnd; cbn.
  - by rewrite app_nil_r.
  - rewrite odict_set_new.
    + rewrite IH; rewrite <- app_assoc; done.
    + rewrite map_app in Hnd. cbn in Hnd.
      by apply NoDup_remove_2 in Hnd; rewrite in_app_iff in *; tauto.
Qed.

Lemma map_fst_combine_take wires s n :
  map fst (combine wires (seq s n)) = take n wires.
Proof.
  revert s n; induction wires as [|w wires IH]; intros s [|n]; cbn; try done.
  by rewrite IH.
Qed.

Lemma odict_get_combine wires s n i w :
  List.NoDup wires -> wires !! i = Some w ->
  odict_get w (combine wires (seq s n))
  = if decide (i < n) then Some (s + i) else None.
Proof.
  intros Hnd; revert s n i.
  induction Hnd as [|w' wires Hnin Hnd IH]; intros s n i Hi; [done|].
  destruct n as [|n]; cbn.
  { by rewrite decide_False by lia. }
  destruct i as [|i]; cbn in Hi.
  - injection Hi as ->. rewrite decide_True by done.
    rewrite decide_True by lia. f_equal. lia.
  - rewrite decide_False.
    2:{ intros ->. apply Hnin.
        apply list_elem_of_In, list_elem_of_lookup. by exists i. }
    rewrite (IH (S s) n i Hi).
    destruct (decide (i < n)); [rewrite decide_True by lia|
                                rewrite decide_False by lia]; [|done].
    f_equal. lia.
Qed.

End WireMapFacts.

(** X28.  For distinct wire labels, [define_wire_map] maps the label at
    position [i] to the number [i], whatever qubits the wiring holds, keeps
    the order of the labels, and silently drops the labels from the
    position that equals the number of device wires on. *)
Theorem wire_map_is_positional {Wire : Type} `{EqDecision Wire}
    (wiring_ : option (list nat)) (num_wires : nat) (wires : list Wire) :
  List.NoDup wires ->
  map fst (define_wire_map wiring_ num_wires wires)
  = take (match wiring_ with
          | Some w => length w
          | None => num_wires
          end) wires
  /\ forall i w, wires !! i = Some w ->
       odict_get w (define_wire_map wiring_ num_wires wires)
       = if decide (i < match wiring_ with
                        | Some w => length w
                        | None => num_wires
                        end)
         then Some i else None.
Proof.
  intros Hnd. unfold define_wire_map.
  set (n := match wiring_ with Some w => length w | None => num_wires end).
  assert (Hdw : match wiring_ with
                | Some w => seq 0 (length w)
                | None => seq 0 num_wires
                end = seq 0 n) by (by destruct wiring_).
  rewrite Hdw, OrderedDict_distinct.
  - split; [apply map_fst_combine_take|].
    intros i w Hi. by rewrite (odict_get_combine wires 0 n i w).
  - rewrite map_fst_combine_take.
    apply NoDup_ListNoDup.
    eapply sublist_NoDup; [by apply NoDup_ListNoDup|apply sublist_take].
Qed.

Section ConstructionProperties.
Context {Value Executable Gate Wire KwValue DeviceSpec : Type}.
Variable truthy : KwValue -> bool.
Variable get_qc : DeviceSpec -> gmap string KwValue ->
                  result (QuantumComputer Value Executable Gate).
Variable qubits : QuantumComputer Value Executable Gate -> list nat.
Variable super_init : wires_iterable Wire -> option Z ->
                      device Value Executable Gate ->
                      result (device Value Executable Gate).
Variable super_reset : device Value Executable Gate ->
                       device Value Executable Gate.
Implicit Types (self : device Value Executable Gate).

Lemma timeout_args_lookup (kwargs : gmap string KwValue) (k : string) :
  _get_timeout_args kwargs !! k
  = if bool_decide (k = "compiler_timeout" \/ k = "execution_timeout")
    then kwargs !! k else None.
Proof.
  unfold _get_timeout_args.
  destruct (decide (k = "compiler_timeout")) as [Hk1|Hk1].
  { subst k. rewrite bool_decide_eq_true_2 by tauto.
    destruct (kwargs !! "compiler_timeout"), (kwargs !! "execution_timeout");
      by rewrite ?lookup_insert_ne, ?lookup_insert_eq by done. }
  destruct (decide (k = "execution_timeout")) as [Hk2|Hk2].
  { subst k. rewrite bool_decide_eq_true_2 by tauto.
    destruct (kwargs !! "compiler_timeout"), (kwargs !! "execution_timeout");
      by rewrite ?lookup_insert_eq. }
  rewrite bool_decide_eq_false_2 by tauto.
  destruct (kwargs !! "compiler_timeout"), (kwargs !! "execution_timeout");
    by rewrite ?lookup_insert_ne by done.
Qed.

(** X29.  The checks of the constructor.  A number of shots that is not
    positive is rejected before the machine is opened.  With valid shots
    and a machine that opens, an integer [wires] is rejected, and so is an
    iterable whose length is not the number of qubits of the machine; both
    messages name that number, and both come after the machine was
    opened. *)
Theorem init_validates_arguments self device_ shots_ wires active_reset_
    kwargs :
  (forall n, shots_ = Some n -> (n <= 0)%Z ->
     QuantumComputerDevice_init truthy get_qc qubits super_init super_reset
       self device_ shots_ wires active_reset_ kwargs
     = ([], Raise (ValueError shots_message)))
  /\ (forall q,
        (forall n, shots_ = Some n -> (0 < n)%Z) ->
        get_qc device_ (_get_timeout_args kwargs) = Ok q ->
        (forall k, wires = WiresInt k ->
           QuantumComputerDevice_init truthy get_qc qubits super_init
             super_reset self device_ shots_ wires active_reset_ kwargs
           = ([GetQc device_ (_get_timeout_args kwargs)],
              Raise (ValueError (wires_int_message (length (qubits q))))))
        /\ (forall w, wires = WiresIterable w ->
              len_wires w <> length (qubits q) ->
              QuantumComputerDevice_init truthy get_qc qubits super_init
                super_reset self device_ shots_ wires active_reset_ kwargs
              = ([GetQc device_ (_get_timeout_args kwargs)],
                 Raise (ValueError
                          (wires_count_message (length (qubits q))
                             (len_wires w)))))).
Proof.
  split.
  - intros n -> Hn. unfold QuantumComputerDevice_init.
    by rewrite (proj2 (Z.leb_le n 0) Hn).
  - intros q Hshots Hqc.
    assert (Hs : match shots_ with
                 | Some n => (n <=? 0)%Z
                 | None => false
                 end = false).
    { destruct shots_ as [n|]; [|done].
      apply Z.leb_gt. by apply Hshots. }
    split.
    + intros k ->. unfold QuantumComputerDevice_init. by rewrite Hs, Hqc.
    + intros w -> Hlen. unfold QuantumComputerDevice_init. rewrite Hs, Hqc.
      destruct (Nat.eqb_spec (length (qubits q)) (len_wires w));
        [congruence|done].
Qed.

(** X30.  Whatever its arguments, the constructor calls [get_qc] at most
    once, for the device it was given, and passes it, of all keyword
    arguments, the compiler and execution timeouts only, each with the
    value it was given. *)
Theorem init_opens_the_machine_once self device_ shots_ wires active_reset_
    kwargs :
  exists log r,
    QuantumComputerDevice_init truthy get_qc qubits super_init super_reset
      self device_ shots_ wires active_reset_ kwargs = (log, r)
    /\ (log = [] \/ log = [GetQc device_ (_get_timeout_args kwargs)])
    /\ forall k,
         _get_timeout_args kwargs !! k
         = if bool_decide (k = "compiler_timeout" \/ k = "execution_timeout")
           then kwargs !! k else None.
Proof.
  unfold QuantumComputerDevice_init.
  destruct (match shots_ with Some n => (n <=? 0)%Z | None => false end).
  { eexists _, _. split; [reflexivity|]. split; [by left|].
    apply timeout_args_lookup. }
  destruct (get_qc device_ (_get_timeout_args kwargs)) as [q|e].
  2:{ eexists _, _. split; [reflexivity|]. split; [by right|].
      apply timeout_args_lookup. }
  cbv zeta.
  destruct wires as [|k|w].
  - destruct (negb _); [|destruct (super_init _ _ _)];
      (eexists _, _; split; [reflexivity|]; split; [by right|];
       apply timeout_args_lookup).
  - eexists _, _; split; [reflexivity|]; split; [by right|].
    apply timeout_args_lookup.
  - destruct (negb _); [|destruct (super_init _ _ _)];
      (eexists _, _; split; [reflexivity|]; split; [by right|];
       apply timeout_args_lookup).
Qed.

End ConstructionProperties.

(* ================================================================== *)
(** * The properties above on the example inputs *)

Lemma build_emits_in_order_witness :
  Forall2
    (fun o block =>
       exists g device_wires,
         _operation_map example_device !! op_name o = Some g
         /\ same_wires (op_wires o) = inr device_wires
         /\ block = Apply g
                      (map (resolved_arg
                              (_parameter_reference_map
                                 (fst (apply_parametric_operations same_wires
                                         shared_parameter_circuit
                                         example_device)))
                              (op_name o)) (op_data o))
                      device_wires)
    shared_parameter_circuit (instructions shared_parameter_program).
Proof.
  apply (build_emits_in_order same_wires example_device
           shared_parameter_circuit).
  vm_compute. reflexivity.
Defined.

Lemma untracked_parameters_stay_literal_witness :
  argument_at shared_parameter_program 3 0 = Some (ArgLit (plain 4 3)).
Proof.
  apply (untracked_parameters_stay_literal same_wires example_device
           shared_parameter_circuit
           (fst (apply_parametric_operations same_wires
                   shared_parameter_circuit example_device))
           shared_parameter_program 3
           (mk_operation "RX" [plain 4 3] [1]) 0 (plain 4 3)).
  - vm_compute. reflexivity.
  - reflexivity.
  - reflexivity.
  - left. reflexivity.
Defined.

Lemma bound_parameters_hold_their_values_witness :
  _parameter_map
    (fst (apply_parametric_operations same_wires shared_parameter_circuit
            example_device)) !! parameter_string (trainable 5 3)
  = Some [unwrap (trainable 5 3)]
  /\ forall k, k ∉ bound_keys shared_parameter_circuit ->
       _parameter_map
         (fst (apply_parametric_operations same_wires shared_parameter_circuit
                 example_device)) !! k
       = _parameter_map example_device !! k.
Proof.
  apply (bound_parameters_hold_their_values same_wires example_device
           shared_parameter_circuit _ shared_parameter_program 0
           (mk_operation "RX" [trainable 5 3] [0]) 0 (trainable 5 3)).
  - vm_compute. reflexivity.
  - intros o' q Ho' Hq _. cbn in Ho'.
    destruct Ho' as [<-|[<-|[<-|[<-|[]]]]]; vm_compute in Hq;
      first [destruct Hq as [<-|[]]; reflexivity|destruct Hq].
  - reflexivity.
  - reflexivity.
  - reflexivity.
  - discriminate.
Defined.

Lemma handles_declared_once_witness :
  prog (fst (apply_parametric_operations same_wires shared_parameter_circuit
               example_device))
  = mk_Program
      (instructions (prog example_device)
       ++ map (fun k => DECLARE k "REAL" 1)
            (fresh_keys (dom (_parameter_reference_map example_device))
                        (bound_keys shared_parameter_circuit)))
      (memory (prog example_device)) (num_shots (prog example_device))
  /\ NoDup (fresh_keys (dom (_parameter_reference_map example_device))
                       (bound_keys shared_parameter_circuit))
  /\ forall k,
       k ∈ fresh_keys (dom (_parameter_reference_map example_device))
                      (bound_keys shared_parameter_circuit)
       <-> k ∈ bound_keys shared_parameter_circuit
           /\ _parameter_reference_map example_device !! k = None.
Proof.
  apply (handles_declared_once same_wires example_device
           shared_parameter_circuit _ shared_parameter_program).
  vm_compute. reflexivity.
Defined.

Lemma builder_keeps_table_invariant_witness :
  table_invariant
    (fst (apply_parametric_operations same_wires unsupported_with_parameter
            example_device)).
Proof.
  apply (builder_keeps_table_invariant same_wires example_device
           unsupported_with_parameter).
  split.
  - reflexivity.
  - intros s r Hs. vm_compute in Hs. discriminate.
Defined.

Lemma build_after_reset_witness :
  dom (_parameter_reference_map
         (fst (apply_parametric_operations same_wires shared_parameter_circuit
                 (reset base_reset cached_device))))
  = list_to_set (bound_keys shared_parameter_circuit)
  /\ dom (_parameter_map
            (fst (apply_parametric_operations same_wires
                    shared_parameter_circuit (reset base_reset cached_device))))
     = list_to_set (bound_keys shared_parameter_circuit)
  /\ (forall k r,
        _parameter_reference_map
          (fst (apply_parametric_operations same_wires shared_parameter_circuit
                  (reset base_reset cached_device))) !! k = Some r ->
        r = mk_ref k 0)
  /\ instructions
       (prog (fst (apply_parametric_operations same_wires
                     shared_parameter_circuit (reset base_reset cached_device))))
     = instructions (prog (base_reset cached_device))
       ++ map (fun k => DECLARE k "REAL" 1)
            (fresh_keys ∅ (bound_keys shared_parameter_circuit)).
Proof.
  apply (build_after_reset same_wires base_reset cached_device
           shared_parameter_circuit _ shared_parameter_program).
  - reflexivity.
  - vm_compute. reflexivity.
Defined.

Lemma apply_measures_every_qubit_witness :
  exists body,
    instructions
      (prog (fst (apply same_wires shared_parameter_circuit [] example_device)))
    = Pragma "INITIAL_REWIRING" [quoted "PARTIAL"]
      :: (if active_reset example_device then [RESET] else [])
      ++ instructions (prog example_device) ++ body
      ++ DECLARE "ro" "BIT" (length (wiring example_device))
      :: imap (fun i q => MEASURE q (mk_ref "ro" i))
           (sorted (wiring example_device))
    /\ num_shots
         (prog (fst (apply same_wires shared_parameter_circuit []
                       example_device)))
       = shots example_device
    /\ Permutation (sorted (wiring example_device)) (wiring example_device)
    /\ StronglySorted le (sorted (wiring example_device)).
Proof.
  apply (apply_measures_every_qubit same_wires example_device
           shared_parameter_circuit []).
  vm_compute. reflexivity.
Defined.

Lemma bound_values_reach_the_machine_witness :
  Forall (fun sent =>
            In (DECLARE (parameter_string (trainable 9 3)) "REAL" 1)
               (instructions sent)
            /\ memory sent !! parameter_string (trainable 9 3)
               = Some [unwrap (trainable 9 3)])
         (sent_programs
            (generate_samples
               (fst (apply same_wires shared_parameter_circuit []
                       example_device))).1.2).
Proof.
  apply (bound_values_reach_the_machine same_wires example_device
           shared_parameter_circuit [] _ 2
           (mk_operation "RX" [trainable 9 3] [0]) 0 (trainable 9 3)).
  - reflexivity.
  - reflexivity.
  - reflexivity.
  - vm_compute. reflexivity.
  - intros o' q Ho' Hq _. cbn in Ho'.
    destruct Ho' as [<-|[<-|[<-|[<-|[]]]]]; vm_compute in Hq;
      first [destruct Hq as [<-|[]]; reflexivity|destruct Hq].
  - reflexivity.
  - reflexivity.
  - reflexivity.
  - discriminate.
Defined.

Lemma generate_samples_pushes_values_witness :
  prog (generate_samples cached_device).1.1
  = mk_Program (instructions (prog cached_device))
      (_parameter_map cached_device ∪ memory (prog cached_device))
      (num_shots (prog cached_device))
  /\ Forall (fun p => p = prog (generate_samples cached_device).1.1)
       (sent_programs (generate_samples cached_device).1.2).
Proof.
  apply (generate_samples_pushes_values cached_device). reflexivity.
Defined.

Lemma pyqvm_never_compiles_witness :
  Forall (fun ev => exists p, ev = EvRun (inl p))
    (run_calls pyqvm_device [example_call 11 1; example_call 11 2]).2
  /\ _compiled_program_dict
       (run_calls pyqvm_device [example_call 11 1; example_call 11 2]).1
     = _compiled_program_dict pyqvm_device
  /\ _compiled_program
       (run_calls pyqvm_device [example_call 11 1; example_call 11 2]).1
     = _compiled_program pyqvm_device.
Proof.
  apply (pyqvm_never_compiles pyqvm_device). reflexivity.
Defined.

Lemma no_hash_no_cache_witness :
  compile_hashes
    (run_calls plain_device [example_call 11 1; example_call 11 2]).2
  = repeat None (length [example_call 11 1; example_call 11 2])
  /\ _compiled_program_dict
       (run_calls plain_device [example_call 11 1; example_call 11 2]).1
     = _compiled_program_dict plain_device.
Proof.
  apply (no_hash_no_cache plain_device).
  - reflexivity.
  - intros c p Hc. cbn in Hc. destruct Hc as [<-|[<-|[]]]; by exists 7.
  - left. reflexivity.
Defined.

Lemma cache_hit_runs_stored_program_witness :
  (generate_samples cached_device).1.2 = [EvRun (inr 7)]
  /\ (generate_samples cached_device).2
     = samples_of (qc_run (qc cached_device) (inr 7))
  /\ _compiled_program (generate_samples cached_device).1.1 = Some 7
  /\ _compiled_program_dict (generate_samples cached_device).1.1
     = _compiled_program_dict cached_device.
Proof.
  apply (cache_hit_runs_stored_program cached_device 11%Z 7); reflexivity.
Defined.

Lemma compile_failure_is_not_cached_witness :
  (generate_samples failing_device).2 = Raise (ValueError "quilc")
  /\ (generate_samples failing_device).1.2
     = [EvCompile (circuit_hash failing_device) (pushed_program failing_device)]
  /\ _compiled_program_dict (generate_samples failing_device).1.1
     = _compiled_program_dict failing_device
  /\ _compiled_program (generate_samples failing_device).1.1
     = _compiled_program failing_device.
Proof.
  apply (compile_failure_is_not_cached failing_device).
  - reflexivity.
  - intros h _. reflexivity.
  - reflexivity.
Defined.

Lemma cache_survives_reset_witness :
  circuit_hash (reset base_reset cached_device) = None
  /\ (generate_samples
        (execute_hash 11%Z (reset base_reset cached_device))).1.2
     = [EvRun (inr 7)].
Proof.
  apply (cache_survives_reset base_reset cached_device 11%Z 7); reflexivity.
Defined.

Lemma wire_map_is_positional_witness :
  map fst (define_wire_map (Some [5; 7]) 0 ["a"; "b"; "c"])
  = take (length [5; 7]) ["a"; "b"; "c"]
  /\ forall i w, ["a"; "b"; "c"] !! i = Some w ->
       odict_get w (define_wire_map (Some [5; 7]) 0 ["a"; "b"; "c"])
       = if decide (i < length [5; 7]) then Some i else None.
Proof.
  apply (wire_map_is_positional (Some [5; 7]) 0 ["a"; "b"; "c"]).
  apply NoDup_ListNoDup. by apply (bool_decide_unpack _).
Defined.

Lemma init_validates_arguments_witness :
  QuantumComputerDevice_init nonzero (fun _ _ => Ok example_qc)
    (fun _ => [0; 1]) (fun _ _ s => Ok s) base_reset example_device
    "2q-qvm" (Some 0%Z) (@WiresNone nat) false example_kwargs
  = ([], Raise (ValueError shots_message))
  /\ QuantumComputerDevice_init nonzero (fun _ _ => Ok example_qc)
       (fun _ => [0; 1]) (fun _ _ s => Ok s) base_reset example_device
       "2q-qvm" (Some 10%Z) (@WiresInt nat 2) false example_kwargs
     = ([GetQc "2q-qvm" (_get_timeout_args example_kwargs)],
        Raise (ValueError (wires_int_message 2)))
  /\ QuantumComputerDevice_init nonzero (fun _ _ => Ok example_qc)
       (fun _ => [0; 1]) (fun _ _ s => Ok s) base_reset example_device
       "2q-qvm" None (WiresIterable (WiresLabels [0; 1; 2])) false
       example_kwargs
     = ([GetQc "2q-qvm" (_get_timeout_args example_kwargs)],
        Raise (ValueError (wires_count_message 2 3))).
Proof.
  split; [|split].
  - apply (proj1 (init_validates_arguments nonzero (fun _ _ => Ok example_qc)
                    (fun _ => [0; 1]) (fun _ _ s => Ok s) base_reset
                    example_device "2q-qvm" (Some 0%Z) WiresNone false
                    example_kwargs) 0%Z); [reflexivity|lia].
  - apply (proj1 (proj2 (init_validates_arguments nonzero
                           (fun _ _ => Ok example_qc)
                           (fun _ => [0; 1]) (fun _ _ s => Ok s) base_reset
                           example_device "2q-qvm" (Some 10%Z) (WiresInt 2)
                           false example_kwargs) example_qc
                   ltac:(intros n [= <-]; lia) eq_refl) 2%Z eq_refl).
  - apply (proj2 (proj2 (init_validates_arguments nonzero
                           (fun _ _ => Ok example_qc)
                           (fun _ => [0; 1]) (fun _ _ s => Ok s) base_reset
                           example_device "2q-qvm" None
                           (WiresIterable (WiresLabels [0; 1; 2]))
                           false example_kwargs) example_qc
                   ltac:(intros n [=]) eq_refl) _ eq_refl).
    cbn. lia.
Defined.
